(** * Lesson-plan response pipeline ([ai/utils.py]): a shallow embedding

    The development follows the Python module function by function:
    [sanitize_text], [SCHEMA] and its validation, [clean_invalid_json_chars],
    [normalize_ai_response] (with its local [key_map] and [flatten_value]),
    the retry loop of [generate_lesson_plan] with its handlers, [build_prompt],
    and the view [generate_and_save_lesson_plan] of [lesson_plan/views.py].

    Conventions.
    - Python [str] values are [string]s whose characters are read as the code
      points U+0000..U+00FF; code points above U+00FF are outside the
      modelled alphabet.  A JSON text inside the alphabet can still name
      such code points with escapes: [Json.loads] decodes them, and an
      attempt whose decoded answer has one ends the run with
      [BeyondAlphabet], where the model stops.
    - Python [int] is [Z]; Python [float] is an IEEE binary64 value
      ([spec_float], precision 53, emax 1024) with Python's decimal input and
      output conversions written out.
    - A [dict] is an association list in insertion order: assigning to a key
      already present keeps its position, a new key goes to the end.
    - A raised exception is the left injection of a sum, a returned value the
      right one. *)

From Stdlib Require Import ZArith String Ascii List Bool Lia DecimalString SpecFloat.
From Stdlib Require Import Permutation.
Import ListNotations.
Set Warnings "-register-all".
Open Scope string_scope.
Open Scope Z_scope.

(** ** Text primitives of Python's [str] *)

Module Text.

Definition dquote : ascii := "034"%char.
Definition backslash : ascii := "092"%char.
Definition newline : ascii := "010"%char.
Definition backtick : ascii := "096"%char.
Definition squote : ascii := "039"%char.

Definition chr (c : ascii) : string := String c EmptyString.

(** [code c] is [ord(c)]. *)
Definition code (c : ascii) : N := N_of_ascii c.

Definition in_range (lo hi : N) (c : ascii) : bool :=
  (N.leb lo (code c) && N.leb (code c) hi)%bool.

(** [str.isspace] on one character (the white-space code points below U+0100). *)
Definition isspace (c : ascii) : bool :=
  (in_range 9 13 c || in_range 28 32 c || N.eqb (code c) 133 || N.eqb (code c) 160)%bool.

Fixpoint lstrip (s : string) : string :=
  match s with
  | EmptyString => EmptyString
  | String c r => if isspace c then lstrip r else s
  end.

Fixpoint rstrip (s : string) : string :=
  match s with
  | EmptyString => EmptyString
  | String c r =>
      match rstrip r with
      | EmptyString => if isspace c then EmptyString else chr c
      | r' => String c r'
      end
  end.

(** [s.strip()] *)
Definition strip (s : string) : string := rstrip (lstrip s).

(** [s.replace(old, new)] for a one-character [old]. *)
Fixpoint replace (old : ascii) (new : string) (s : string) : string :=
  match s with
  | EmptyString => EmptyString
  | String c r =>
      if Ascii.eqb c old then new ++ replace old new r else String c (replace old new r)
  end.

(** [str.lower] on one character: A-Z, and the upper-case letters
    U+00C0..U+00DE except the multiplication sign U+00D7. *)
Definition lower_char (c : ascii) : ascii :=
  if (in_range 65 90 c || (in_range 192 222 c && negb (N.eqb (code c) 215)))%bool
  then ascii_of_N (code c + 32) else c.

Fixpoint lower (s : string) : string :=
  match s with
  | EmptyString => EmptyString
  | String c r => String (lower_char c) (lower r)
  end.

Fixpoint join (sep : string) (l : list string) : string :=
  match l with
  | [] => EmptyString
  | [x] => x
  | x :: r => x ++ sep ++ join sep r
  end.

Fixpoint repeat_char (c : ascii) (n : nat) : string :=
  match n with O => EmptyString | S k => String c (repeat_char c k) end.

(** [c in s] for a character. *)
Fixpoint mem (c : ascii) (s : string) : bool :=
  match s with
  | EmptyString => false
  | String d r => (Ascii.eqb d c || mem c r)%bool
  end.

(** [str(z)] for an [int]. *)
Definition str_of_Z (z : Z) : string := NilZero.string_of_int (Z.to_int z).

Definition hex_digit (n : N) : ascii :=
  if N.ltb n 10 then ascii_of_N (48 + n) else ascii_of_N (87 + n).

(** two lower-case hexadecimal digits of a code point below 256 *)
Definition hex2 (c : ascii) : string :=
  String (hex_digit (N.div (code c) 16)) (chr (hex_digit (N.modulo (code c) 16))).

End Text.
Import Text.

(** ** Python floats: [float(text)] and [repr(x)] *)

Module PyFloat.

Definition prec : Z := 53.
Definition emax : Z := 1024.

(** The binary64 value nearest to [(-1)^neg * d * 10^e], for [d >= 0]
    (ties to even). *)
Definition of_decimal (neg : bool) (d : Z) (e : Z) : spec_float :=
  match d with
  | Zpos p =>
      if 0 <=? e then binary_round prec emax neg (Pos.mul p (Z.to_pos (10 ^ e))) 0
      else let '(q, e', l) := SFdiv_core_binary prec emax d 0 (10 ^ (- e)) 0 in
           binary_round_aux prec emax neg q e' l
  | _ => S754_zero neg
  end.

(** The rational [num/den] equal to [m * 2^e]. *)
Definition ratio (m : positive) (e : Z) : Z * Z :=
  if 0 <=? e then (Zpos m * 2 ^ e, 1) else (Zpos m, 2 ^ (- e)).

(** [10^k <= num/den] *)
Definition ge_pow10 (nd : Z * Z) (k : Z) : bool :=
  let '(num, den) := nd in
  if 0 <=? k then 10 ^ k * den <=? num else den <=? num * 10 ^ (- k).

Definition floor_log10 (nd : Z * Z) : Z :=
  let '(num, den) := nd in
  let est := ((Z.log2 num - Z.log2 den) * 30103) / 100000 in
  if ge_pow10 nd (est + 1) then est + 1
  else if ge_pow10 nd est then est else est - 1.

(** [floor (num/den / 10^k)] *)
Definition scaled_floor (nd : Z * Z) (k : Z) : Z :=
  let '(num, den) := nd in
  if 0 <=? k then num / (den * 10 ^ k) else (num * 10 ^ (- k)) / den.

(** compares [2 * num/den] with [s * 10^k] *)
Definition cmp_twice (nd : Z * Z) (s k : Z) : comparison :=
  let '(num, den) := nd in
  if 0 <=? k then 2 * num ?= s * 10 ^ k * den
  else 2 * num * 10 ^ (- k) ?= s * den.

Definition round_trips (m : positive) (e : Z) (c k : Z) : bool :=
  match c, of_decimal false c k with
  | Zpos _, S754_finite false m' e' => (Pos.eqb m m' && Z.eqb e e')%bool
  | _, _ => false
  end.

(** The shortest decimal [c * 10^k] that reads back as [m * 2^e]: digit
    counts [p], [p+1], ... are tried in turn, and of two candidates with the
    same digit count the nearer one is taken. *)
Fixpoint shortest_from (fuel : nat) (p : Z) (m : positive) (e : Z) (l10 : Z) : Z * Z :=
  let nd := ratio m e in
  let k := l10 - p + 1 in
  let lo := scaled_floor nd k in
  let hi := lo + 1 in
  match fuel with
  | O => (lo, k)
  | S fuel' =>
      match round_trips m e lo k, round_trips m e hi k with
      | true, true =>
          match cmp_twice nd (lo + hi) k with
          | Lt => (lo, k)
          | Gt => (hi, k)
          | Eq => (if Z.even lo then lo else hi, k)
          end
      | true, false => (lo, k)
      | false, true => (hi, k)
      | false, false => shortest_from fuel' (p + 1) m e l10
      end
  end.

Fixpoint drop_zeros (s : list ascii) : list ascii :=
  match s with
  | "0"%char :: r => drop_zeros r
  | _ => s
  end.

Definition rstrip_zeros (s : string) : string :=
  string_of_list_ascii (rev (drop_zeros (rev (list_ascii_of_string s)))).

(** digits [ds] and the position of the decimal point: the value is
    [0.ds * 10^decpt] *)
Definition shortest (m : positive) (e : Z) : string * Z :=
  let '(c, k) := shortest_from 17 1 m e (floor_log10 (ratio m e)) in
  let ds := str_of_Z c in
  (rstrip_zeros ds, Z.of_nat (String.length ds) + k).

Definition exponent_text (x : Z) : string :=
  let a := str_of_Z (Z.abs x) in
  (if x <? 0 then "-" else "+") ++ (if Z.abs x <? 10 then "0" ++ a else a).

(** Python's [repr] layout: exponent notation when [decpt <= -4] or
    [decpt > 16], positional notation otherwise, always with a fraction. *)
Definition format_short (ds : string) (decpt : Z) : string :=
  let n := Z.of_nat (String.length ds) in
  if ((decpt <=? -4) || (16 <? decpt))%bool then
    match ds with
    | EmptyString => EmptyString
    | String d EmptyString => chr d ++ "e" ++ exponent_text (decpt - 1)
    | String d rest => String d ("." ++ rest) ++ "e" ++ exponent_text (decpt - 1)
    end
  else if decpt <=? 0 then "0." ++ repeat_char "0" (Z.to_nat (- decpt)) ++ ds
  else if n <=? decpt then ds ++ repeat_char "0" (Z.to_nat (decpt - n)) ++ ".0"
  else substring 0 (Z.to_nat decpt) ds ++ "."
       ++ substring (Z.to_nat decpt) (Z.to_nat (n - decpt)) ds.

(** [repr(x)], which is also [str(x)] *)
Definition repr (x : spec_float) : string :=
  match x with
  | S754_zero s => if s then "-0.0" else "0.0"
  | S754_infinity s => if s then "-inf" else "inf"
  | S754_nan => "nan"
  | S754_finite s m e =>
      let '(ds, decpt) := shortest m e in
      (if s then "-" else EmptyString) ++ format_short ds decpt
  end.

(** the text [json.dumps] writes for a float ([allow_nan] is on by default) *)
Definition to_json (x : spec_float) : string :=
  match x with
  | S754_infinity s => if s then "-Infinity" else "Infinity"
  | S754_nan => "NaN"
  | _ => repr x
  end.

End PyFloat.

(** ** Python values *)

Inductive pyval : Type :=
| PyNone
| PyBool (b : bool)
| PyInt (z : Z)
| PyFloat (x : spec_float)
| PyStr (s : string)
| PyList (l : list pyval)
| PyDict (d : list (string * pyval)).

(** *** Dictionaries *)

Section Dict.
Context {V : Type}.

Fixpoint dict_get (d : list (string * V)) (k : string) : option V :=
  match d with
  | [] => None
  | (k', v) :: r => if String.eqb k' k then Some v else dict_get r k
  end.

(** [d[k] = v] *)
Fixpoint dict_set (d : list (string * V)) (k : string) (v : V) : list (string * V) :=
  match d with
  | [] => [(k, v)]
  | (k', v') :: r => if String.eqb k' k then (k', v) :: r else (k', v') :: dict_set r k v
  end.

Definition dict_keys (d : list (string * V)) : list string := map fst d.

(** [k in d] *)
Definition dict_mem (d : list (string * V)) (k : string) : bool :=
  match dict_get d k with Some _ => true | None => false end.

End Dict.

(** *** [repr], [str] and [json.dumps] *)

(** one character of [repr] of a [str] delimited by [q] *)
Definition repr_char (q : ascii) (c : ascii) : string :=
  if Ascii.eqb c backslash then "\\"
  else if Ascii.eqb c q then String backslash (chr c)
  else if N.eqb (code c) 9 then "\t"
  else if N.eqb (code c) 10 then "\n"
  else if N.eqb (code c) 13 then "\r"
  else if (N.ltb (code c) 32 || in_range 127 160 c || N.eqb (code c) 173)%bool
       then "\x" ++ hex2 c
  else chr c.

Fixpoint repr_chars (q : ascii) (s : string) : string :=
  match s with
  | EmptyString => EmptyString
  | String c r => repr_char q c ++ repr_chars q r
  end.

(** [repr(s)] for a [str]: single quotes unless the text has a single quote
    and no double quote *)
Definition str_repr (s : string) : string :=
  let q := if (mem squote s && negb (mem dquote s))%bool then dquote else squote in
  chr q ++ repr_chars q s ++ chr q.

Fixpoint py_repr (v : pyval) : string :=
  match v with
  | PyNone => "None"
  | PyBool b => if b then "True" else "False"
  | PyInt z => str_of_Z z
  | PyFloat x => PyFloat.repr x
  | PyStr s => str_repr s
  | PyList l => "[" ++ join ", " (map py_repr l) ++ "]"
  | PyDict d =>
      "{" ++ join ", " (map (fun kv => let '(k, x) := kv in str_repr k ++ ": " ++ py_repr x) d)
      ++ "}"
  end.

(** [str(v)] *)
Definition py_str (v : pyval) : string :=
  match v with
  | PyStr s => s
  | _ => py_repr v
  end.

(** one character inside a JSON string literal, [ensure_ascii=False] *)
Definition json_escape_char (c : ascii) : string :=
  if Ascii.eqb c dquote then String backslash (chr dquote)
  else if Ascii.eqb c backslash then "\\"
  else if N.eqb (code c) 10 then "\n"
  else if N.eqb (code c) 13 then "\r"
  else if N.eqb (code c) 9 then "\t"
  else if N.eqb (code c) 8 then "\b"
  else if N.eqb (code c) 12 then "\f"
  else if N.ltb (code c) 32 then "\u00" ++ hex2 c
  else chr c.

Fixpoint json_escape (s : string) : string :=
  match s with
  | EmptyString => EmptyString
  | String c r => json_escape_char c ++ json_escape r
  end.

Definition json_quote (s : string) : string := chr dquote ++ json_escape s ++ chr dquote.

(** [json.dumps(v, ensure_ascii=False)]: the default separators are
    [", "] between items and [": "] after a key. *)
Fixpoint dumps (v : pyval) : string :=
  match v with
  | PyNone => "null"
  | PyBool b => if b then "true" else "false"
  | PyInt z => str_of_Z z
  | PyFloat x => PyFloat.to_json x
  | PyStr s => json_quote s
  | PyList l => "[" ++ join ", " (map dumps l) ++ "]"
  | PyDict d =>
      "{" ++ join ", " (map (fun kv => let '(k, x) := kv in json_quote k ++ ": " ++ dumps x) d)
      ++ "}"
  end.

(** ** [json.loads]

    The scanner is a left-to-right automaton over the characters; the parser
    then works on its tokens.  A bare word is a maximal run of letters,
    digits, signs and dots; it must be one of the literals or a number.  The
    text read is in the alphabet, but its escapes [\uXXXX] can name any code
    point, so the decoded value has texts of its own kind; [to_python] gives
    the Python value when these stay inside the alphabet. *)

Module Json.

(** A decoded value.  A text is the list of its code points: an escape
    [\uXXXX] can name a code point above U+00FF, and two escapes that form
    a surrogate pair name one above U+FFFF. *)
Inductive value : Type :=
| JNull
| JBool (b : bool)
| JInt (z : Z)
| JFloat (x : spec_float)
| JStr (s : list N)
| JArr (items : list value)
| JObj (members : list (list N * value)).

Inductive token : Type :=
| TLBrace | TRBrace | TLBracket | TRBracket | TColon | TComma
| TStr (s : list N)
| TWord (w : string).

(** In a string, [acc] holds the code points read so far, the last one
    first.  [high] is a high surrogate written as [\uD8xx]..[\uDBxx] that
    waits for the escape after it: with a low surrogate the two make one
    code point, otherwise it stays as it is. *)
Inductive lstate : Type :=
| LError
| LBetween
| LWord (acc : list ascii)
| LStr (acc : list N)
| LHigh (acc : list N) (high : N)
| LEsc (acc : list N) (high : option N)
| LUni (acc : list N) (high : option N) (digits : list ascii).

(** JSON white space: space, tab, line feed, carriage return *)
Definition is_ws (c : ascii) : bool :=
  (N.eqb (code c) 32 || N.eqb (code c) 9 || N.eqb (code c) 10 || N.eqb (code c) 13)%bool.

Definition is_digit (c : ascii) : bool := in_range 48 57 c.

Definition is_word_char (c : ascii) : bool :=
  (in_range 65 90 c || in_range 97 122 c || is_digit c
   || Ascii.eqb c "+" || Ascii.eqb c "-" || Ascii.eqb c ".")%bool.

Definition hex_value (c : ascii) : option N :=
  if is_digit c then Some (code c - 48)%N
  else if in_range 97 102 c then Some (code c - 87)%N
  else if in_range 65 70 c then Some (code c - 55)%N
  else None.

Fixpoint hex_number (ds : list ascii) (acc : N) : option N :=
  match ds with
  | [] => Some acc
  | d :: r => match hex_value d with
              | Some h => hex_number r (acc * 16 + h)%N
              | None => None
              end
  end.

Definition text (acc : list ascii) : string := string_of_list_ascii (rev acc).

Definition structural (c : ascii) : option token :=
  if Ascii.eqb c "{" then Some TLBrace
  else if Ascii.eqb c "}" then Some TRBrace
  else if Ascii.eqb c "[" then Some TLBracket
  else if Ascii.eqb c "]" then Some TRBracket
  else if Ascii.eqb c ":" then Some TColon
  else if Ascii.eqb c "," then Some TComma
  else None.

(** the character an escape [\c] stands for *)
Definition unescape (c : ascii) : option ascii :=
  if Ascii.eqb c dquote then Some dquote
  else if Ascii.eqb c backslash then Some backslash
  else if Ascii.eqb c "/" then Some "/"%char
  else if Ascii.eqb c "b" then Some "008"%char
  else if Ascii.eqb c "f" then Some "012"%char
  else if Ascii.eqb c "n" then Some "010"%char
  else if Ascii.eqb c "r" then Some "013"%char
  else if Ascii.eqb c "t" then Some "009"%char
  else None.

Definition is_high (n : N) : bool := (N.leb 55296 n && N.leb n 56319)%bool.
Definition is_low (n : N) : bool := (N.leb 56320 n && N.leb n 57343)%bool.

(** the code point of a surrogate pair *)
Definition join (high low : N) : N :=
  (65536 + ((high - 55296) * 1024 + (low - 56320)))%N.

(** the code points with a waiting high surrogate put among them *)
Definition settle (acc : list N) (high : option N) : list N :=
  match high with
  | Some h => h :: acc
  | None => acc
  end.

Definition lexer : Type := list token * lstate.

(** a character met between two tokens *)
Definition between (toks : list token) (c : ascii) : lexer :=
  if is_ws c then (toks, LBetween)
  else match structural c with
       | Some t => (t :: toks, LBetween)
       | None =>
           if Ascii.eqb c dquote then (toks, LStr [])
           else if is_word_char c then (toks, LWord [c])
           else (toks, LError)
       end.

(** a character met inside a string, outside an escape *)
Definition in_string (toks : list token) (acc : list N) (c : ascii) : lexer :=
  if Ascii.eqb c dquote then (TStr (rev acc) :: toks, LBetween)
  else if Ascii.eqb c backslash then (toks, LEsc acc None)
  else if N.ltb (code c) 32 then (toks, LError)
  else (toks, LStr (code c :: acc)).

(** the state after an escape [\uXXXX] of value [n] that is not the second
    half of a pair *)
Definition escaped (acc : list N) (n : N) : lstate :=
  if is_high n then LHigh acc n else LStr (n :: acc).

Definition step (lx : lexer) (c : ascii) : lexer :=
  let '(toks, st) := lx in
  match st with
  | LError => (toks, LError)
  | LBetween => between toks c
  | LWord acc =>
      if is_word_char c then (toks, LWord (c :: acc))
      else between (TWord (text acc) :: toks) c
  | LStr acc => in_string toks acc c
  | LHigh acc high =>
      if Ascii.eqb c backslash then (toks, LEsc acc (Some high))
      else in_string toks (high :: acc) c
  | LEsc acc high =>
      if Ascii.eqb c "u" then (toks, LUni acc high [])
      else match unescape c with
           | Some d => (toks, LStr (code d :: settle acc high))
           | None => (toks, LError)
           end
  | LUni acc high ds =>
      match hex_value c with
      | None => (toks, LError)
      | Some _ =>
          if Nat.ltb (List.length ds) 3 then (toks, LUni acc high (ds ++ [c]))
          else match hex_number (ds ++ [c]) 0, high with
               | Some n, Some h =>
                   if is_low n then (toks, LStr (join h n :: acc))
                   else (toks, escaped (h :: acc) n)
               | Some n, None => (toks, escaped acc n)
               | None, _ => (toks, LError)
               end
      end
  end.

Fixpoint run (lx : lexer) (s : string) : lexer :=
  match s with
  | EmptyString => lx
  | String c r => run (step lx c) r
  end.

Definition finish (lx : lexer) : option (list token) :=
  match lx with
  | (toks, LBetween) => Some (rev toks)
  | (toks, LWord acc) => Some (rev (TWord (text acc) :: toks))
  | _ => None
  end.

Definition tokenize (s : string) : option (list token) := finish (run ([], LBetween) s).

(** *** Numbers: an optional minus sign, an integer part without leading
    zero, an optional fraction, an optional exponent *)

Fixpoint take_digits (s : string) : list ascii * string :=
  match s with
  | String c r => if is_digit c then let '(ds, rest) := take_digits r in (c :: ds, rest)
                  else ([], s)
  | EmptyString => ([], s)
  end.

Definition digits_value (ds : list ascii) : Z :=
  fold_left (fun acc d => acc * 10 + Z.of_N (code d - 48)) ds 0.

(** the integer part: a single zero, or digits not starting with zero *)
Definition int_part_ok (ds : list ascii) : bool :=
  match ds with
  | [] => false
  | [_] => true
  | d :: _ => negb (Ascii.eqb d "0")
  end.

(** the fraction, when present: its digits and the rest *)
Definition fraction (s : string) : option (list ascii * string) :=
  match s with
  | String "." r =>
      match take_digits r with
      | ([], _) => None
      | (ds, rest) => Some (ds, rest)
      end
  | _ => Some ([], s)
  end.

(** the exponent, when present: whether one is there and its value; the
    word must end after it *)
Definition exponent (s : string) : option (bool * Z) :=
  match s with
  | EmptyString => Some (false, 0)
  | String c r =>
      if (Ascii.eqb c "e" || Ascii.eqb c "E")%bool then
        let '(neg, r') :=
          match r with
          | String "-" r' => (true, r')
          | String "+" r' => (false, r')
          | _ => (false, r)
          end in
        match take_digits r' with
        | ([], _) => None
        | (ds, EmptyString) => Some (true, if neg then - digits_value ds else digits_value ds)
        | _ => None
        end
      else None
  end.

Definition number (w : string) : option value :=
  let '(neg, body) := match w with String "-" r => (true, r) | _ => (false, w) end in
  let '(ints, rest) := take_digits body in
  if int_part_ok ints then
    match fraction rest with
    | None => None
    | Some (fracs, rest') =>
        match exponent rest' with
        | None => None
        | Some (has_exp, ex) =>
            match fracs, has_exp with
            | [], false =>
                Some (JInt (if neg then - digits_value ints else digits_value ints))
            | _, _ =>
                Some (JFloat (PyFloat.of_decimal neg (digits_value (ints ++ fracs))
                                (ex - Z.of_nat (List.length fracs))))
            end
        end
    end
  else None.

Definition word_value (w : string) : option value :=
  if String.eqb w "null" then Some JNull
  else if String.eqb w "true" then Some (JBool true)
  else if String.eqb w "false" then Some (JBool false)
  else if String.eqb w "NaN" then Some (JFloat S754_nan)
  else if String.eqb w "Infinity" then Some (JFloat (S754_infinity false))
  else if String.eqb w "-Infinity" then Some (JFloat (S754_infinity true))
  else number w.

(** *** Values *)

Fixpoint key_eqb (a b : list N) : bool :=
  match a, b with
  | [], [] => true
  | x :: a', y :: b' => (N.eqb x y && key_eqb a' b')%bool
  | _, _ => false
  end.

(** [d[k] = v] on the members read so far *)
Fixpoint member_set (d : list (list N * value)) (k : list N) (v : value)
  : list (list N * value) :=
  match d with
  | [] => [(k, v)]
  | (k', v') :: r => if key_eqb k' k then (k', v) :: r else (k', v') :: member_set r k v
  end.

(** the items of an array after the opening bracket, at most [n] of them,
    each parsed by [value] *)
Fixpoint elements (parse : list token -> option (value * list token))
  (n : nat) (ts : list token) (acc : list value) : option (value * list token) :=
  match n with
  | O => None
  | S n' =>
      match parse ts with
      | Some (v, TComma :: r) => elements parse n' r (v :: acc)
      | Some (v, TRBracket :: r) => Some (JArr (rev (v :: acc)), r)
      | _ => None
      end
  end.

(** the members of an object after the opening brace; a key met again
    takes the new value *)
Fixpoint members (parse : list token -> option (value * list token))
  (n : nat) (ts : list token) (acc : list (list N * value))
  : option (value * list token) :=
  match n with
  | O => None
  | S n' =>
      match ts with
      | TStr k :: TColon :: r1 =>
          match parse r1 with
          | Some (v, TComma :: r) => members parse n' r (member_set acc k v)
          | Some (v, TRBrace :: r) => Some (JObj (member_set acc k v), r)
          | _ => None
          end
      | _ => None
      end
  end.

Fixpoint parse_value (fuel : nat) (ts : list token) : option (value * list token) :=
  match fuel with
  | O => None
  | S fuel' =>
      match ts with
      | TWord w :: r => match word_value w with Some v => Some (v, r) | None => None end
      | TStr s :: r => Some (JStr s, r)
      | TLBracket :: TRBracket :: r => Some (JArr [], r)
      | TLBracket :: r => elements (parse_value fuel') fuel' r []
      | TLBrace :: TRBrace :: r => Some (JObj [], r)
      | TLBrace :: r => members (parse_value fuel') fuel' r []
      | _ => None
      end
  end.

(** One more unit of fuel than there are tokens is enough: each nested
    value and each item takes at least one token
    ([parse_value_enough] below). *)
(** [json.loads(s)]; [None] stands for [json.JSONDecodeError]. *)
Definition loads (s : string) : option value :=
  match tokenize s with
  | Some ts =>
      match parse_value (S (List.length ts)) ts with
      | Some (v, []) => Some v
      | _ => None
      end
  | None => None
  end.

(** *** Decoded values inside the modelled alphabet *)

(** the text of code points that are all below U+0100 *)
Fixpoint narrow (s : list N) : option string :=
  match s with
  | [] => Some EmptyString
  | n :: r =>
      if N.ltb n 256 then option_map (String (ascii_of_N n)) (narrow r) else None
  end.

(** the Python value of a decoded value whose texts, keys included, stay
    below U+0100; [None] when one of them does not *)
Fixpoint to_python (v : value) : option pyval :=
  match v with
  | JNull => Some PyNone
  | JBool b => Some (PyBool b)
  | JInt z => Some (PyInt z)
  | JFloat x => Some (PyFloat x)
  | JStr s => option_map PyStr (narrow s)
  | JArr items =>
      option_map PyList
        ((fix all (l : list value) : option (list pyval) :=
            match l with
            | [] => Some []
            | x :: r =>
                match to_python x, all r with
                | Some y, Some ys => Some (y :: ys)
                | _, _ => None
                end
            end) items)
  | JObj members =>
      option_map PyDict
        ((fix all (l : list (list N * value)) : option (list (string * pyval)) :=
            match l with
            | [] => Some []
            | (k, x) :: r =>
                match narrow k, to_python x, all r with
                | Some k', Some y, Some ys => Some ((k', y) :: ys)
                | _, _, _ => None
                end
            end) members)
  end.

End Json.

(** ** Regular expressions of [re], as far as the patterns need them

    A pattern is a sequence of items, matched by backtracking: a literal
    character, [\s*] (greedy) and the capturing group [(.*?)] (lazy, with
    [re.DOTALL] so that the dot takes every character). *)

Module Re.

Inductive item : Type :=
| Lit (c : ascii)
| Spaces
| Group.

Definition pattern : Type := list item.

Fixpoint lit (s : string) : pattern :=
  match s with
  | EmptyString => []
  | String c r => Lit c :: lit r
  end.

(** Matches the items at the start of [s]; the result is the text captured
    by the group and the text left after the match. *)
Fixpoint match_here (p : pattern) (s : string) (g : string) : option (string * string) :=
  match p with
  | [] => Some (g, s)
  | Lit c :: p' =>
      match s with
      | String d s' => if Ascii.eqb d c then match_here p' s' g else None
      | EmptyString => None
      end
  | Spaces :: p' =>
      (fix greedy (s : string) : option (string * string) :=
         match s with
         | String d s' =>
             if isspace d then
               match greedy s' with
               | Some m => Some m
               | None => match_here p' s g
               end
             else match_here p' s g
         | EmptyString => match_here p' s g
         end) s
  | Group :: p' =>
      (fix lazy (s : string) (acc : list ascii) : option (string * string) :=
         match match_here p' s (string_of_list_ascii (rev acc)) with
         | Some m => Some m
         | None =>
             match s with
             | String d s' => lazy s' (d :: acc)
             | EmptyString => None
             end
         end) s []
  end.

(** [re.search(p, s, re.DOTALL)] finds a match *)
Fixpoint search (p : pattern) (s : string) : bool :=
  match match_here p s EmptyString with
  | Some _ => true
  | None =>
      match s with
      | String _ s' => search p s'
      | EmptyString => false
      end
  end.

(** [re.sub(p, r"\1", s, flags=re.DOTALL)]: every match, from left to right
    and without overlap, is replaced by what its group captured; the text
    between the matches stays.  The patterns below start with a literal
    and never match the empty text, so the scan resumes right after a match
    and fuel above the length of the text is enough ([sub_from_enough]
    below). *)
Fixpoint sub_from (fuel : nat) (p : pattern) (s : string) : string :=
  match fuel with
  | O => s
  | S fuel' =>
      match match_here p s EmptyString with
      | Some (g, rest) => g ++ sub_from fuel' p rest
      | None =>
          match s with
          | String c s' => String c (sub_from fuel' p s')
          | EmptyString => EmptyString
          end
      end
  end.

Definition sub (p : pattern) (s : string) : string := sub_from (S (String.length s)) p s.

(** what the group captures in the first match of [p] in [s] *)
Fixpoint first_group (p : pattern) (s : string) : option string :=
  match match_here p s EmptyString with
  | Some (g, _) => Some g
  | None =>
      match s with
      | String _ s' => first_group p s'
      | EmptyString => None
      end
  end.

End Re.

(** ** Exceptions *)

(** one error of the schema validator: where in the instance, and which
    keyword of the schema is violated *)
Inductive keyword : Type :=
| KType
| KRequired (property : string)
| KMinLength
| KMaxLength
| KAdditionalProperties (extras : list string).

Definition violation : Type := list string * keyword.

(** what the model call raises, by the [except] clause of
    [generate_lesson_plan] that takes it.  [ollama.chat] decodes the body of
    the server's answer with [json], so a [json.JSONDecodeError] can leave
    it; a [jsonschema.ValidationError] is listed for a client that raises
    one; everything else ([ollama.ResponseError], connection and transport
    errors, a [KeyError] of [response["message"]["content"]]) reaches the
    handler for [Exception]. *)
Inductive model_error : Type :=
| ModelError (message : string)
| ModelJSONDecodeError
| ModelValidationError.

Inductive exn : Type :=
| InsufficientContent
    (* ValueError("AI returned insufficient content") *)
| UnrepairableContent
    (* ValueError("Unable to clean JSON: ...") *)
| InvalidResponseShape
    (* ValueError("AI response must be a dictionary") *)
| JSONDecodeError
    (* json.JSONDecodeError *)
| SchemaViolation (errors : list violation)
    (* jsonschema.ValidationError: the one [best_match] picks among [errors] *)
| ModelCallError (e : model_error)
| UnboundLocalError (name : string)
    (* raised where a handler reads a local variable that no assignment has
       bound yet *)
| BeyondAlphabet
    (* not an exception of the program: the answer decodes to a value with
       a character above U+00FF, and the model ends here *)
| GenerationExhausted (max_retries : Z) (cause : option exn)
    (* ValueError("Failed to generate valid lesson plan after N attempts"),
       raised [from last_error] *).

Definition result (A : Type) : Type := exn + A.

Notation "x <- e ;; k" :=
  (match e with inl err => inl err | inr x => k end)
  (at level 61, e at next level, right associativity).

(** ** [sanitize_text] *)

Definition ALLOWED_TAGS : list string :=
  ["p"; "br"; "ul"; "li"; "strong"; "em"; "b"; "i"; "h1"; "h2"; "h3"; "ol"].

Definition ALLOWED_ATTRIBUTES : list (string * list string) :=
  [("*", ["class"]); ("a", ["href"; "title"])].

(** [bleach.clean(text, tags=..., attributes=..., strip=...)] *)
Definition cleaner : Type :=
  list string -> list (string * list string) -> bool -> string -> string.

Definition sanitize_text (bleach_clean : cleaner) (text : pyval) : string :=
  match text with
  | PyStr s => bleach_clean ALLOWED_TAGS ALLOWED_ATTRIBUTES true s
  | _ => py_str text
  end.

(** The names of the tags written in a text: after each [<], an optional [/]
    and then the letters and digits that follow, in lower case. *)
Definition is_name_char (c : ascii) : bool :=
  (in_range 65 90 c || in_range 97 122 c || in_range 48 57 c)%bool.

Fixpoint take_name (s : string) : string :=
  match s with
  | String c r => if is_name_char c then String (lower_char c) (take_name r) else EmptyString
  | EmptyString => EmptyString
  end.

Fixpoint tags_of (s : string) : list string :=
  match s with
  | EmptyString => []
  | String c r =>
      if Ascii.eqb c "<" then
        match r with
        | String "/" r' => take_name r' :: tags_of r
        | _ => take_name r :: tags_of r
        end
      else tags_of r
  end.

Definition only_allowed_tags (s : string) : bool :=
  forallb (fun t => existsb (String.eqb t) ALLOWED_TAGS) (tags_of s).

(** a cleaner that takes every [<] and [>] out of the text: no tag is left *)
Fixpoint drop_angles (s : string) : string :=
  match s with
  | EmptyString => EmptyString
  | String c r =>
      if (Ascii.eqb c "<" || Ascii.eqb c ">")%bool then drop_angles r
      else String c (drop_angles r)
  end.

(** ** [SCHEMA] and [jsonschema.validate] *)

Inductive jtype : Type := TString | TObject | TArray.

(** The keywords that [SCHEMA] uses; [None] is a keyword left out. *)
Inductive schema : Type :=
| Schema (type : option (list jtype))
         (required : list string)
         (properties : list (string * schema))
         (minLength maxLength : option nat)
         (additionalProperties : bool).

Definition string_schema (types : list jtype) (mn mx : nat) : schema :=
  Schema (Some types) [] [] (Some mn) (Some mx) true.

Definition SCHEMA : schema :=
  Schema
    (Some [TObject])
    ["objectives"; "teaching_materials"; "reference_materials"; "introduction";
     "lesson_development"; "conclusion"; "recapitulation"; "evaluation";
     "teacher_evaluation"; "homework"]
    [("objectives", string_schema [TString] 10 2000);
     ("teaching_materials", string_schema [TString; TObject; TArray] 5 1000);
     ("reference_materials", string_schema [TString; TArray] 5 1000);
     ("introduction", string_schema [TString; TObject] 20 1500);
     ("lesson_development", string_schema [TString; TObject] 50 5000);
     ("conclusion", string_schema [TString] 20 1500);
     ("recapitulation", string_schema [TString] 10 1000);
     ("evaluation", string_schema [TString] 10 1000);
     ("teacher_evaluation", string_schema [TString] 10 1000);
     ("homework", string_schema [TString] 5 1000)]
    None None
    false.

Definition has_type (v : pyval) (t : jtype) : bool :=
  match t, v with
  | TString, PyStr _ => true
  | TObject, PyDict _ => true
  | TArray, PyList _ => true
  | _, _ => false
  end.

Definition check_type (type : option (list jtype)) (path : list string) (v : pyval)
  : list violation :=
  match type with
  | Some ts => if existsb (has_type v) ts then [] else [(path, KType)]
  | None => []
  end.

Definition check_required (required : list string) (path : list string) (v : pyval)
  : list violation :=
  match v with
  | PyDict d =>
      flat_map (fun r => if dict_mem d r then [] else [(path, KRequired r)]) required
  | _ => []
  end.

Definition check_minLength (mn : option nat) (path : list string) (v : pyval)
  : list violation :=
  match mn, v with
  | Some n, PyStr s => if Nat.ltb (String.length s) n then [(path, KMinLength)] else []
  | _, _ => []
  end.

Definition check_maxLength (mx : option nat) (path : list string) (v : pyval)
  : list violation :=
  match mx, v with
  | Some n, PyStr s => if Nat.ltb n (String.length s) then [(path, KMaxLength)] else []
  | _, _ => []
  end.

Definition check_additional (allowed : bool) (properties : list string)
  (path : list string) (v : pyval) : list violation :=
  match v with
  | PyDict d =>
      if allowed then []
      else match filter (fun k => negb (existsb (String.eqb k) properties)) (dict_keys d) with
           | [] => []
           | extras => [(path, KAdditionalProperties extras)]
           end
  | _ => []
  end.

(** [validator.iter_errors(instance)]: the keywords are checked in the order
    in which the schema lists them. *)
Fixpoint iter_errors (sch : schema) (path : list string) (v : pyval) : list violation :=
  match sch with
  | Schema type required properties mn mx additional =>
      check_type type path v
      ++ check_required required path v
      ++ match v with
         | PyDict d =>
             flat_map
               (fun ps => let '(p, sub) := ps in
                  match dict_get d p with
                  | Some x => iter_errors sub (path ++ [p]) x
                  | None => []
                  end)
               properties
         | _ => []
         end
      ++ check_minLength mn path v
      ++ check_maxLength mx path v
      ++ check_additional additional (map fst properties) path v
  end.

(** [validate(instance=v, schema=sch)] *)
Definition validate (v : pyval) (sch : schema) : result unit :=
  match iter_errors sch [] v with
  | [] => inr tt
  | errors => inl (SchemaViolation errors)
  end.

(** ** [clean_invalid_json_chars] *)

(** a fenced block labelled as JSON, any fenced block, an inline span *)
Definition json_fence : Re.pattern :=
  (Re.lit "```json" ++ [Re.Spaces; Re.Group; Re.Spaces] ++ Re.lit "```")%list.

Definition any_fence : Re.pattern :=
  (Re.lit "```" ++ [Re.Spaces; Re.Group; Re.Spaces] ++ Re.lit "```")%list.

Definition inline_span : Re.pattern :=
  (Re.lit "`" ++ [Re.Group] ++ Re.lit "`")%list.

Definition patterns : list Re.pattern := [json_fence; any_fence; inline_span].

(** the [for pattern, replacement in patterns: ... break] loop *)
Fixpoint strip_fences (ps : list Re.pattern) (content : string) : string :=
  match ps with
  | [] => content
  | p :: rest =>
      if Re.search p content then strip (Re.sub p content)
      else strip_fences rest content
  end.

(** [repair_json] of the [json_repair] package is a parameter: [None] stands
    for an exception.  The byte-order mark U+FEFF is not in the alphabet, so
    removing it leaves every modelled text as it is, and of the first
    statement only [strip] is written. *)
Definition clean_invalid_json_chars (repair_json : string -> option string)
  (content : string) : result string :=
  let content := strip content in
  let content := strip_fences patterns content in
  match repair_json content with
  | None => inl UnrepairableContent
  | Some cleaned =>
      match Json.loads cleaned with
      | None => inl UnrepairableContent
      | Some _ => inr (strip cleaned)
      end
  end.

(** ** [normalize_ai_response] *)

Definition key_map : list (string * string) :=
  [("objective", "objectives");
   ("objectives", "objectives");
   ("learning_objectives", "objectives");
   ("lesson_objectives", "objectives");
   ("teaching_materials", "teaching_materials");
   ("materials", "teaching_materials");
   ("resources", "teaching_materials");
   ("reference_materials", "reference_materials");
   ("references", "reference_materials");
   ("bibliography", "reference_materials");
   ("introduction", "introduction");
   ("lesson_development", "lesson_development");
   ("development", "lesson_development");
   ("main_lesson", "lesson_development");
   ("conclusion", "conclusion");
   ("summary", "conclusion");
   ("recapulation", "recapitulation");
   ("recapitulation", "recapitulation");
   ("recap", "recapitulation");
   ("review", "recapitulation");
   ("evaluation", "evaluation");
   ("assessment", "evaluation");
   ("teacher_evaluation", "teacher_evaluation");
   ("reflection", "teacher_evaluation");
   ("homework", "homework");
   ("assignment", "homework");
   ("home_work", "homework")].

Definition required_fields : list string :=
  ["objectives"; "teaching_materials"; "reference_materials"; "introduction";
   "lesson_development"; "conclusion"; "recapitulation"; "evaluation";
   "teacher_evaluation"; "homework"].

(** On the values of [pyval], [json.dumps] does not raise, so the handler
    around it in the source is never entered. *)
Definition flatten_value (value : pyval) : string :=
  match value with
  | PyDict _ | PyList _ => strip (replace newline " " (dumps value))
  | _ => strip (replace newline " " (py_str value))
  end.

(** [key_map.get(ai_key.lower(), None)], kept when it is truthy *)
Definition model_key (ai_key : string) : option string :=
  match dict_get key_map (lower ai_key) with
  | Some EmptyString => None
  | Some k => Some k
  | None => None
  end.

Definition record : Type := list (string * string).

(** the loop over [ai_response.items()] *)
Fixpoint map_items (items : list (string * pyval)) (normalized : record) : record :=
  match items with
  | [] => normalized
  | (ai_key, value) :: rest =>
      match model_key ai_key with
      | Some k => map_items rest (dict_set normalized k (flatten_value value))
      | None => map_items rest normalized
      end
  end.

(** the loop over [required_fields] *)
Fixpoint fill_missing (fields : list string) (normalized : record) : record :=
  match fields with
  | [] => normalized
  | field :: rest =>
      if dict_mem normalized field then fill_missing rest normalized
      else fill_missing rest (dict_set normalized field EmptyString)
  end.

Definition normalize_ai_response (ai_response : pyval) : result record :=
  match ai_response with
  | PyDict items => inr (fill_missing required_fields (map_items items []))
  | _ => inl InvalidResponseShape
  end.

(** the normalized [dict] as the value handed to [validate] *)
Definition record_value (r : record) : pyval :=
  PyDict (map (fun kv => (fst kv, PyStr (snd kv))) r).

(** ** [generate_lesson_plan] *)

Record LessonPlanConfig : Type := {
  model_name : string;
  max_retries : Z;
  timeout : Z;
  temperature : spec_float
}.

Definition default_config : LessonPlanConfig :=
  {| model_name := "gemma3:1b-it-qat";
     max_retries := 3;
     timeout := 120;
     temperature := PyFloat.of_decimal false 7 (-1) |}.

(** [ollama.chat(...)["message"]["content"]] is a call to the outside: the
    [n]-th call made during one run (counted from 0) answers with a text or
    raises. *)
Definition chat_service : Type :=
  string -> string -> spec_float -> Z -> nat -> model_error + string.

(** what one run does to the outside, in order *)
Inductive event : Type :=
| Invoke (n : nat)
| Sleep (seconds : Z).

(** the body of the [try] once the model has answered *)
Definition process (repair_json : string -> option string) (content : string)
  : result record :=
  if (String.eqb content EmptyString || Nat.ltb (String.length (strip content)) 50)%bool
  then inl InsufficientContent
  else
    clean_content <- clean_invalid_json_chars repair_json content ;;
    match Json.loads clean_content with
    | None => inl JSONDecodeError
    | Some decoded =>
        match Json.to_python decoded with
        | None => inl BeyondAlphabet
        | Some parsed =>
            normalized <- normalize_ai_response parsed ;;
            _ <- validate (record_value normalized) SCHEMA ;;
            inr normalized
        end
    end.

Definition attempt_once (repair_json : string -> option string)
  (response : model_error + string) : result record :=
  match response with
  | inl e => inl (ModelCallError e)
  | inr content => process repair_json content
  end.

(** The local variables of [generate_lesson_plan] that its handlers read.
    They are assigned in the [try] body and keep their values from one
    iteration of the loop to the next; [None] is a name that no assignment
    has bound yet. *)
Module Locals.
Record t : Type := {
  content : option string;
  clean_content : option string;
  parsed : option Json.value
}.
Definition unbound : t := {| content := None; clean_content := None; parsed := None |}.
End Locals.

(** the assignments that the [try] body makes before it returns or raises *)
Definition assign (repair_json : string -> option string)
  (response : model_error + string) (vars : Locals.t) : Locals.t :=
  match response with
  | inl _ => vars
  | inr content =>
      let vars :=
        {| Locals.content := Some content;
           Locals.clean_content := Locals.clean_content vars;
           Locals.parsed := Locals.parsed vars |} in
      if (String.eqb content EmptyString || Nat.ltb (String.length (strip content)) 50)%bool
      then vars
      else
        match clean_invalid_json_chars repair_json content with
        | inl _ => vars
        | inr clean_content =>
            let vars :=
              {| Locals.content := Locals.content vars;
                 Locals.clean_content := Some clean_content;
                 Locals.parsed := Locals.parsed vars |} in
            match Json.loads clean_content with
            | None => vars
            | Some decoded =>
                {| Locals.content := Locals.content vars;
                   Locals.clean_content := Locals.clean_content vars;
                   Locals.parsed := Some decoded |}
            end
        end
  end.

(** the three [except] clauses, in the order of the source *)
Inductive clause : Type :=
| OnJSONDecodeError
| OnValidationError
| OnException.

(** the first clause whose class the exception belongs to *)
Definition clause_of (e : exn) : clause :=
  match e with
  | JSONDecodeError | ModelCallError ModelJSONDecodeError => OnJSONDecodeError
  | SchemaViolation _ | ModelCallError ModelValidationError => OnValidationError
  | _ => OnException
  end.

(** The body of the handler.  Each one stores the exception in
    [last_error] and writes to the log.  The texts of the log calls are
    f-strings, evaluated whatever the log level is: the handler for
    [json.JSONDecodeError] reads [content] and then [clean_content], the one
    for [ValidationError] reads [parsed] (and [normalized] only when it is
    bound).  Reading a name that is not bound raises [UnboundLocalError]
    inside the handler, which no clause of the same [try] takes.  [inr tt]
    is a handler that runs to its end. *)
Definition handle (vars : Locals.t) (e : exn) : result unit :=
  match e with
  | BeyondAlphabet => inl BeyondAlphabet
  | _ =>
      match clause_of e with
      | OnJSONDecodeError =>
          match Locals.content vars, Locals.clean_content vars with
          | None, _ => inl (UnboundLocalError "content")
          | Some _, None => inl (UnboundLocalError "clean_content")
          | Some _, Some _ => inr tt
          end
      | OnValidationError =>
          match Locals.parsed vars with
          | None => inl (UnboundLocalError "parsed")
          | Some _ => inr tt
          end
      | OnException => inr tt
      end
  end.

(** [for attempt in range(config.max_retries)], with [todo] iterations left.
    An attempt that raises goes through its handler; when the handler runs
    to its end the loop sleeps [2**attempt] seconds, unless the attempt was
    the last one, and goes on; an exception raised by the handler leaves the
    function. *)
Fixpoint attempts (chat : chat_service) (repair_json : string -> option string)
  (prompt : string) (config : LessonPlanConfig)
  (todo : nat) (attempt : nat) (last_error : option exn) (vars : Locals.t)
  (trace : list event)
  : list event * result record :=
  match todo with
  | O => (trace, inl (GenerationExhausted (max_retries config) last_error))
  | S todo' =>
      let response :=
        chat (model_name config) prompt (temperature config) (timeout config) attempt in
      let trace := (trace ++ [Invoke attempt])%list in
      let vars := assign repair_json response vars in
      match attempt_once repair_json response with
      | inr normalized => (trace, inr normalized)
      | inl e =>
          match handle vars e with
          | inl raised => (trace, inl raised)
          | inr _ =>
              let trace :=
                if Z.of_nat attempt <? max_retries config - 1
                then (trace ++ [Sleep (2 ^ Z.of_nat attempt)])%list else trace in
              attempts chat repair_json prompt config todo' (S attempt) (Some e) vars trace
          end
      end
  end.

(** [if config is None: config = LessonPlanConfig()] *)
Definition effective (config : option LessonPlanConfig) : LessonPlanConfig :=
  match config with Some c => c | None => default_config end.

Definition generate_lesson_plan (chat : chat_service)
  (repair_json : string -> option string)
  (prompt : string) (config : option LessonPlanConfig)
  : list event * result record :=
  let config := effective config in
  attempts chat repair_json prompt config (Z.to_nat (max_retries config)) 0 None
    Locals.unbound [].

(** the outcome of the [n]-th attempt of a run *)
Definition outcome (chat : chat_service) (repair_json : string -> option string)
  (prompt : string) (config : LessonPlanConfig) (n : nat) : result record :=
  attempt_once repair_json
    (chat (model_name config) prompt (temperature config) (timeout config) n).

(** the sleep after the failed attempt [n] *)
Definition backoff (config : LessonPlanConfig) (n : nat) : list event :=
  if Z.of_nat n <? max_retries config - 1 then [Sleep (2 ^ Z.of_nat n)] else [].

(** the variables after [count] attempts in a row, the first being [from] *)
Fixpoint vars_after (chat : chat_service) (repair_json : string -> option string)
  (prompt : string) (config : LessonPlanConfig)
  (vars : Locals.t) (from count : nat) : Locals.t :=
  match count with
  | O => vars
  | S count' =>
      vars_after chat repair_json prompt config
        (assign repair_json
           (chat (model_name config) prompt (temperature config) (timeout config) from)
           vars)
        (S from) count'
  end.

(** attempt [from + n] of a run that had the variables [vars] before attempt
    [from] fails, and its handler runs to its end *)
Definition retried (chat : chat_service) (repair_json : string -> option string)
  (prompt : string) (config : LessonPlanConfig)
  (vars : Locals.t) (from n : nat) : Prop :=
  exists e,
    outcome chat repair_json prompt config (from + n) = inl e
    /\ handle (vars_after chat repair_json prompt config vars from (S n)) e = inr tt.

(** the errors of an attempt whose handler reads nothing but what the
    attempt has assigned before the error: all errors of an attempt except
    the two of the model call that the first two clauses take, and except
    the end of the model *)
Definition self_contained (e : exn) : bool :=
  match e with
  | InsufficientContent | UnrepairableContent | InvalidResponseShape
  | JSONDecodeError | SchemaViolation _ | ModelCallError (ModelError _) => true
  | _ => false
  end.

(** what [count] failed attempts in a row, the first being [from], do *)
Definition failed_attempts (config : LessonPlanConfig) (from count : nat) : list event :=
  flat_map (fun n => Invoke n :: backoff config n) (seq from count).

Definition invocations (trace : list event) : nat :=
  List.length (filter (fun ev => match ev with Invoke _ => true | Sleep _ => false end) trace).

(** ** What the schema asks of a record *)

Definition properties_of (sch : schema) : list (string * schema) :=
  match sch with Schema _ _ properties _ _ _ => properties end.

Definition length_bounds (sch : schema) : option (nat * nat) :=
  match sch with
  | Schema _ _ _ (Some mn) (Some mx) _ => Some (mn, mx)
  | _ => None
  end.

(** the bounds [SCHEMA] configures for a field *)
Definition field_bounds (f : string) : option (nat * nat) :=
  match dict_get (properties_of SCHEMA) f with
  | Some sub => length_bounds sub
  | None => None
  end.

(** exactly the ten canonical fields, each once, each text within the
    bounds of its field *)
Definition schema_ok (r : record) : Prop :=
  NoDup (dict_keys r)
  /\ (forall k, In k (dict_keys r) <-> In k required_fields)
  /\ (forall f v mn mx,
        dict_get r f = Some v -> field_bounds f = Some (mn, mx) ->
        (mn <= String.length v <= mx)%nat).

Definition length_errors (path : list string) (mn mx : nat) (v : string) : list violation :=
  (check_minLength (Some mn) path (PyStr v) ++ check_maxLength (Some mx) path (PyStr v))%list.

(** the errors of a field of a record *)
Definition property_errors (r : record) (ps : string * schema) : list violation :=
  let '(p, sub) := ps in
  match dict_get (map (fun kv => (fst kv, PyStr (snd kv))) r) p with
  | Some x => iter_errors sub ([] ++ [p])%list x
  | None => []
  end.


(** ** Example inputs *)

(** a text between double quotes *)
Definition quoted (s : string) : string := chr dquote ++ s ++ chr dquote.

(** the pair [materials: [book, chalk]] of the scenario, decoded *)
Definition materials_example : pyval :=
  PyDict [("materials", PyList [PyStr "book"; PyStr "chalk"])].

(** the array as [json.dumps] writes it, and without the space after the comma *)
Definition book_chalk_spaced : string := "[" ++ quoted "book" ++ ", " ++ quoted "chalk" ++ "]".
Definition book_chalk_compact : string := "[" ++ quoted "book" ++ "," ++ quoted "chalk" ++ "]".

(** a list or a dictionary *)
Definition is_nested (v : pyval) : bool :=
  match v with
  | PyList _ | PyDict _ => true
  | _ => false
  end.

Definition is_mapping (v : pyval) : bool :=
  match v with
  | PyDict _ => true
  | _ => false
  end.

(** a record with every field filled by [n] letters *)
Definition filled_record (n : nat) : record :=
  map (fun f => (f, repeat_char "x" n)) required_fields.

(** a model that always answers with the JSON text of a valid record, one
    that always answers with the same short text, and a repair pass that
    hands its text back *)
Definition good_chat : chat_service :=
  fun _ _ _ _ _ => inr (dumps (record_value (filled_record 50))).

Definition curt_chat : chat_service := fun _ _ _ _ _ => inr "no".

Definition second_time_chat : chat_service :=
  fun _ _ _ _ n =>
    match n with
    | 1%nat => inr (dumps (record_value (filled_record 50)))
    | _ => inr "no"
    end.

Definition repair_identity (s : string) : option string := Some s.

(** a model that always answers with sixty question marks *)
Definition garbled_chat : chat_service := fun _ _ _ _ _ => inr (repeat_char "?" 60).

(** a model call that always raises [json.JSONDecodeError], as when the
    server answers with a body that is not JSON; and one that answers with
    sixty question marks first and raises from then on *)
Definition undecodable_chat : chat_service := fun _ _ _ _ _ => inl ModelJSONDecodeError.

Definition garbled_then_undecodable : chat_service :=
  fun _ _ _ _ n =>
    match n with
    | O => inr (repeat_char "?" 60)
    | _ => inl ModelJSONDecodeError
    end.

(** the four errors that arise inside one attempt once the model has
    answered *)
Definition attempt_local (e : exn) : Prop :=
  match e with
  | InsufficientContent | UnrepairableContent | InvalidResponseShape
  | SchemaViolation _ => True
  | _ => False
  end.

(** the characters of the texts [str] writes for numbers *)
Definition numeric_alphabet : string := "0123456789-+.einfa".

(** what [bleach.clean] with [strip=True] is relied on for: every tag left
    in its output is on the allow-list *)
Definition sanitize_contract (bleach_clean : cleaner) : Prop :=
  forall s, only_allowed_tags (bleach_clean ALLOWED_TAGS ALLOWED_ATTRIBUTES true s) = true.

Definition strip_cleaner : cleaner := fun _ _ _ s => drop_angles s.

Definition is_text (v : pyval) : bool :=
  match v with PyStr _ => true | _ => false end.

(** a value that is not a text and whose text has markup in it *)
Definition script_list : pyval := PyList [PyStr "<script>alert(1)</script>"].

Definition plain_json : string := "{" ++ quoted "a" ++ ": " ++ quoted "b" ++ "}".

(** the white-space characters of [str.isspace] below U+0100 *)
Definition space_chars : list ascii :=
  ["009"; "010"; "011"; "012"; "013"; "028"; "029"; "030"; "031"; "032"; "133"; "160"]%char.

(** ** [build_prompt] *)

(** [bool(v)] *)
Definition truthy (v : pyval) : bool :=
  match v with
  | PyNone => false
  | PyBool b => b
  | PyInt z => negb (z =? 0)
  | PyFloat (S754_zero _) => false
  | PyFloat _ => true
  | PyStr EmptyString => false
  | PyStr _ => true
  | PyList [] => false
  | PyList _ => true
  | PyDict [] => false
  | PyDict _ => true
  end.

Definition is_identifier_char (c : ascii) : bool :=
  (in_range 65 90 c || in_range 97 122 c || in_range 48 57 c || Ascii.eqb c "_")%bool.

(** [template.format(name=value, ...)] for the part of the format language that
    [BASE_PROMPT] uses: doubled braces stand for one brace, and a name
    between single braces is replaced by the argument of that name, whose
    text is not scanned again.  [field] is [None] in plain text and holds
    the characters of the name read so far inside a replacement field.
    [None] as result stands for the exception ([ValueError] for a single
    closing brace or an open field, [KeyError] or [IndexError] for a name
    that is not among the arguments).  A field with a conversion, a format
    specification, an attribute or an index is outside this part. *)
Fixpoint format_from (template : string) (field : option (list ascii))
  (args : list (string * string)) : option string :=
  match template, field with
  | EmptyString, None => Some EmptyString
  | EmptyString, Some _ => None
  | String c r, None =>
      if Ascii.eqb c "{" then
        match r with
        | String "{" r' => option_map (String "{") (format_from r' None args)
        | _ => format_from r (Some []) args
        end
      else if Ascii.eqb c "}" then
        match r with
        | String "}" r' => option_map (String "}") (format_from r' None args)
        | _ => None
        end
      else option_map (String c) (format_from r None args)
  | String c r, Some name =>
      if Ascii.eqb c "}" then
        match dict_get args (string_of_list_ascii (rev name)) with
        | Some v => option_map (append v) (format_from r None args)
        | None => None
        end
      else if is_identifier_char c then format_from r (Some (c :: name)) args
      else None
  end.

Definition format (template : string) (args : list (string * string)) : option string :=
  format_from template None args.

Definition BASE_PROMPT : string :=
  join (chr newline)
    [ EmptyString;
      "You are an experienced Zambian teacher with expertise in curriculum development.";
      EmptyString;
      "Generate a lesson plan as a SINGLE VALID JSON object with exactly these fields:";
      "{fields}";
      EmptyString;
      "CRITICAL INSTRUCTIONS:";
      "1. Return ONLY one valid JSON object, no extra text, markdown, or multiple objects.";
      "2. Use standard ASCII double quotes (" ++ chr dquote ++ ") only.";
      "3. Use EXACT field names as listed (e.g., 'objectives', not 'objective').";
      "4. All values must be strings, not objects or arrays. Combine nested content into a single string with spaces instead of newlines.";
      "5. Ensure all string values are properly escaped and meet length requirements (e.g., objectives: 10-2000 characters).";
      "6. Make content specific to Zambian educational context.";
      "7. For " ++ quoted "lesson_development" ++ ", include step-by-step teaching activities, expected student responses, interaction methods, and assessment checkpoints as a single string.";
      EmptyString;
      "Lesson Parameters:";
      "{details}";
      EmptyString;
      "Example JSON structure:";
      "{{";
      "  " ++ quoted "objectives" ++ ": "
        ++ quoted "Students will understand the process of respiration." ++ ",";
      "  " ++ quoted "teaching_materials" ++ ": "
        ++ quoted "Chalkboard, markers, respiration diagram" ++ ",";
      "  " ++ quoted "reference_materials" ++ ": "
        ++ quoted "Zambian Grade 8 Science Textbook" ++ ",";
      "  " ++ quoted "introduction" ++ ": "
        ++ quoted "Discuss breathing with a Think-Pair-Share activity." ++ ",";
      "  " ++ quoted "lesson_development" ++ ": "
        ++ quoted "Step 1: Explain respiration (10 min). Step 2: Show diagram (15 min)." ++ ",";
      "  " ++ quoted "conclusion" ++ ": "
        ++ quoted "Summarize the role of oxygen in respiration." ++ ",";
      "  " ++ quoted "recapitulation" ++ ": "
        ++ quoted "Ask students to explain respiration." ++ ",";
      "  " ++ quoted "evaluation" ++ ": "
        ++ quoted "Quiz on respiration components." ++ ",";
      "  " ++ quoted "teacher_evaluation" ++ ": "
        ++ quoted "Reflect on student engagement." ++ ",";
      "  " ++ quoted "homework" ++ ": " ++ quoted "Draw a respiration diagram.";
      "}}";
      EmptyString ].

(** one line of the listing: the key with spaces for underscores and in
    title case, then the value as [str] writes it.  [str.title] is a
    parameter: the title case of some characters of the alphabet lies
    outside it. *)
Definition detail_line (title : string -> string) (key : string) (value : pyval) : string :=
  "  - " ++ title (replace "_" " " key) ++ ": " ++ py_str value.

(** the loop over [lesson_data.items()], appending to [details] *)
Fixpoint collect_details (title : string -> string) (items : list (string * pyval))
  (details : list string) : list string :=
  match items with
  | [] => details
  | (key, value) :: rest =>
      if truthy value
      then collect_details title rest (details ++ [detail_line title key value])%list
      else collect_details title rest details
  end.

Definition build_prompt (title : string -> string) (lesson_data : list (string * pyval))
  : option string :=
  let fields := join (chr newline) (map (fun field => "  - " ++ field) required_fields) in
  let details_str := join (chr newline) (collect_details title lesson_data []) in
  format BASE_PROMPT [("fields", fields); ("details", details_str)].

(** ** [int(text)] *)

(** the digits after the sign: single underscores may stand between two
    digits; [after_digit] tells whether the character before was a digit *)
Fixpoint int_digits (s : string) (acc : Z) (after_digit : bool) : option Z :=
  match s with
  | EmptyString => if after_digit then Some acc else None
  | String c r =>
      if in_range 48 57 c then int_digits r (acc * 10 + Z.of_N (code c - 48)) true
      else if (Ascii.eqb c "_" && after_digit)%bool then
        match r with
        | String d _ => if in_range 48 57 d then int_digits r acc false else None
        | EmptyString => None
        end
      else None
  end.

(** the interpreter's default limit on the digits of a decimal text
    ([sys.int_info.default_max_str_digits]) *)
Definition MAX_STR_DIGITS : nat := 4300.

Definition digit_count (s : string) : nat :=
  List.length (filter (in_range 48 57) (list_ascii_of_string s)).

(** the white space [int] skips around the number: the six ASCII
    characters of C's [isspace], and the two white-space characters above
    U+007F, which [int] turns into spaces first.  The separators
    U+001C..U+001F, which [str.strip] takes off, are not among them. *)
Definition int_space (c : ascii) : bool :=
  (in_range 9 13 c || N.eqb (code c) 32 || N.eqb (code c) 133 || N.eqb (code c) 160)%bool.

Fixpoint int_lstrip (s : string) : string :=
  match s with
  | EmptyString => EmptyString
  | String c r => if int_space c then int_lstrip r else s
  end.

Fixpoint int_rstrip (s : string) : string :=
  match s with
  | EmptyString => EmptyString
  | String c r =>
      match int_rstrip r with
      | EmptyString => if int_space c then EmptyString else chr c
      | r' => String c r'
      end
  end.

(** [int(s)] in base ten: white space around the number, an optional sign,
    no more digits than the interpreter's limit; [None] stands for
    [ValueError] *)
Definition py_int (s : string) : option Z :=
  if (MAX_STR_DIGITS <? digit_count s)%nat then None
  else
    match int_rstrip (int_lstrip s) with
    | String "-" r => option_map Z.opp (int_digits r 0 false)
    | String "+" r => int_digits r 0 false
    | r => int_digits r 0 false
    end.

(** ** [generate_and_save_lesson_plan] ([lesson_plan/views.py]) *)

Definition REQUIRED_FORM_FIELDS : list string :=
  ["teacher_name"; "date"; "school"; "time"; "grade"; "duration"; "subject";
   "num_pupils"; "topic"; "sub_topic"; "gender"].

(** the keyword arguments of [LessonPlan.objects.create], in order *)
Definition LESSON_FIELDS : list string :=
  (REQUIRED_FORM_FIELDS ++ required_fields)%list.

(** what [LessonPlan.objects.create] does with the fields: it stores the
    lesson and gives its id, or raises Django's [ValidationError], or raises
    something else *)
Inductive store_result : Type :=
| Stored (id : Z)
| StoreInvalid (message : string)
| StoreFailed.

(** what the view renders: the page of the created plan, the form for a
    [ValidationError] raised with [message] (the page shows [str(e)], which
    is Django's writing of that message), the form with the fixed text for
    any other exception, or the empty form.  [BeyondModel] is no page: it
    stands for a run whose answer left the alphabet, where the model of
    the view ends as well. *)
Inductive response : Type :=
| PlanCreated (id : Z)
| FormError (message : string)
| FormUnexpected
| EmptyForm
| BeyondModel.

Record view_result : Type := {
  model_events : list event;
  created : option (list (string * string));
  rendered : response
}.

Definition no_effect (r : response) : view_result :=
  {| model_events := []; created := None; rendered := r |}.

(** [[field for field in REQUIRED_FORM_FIELDS if not data.get(field)]] *)
Definition missing_fields (data : list (string * pyval)) : list string :=
  filter (fun field => match dict_get data field with
                       | Some v => negb (truthy v)
                       | None => true
                       end) REQUIRED_FORM_FIELDS.

(** [{**data, **ai_response}] *)
Definition merge (data : list (string * pyval)) (ai_response : record)
  : list (string * pyval) :=
  fold_left (fun d kv => dict_set d (fst kv) (PyStr (snd kv))) ai_response data.

(** [sanitized_data[name]] for each name, in order; [None] stands for [KeyError] *)
Fixpoint pick (names : list string) (d : list (string * string))
  : option (list (string * string)) :=
  match names with
  | [] => Some []
  | name :: rest =>
      match dict_get d name, pick rest d with
      | Some v, Some fields => Some ((name, v) :: fields)
      | _, _ => None
      end
  end.

(** [request.POST.dict()]: every value is a text *)
Definition form_data (post : list (string * string)) : list (string * pyval) :=
  map (fun kv => (fst kv, PyStr (snd kv))) post.

(** [data] after [data["num_pupils"] = int(data["num_pupils"])] *)
Definition prompt_data (post : list (string * string)) (n : Z) : list (string * pyval) :=
  dict_set (form_data post) "num_pupils" (PyInt n).

(** [{key: sanitize_text(value) for key, value in {**data, **ai_response}.items()}] *)
Definition sanitized (bleach_clean : cleaner) (data : list (string * pyval))
  (ai_response : record) : list (string * string) :=
  map (fun kv => (fst kv, sanitize_text bleach_clean (snd kv))) (merge data ai_response).

(** what is rendered after [LessonPlan.objects.create] *)
Definition after_create (stored : store_result) : response :=
  match stored with
  | Stored id => PlanCreated id
  | StoreInvalid message => FormError message
  | StoreFailed => FormUnexpected
  end.

(** the rest of the view once [generate_lesson_plan] has come back with
    its events and its result: the second normalization, the sanitized
    dictionary, the creation of the lesson *)
Definition store_plan (bleach_clean : cleaner)
  (create : list (string * string) -> store_result)
  (data : list (string * pyval)) (run : list event * result record) : view_result :=
  let '(trace, generated) := run in
  let failed := {| model_events := trace; created := None; rendered := FormUnexpected |} in
  match generated with
  | inl BeyondAlphabet =>
      {| model_events := trace; created := None; rendered := BeyondModel |}
  | inl _ => failed
  | inr ai_response_raw =>
      match normalize_ai_response (record_value ai_response_raw) with
      | inl _ => failed
      | inr ai_response =>
          match pick LESSON_FIELDS (sanitized bleach_clean data ai_response) with
          | None => failed
          | Some fields =>
              {| model_events := trace;
                 created := Some fields;
                 rendered := after_create (create fields) |}
          end
      end
  end.

(** The view for the request method and the posted form.  Writes to the log
    and to the message store are left out. *)
Definition generate_and_save_lesson_plan
  (chat : chat_service) (repair_json : string -> option string)
  (bleach_clean : cleaner) (title : string -> string)
  (create : list (string * string) -> store_result)
  (method : string) (post : list (string * string)) : view_result :=
  if negb (String.eqb method "POST") then no_effect EmptyForm
  else
    match missing_fields (form_data post) with
    | (_ :: _) as missing =>
        no_effect (FormError ("Missing required fields: " ++ join ", " missing))
    | [] =>
        match dict_get post "num_pupils" with
        | None => no_effect FormUnexpected
        | Some text =>
            match py_int text with
            | None => no_effect (FormError "Invalid number of pupils")
            | Some n =>
                if n <=? 0 then no_effect (FormError "Number of pupils must be positive")
                else
                  match build_prompt title (prompt_data post n) with
                  | None => no_effect FormUnexpected
                  | Some prompt =>
                      store_plan bleach_clean create (prompt_data post n)
                        (generate_lesson_plan chat repair_json prompt None)
                  end
            end
        end
    end.

(** a complete form whose number of pupils reads as the positive integer [n] *)
Definition valid_form (post : list (string * string)) (n : Z) : Prop :=
  missing_fields (form_data post) = []
  /\ exists text, dict_get post "num_pupils" = Some text /\ py_int text = Some n /\ 0 < n.

(** a form with every required field filled in *)
Definition sample_form : list (string * string) :=
  [("teacher_name", "A. Banda"); ("date", "2024-05-06"); ("school", "Kabwe Primary");
   ("time", "08:00"); ("grade", "7"); ("duration", "40 minutes");
   ("subject", "Science <b>"); ("num_pupils", " 30 "); ("topic", "Respiration");
   ("sub_topic", "Breathing"); ("gender", "mixed");
   ("objectives", "typed into the form")].

(** a model that never answers *)
Definition silent_chat : chat_service := fun _ _ _ _ _ => inl (ModelError "timeout").

(** ** Notions used in the further properties *)

(** a text made of white space only *)
Fixpoint all_space (s : string) : bool :=
  match s with
  | EmptyString => true
  | String c r => (isspace c && all_space r)%bool
  end.

(** ** Texts with fenced blocks and inline spans *)

Definition is_tick (c : ascii) : bool := Ascii.eqb c backtick.

(** the number of back-ticks in a text *)
Fixpoint ticks (s : string) : nat :=
  match s with
  | EmptyString => O
  | String c r => if is_tick c then S (ticks r) else ticks r
  end.

(** the number of literal back-ticks in a pattern *)
Fixpoint lit_ticks (p : Re.pattern) : nat :=
  match p with
  | [] => O
  | Re.Lit c :: q => if is_tick c then S (lit_ticks q) else lit_ticks q
  | _ :: q => lit_ticks q
  end.

(** three back-ticks at the start of the text, and somewhere in it *)
Definition starts_fence (s : string) : bool :=
  match s with
  | String a (String b (String c _)) => (is_tick a && is_tick b && is_tick c)%bool
  | _ => false
  end.

Fixpoint has_fence (s : string) : bool :=
  (starts_fence s
   || match s with
      | String _ r => has_fence r
      | EmptyString => false
      end)%bool.

Definition first_is (p : ascii -> bool) (s : string) : bool :=
  match s with
  | String c _ => p c
  | EmptyString => false
  end.

Fixpoint last_is (p : ascii -> bool) (s : string) : bool :=
  match s with
  | EmptyString => false
  | String c r =>
      match r with
      | EmptyString => p c
      | String _ _ => last_is p r
      end
  end.

(** [needle] at the start of the text, and somewhere in it *)
Fixpoint starts_with (needle s : string) : bool :=
  match needle, s with
  | EmptyString, _ => true
  | String a n, String b r => (Ascii.eqb b a && starts_with n r)%bool
  | String _ _, EmptyString => false
  end.

Fixpoint occurs (needle s : string) : bool :=
  (starts_with needle s
   || match s with
      | String _ r => occurs needle r
      | EmptyString => false
      end)%bool.

(** Text around fenced blocks: it has no fence marker, and no back-tick at
    its end, which would join the marker after it.  Single and double
    back-ticks inside are allowed. *)
Definition free_text (s : string) : bool :=
  (negb (has_fence s) && negb (last_is is_tick s))%bool.

(** the content of a block: free text without white space at its ends *)
Definition block_text (s : string) : bool :=
  (free_text s && negb (first_is isspace s) && negb (last_is isspace s))%bool.

(** a fenced block with the text before it: the text, the opening marker,
    white space, the content, white space, the closing marker *)
Module Fenced.
Record block : Type := {
  before : string;
  gap : string;
  body : string;
  gap' : string
}.

Definition ok (b : block) : bool :=
  (free_text (before b) && all_space (gap b) && block_text (body b)
   && all_space (gap' b))%bool.

(** the text with its blocks, each opened by [opener], and what is left of
    it when the markers and the white space inside them are taken out *)
Fixpoint text (opener : string) (blocks : list block) (tail : string) : string :=
  match blocks with
  | [] => tail
  | b :: r =>
      before b ++ opener ++ gap b ++ body b ++ gap' b ++ "```" ++ text opener r tail
  end.

Fixpoint content (blocks : list block) (tail : string) : string :=
  match blocks with
  | [] => tail
  | b :: r => before b ++ body b ++ content r tail
  end.
End Fenced.

(** an inline span with the text before it; neither has a back-tick *)
Module Inline.
Record span : Type := {
  before : string;
  body : string
}.

Definition ok (sp : span) : bool :=
  (negb (mem backtick (before sp)) && negb (mem backtick (body sp)))%bool.

Fixpoint text (spans : list span) (tail : string) : string :=
  match spans with
  | [] => tail
  | sp :: r => before sp ++ "`" ++ body sp ++ "`" ++ text r tail
  end.

Fixpoint content (spans : list span) (tail : string) : string :=
  match spans with
  | [] => tail
  | sp :: r => before sp ++ body sp ++ content r tail
  end.
End Inline.

(** the scan of a lazy group, as [Re.match_here] makes it, with the
    characters taken so far *)
Fixpoint lazy_scan (q : Re.pattern) (s : string) (acc : list ascii)
  : option (string * string) :=
  match Re.match_here q s (string_of_list_ascii (rev acc)) with
  | Some m => Some m
  | None =>
      match s with
      | String d s' => lazy_scan q s' (d :: acc)
      | EmptyString => None
      end
  end.

(** two JSON blocks in fences with inline spans around them *)
Definition two_blocks : list Fenced.block :=
  [ {| Fenced.before := "`a` "; Fenced.gap := chr newline;
       Fenced.body := "{}"; Fenced.gap' := chr newline |};
    {| Fenced.before := " and ``b`` "; Fenced.gap := " ";
       Fenced.body := "[1, `c`]"; Fenced.gap' := EmptyString |} ].

(** an inline span that holds a JSON object, and a JSON block in a fence
    after it *)
Definition span_and_fence : string :=
  "`{" ++ quoted "x" ++ ": 1}` ```json" ++ chr newline
  ++ "{" ++ quoted "y" ++ ": 2}" ++ chr newline ++ "```".


(** the seconds slept during a run *)
Fixpoint total_sleep (trace : list event) : Z :=
  match trace with
  | [] => 0
  | Sleep seconds :: rest => seconds + total_sleep rest
  | Invoke _ :: rest => total_sleep rest
  end.

(** the keys of a mapping in lower case *)
Definition lower_keys (items : list (string * pyval)) : list (string * pyval) :=
  map (fun kv => (lower (fst kv), snd kv)) items.

(** a text that [flatten_value] leaves as it is: no line feed, no white
    space at its ends *)
Definition settled (x : string) : Prop := mem newline x = false /\ strip x = x.

Definition settled_values (r : record) : Prop :=
  forall k x, dict_get r k = Some x -> settled x.

(** the listing of the fields in the prompt *)
Definition fields_text : string :=
  join (chr newline) (map (fun field => "  - " ++ field) required_fields).

(** what [build_prompt] keeps of the parameters *)
Definition kept (lesson_data : list (string * pyval)) : list (string * pyval) :=
  filter (fun kv => truthy (snd kv)) lesson_data.

(** * Properties *)

(** ** Dictionaries *)

Section DictFacts.
Context {V : Type}.
Implicit Types (d : list (string * V)) (k : string) (v : V).

Lemma dict_get_set_eq d k v : dict_get (dict_set d k v) k = Some v.
Proof.
  induction d as [|[k' v'] d IH]; simpl.
  - now rewrite String.eqb_refl.
  - destruct (String.eqb k' k) eqn:E; simpl; rewrite E; auto.
Qed.

Lemma dict_get_set_ne d k k' v :
  k <> k' -> dict_get (dict_set d k v) k' = dict_get d k'.
Proof.
  intros Hne. induction d as [|[k0 v0] d IH]; simpl.
  - destruct (String.eqb k k') eqn:E; auto.
    apply String.eqb_eq in E. contradiction.
  - destruct (String.eqb k0 k) eqn:E; simpl.
    + apply String.eqb_eq in E. subst k0.
      destruct (String.eqb k k') eqn:E'; auto.
      apply String.eqb_eq in E'. contradiction.
    + now rewrite IH.
Qed.

Lemma dict_keys_set d k v k' :
  In k' (dict_keys (dict_set d k v)) <-> k' = k \/ In k' (dict_keys d).
Proof.
  induction d as [|[k0 v0] d IH]; simpl.
  - intuition.
  - destruct (String.eqb k0 k) eqn:E; simpl.
    + apply String.eqb_eq in E. subst. intuition.
    + unfold dict_keys in IH. rewrite IH. intuition.
Qed.

Lemma dict_keys_set_NoDup d k v :
  NoDup (dict_keys d) -> NoDup (dict_keys (dict_set d k v)).
Proof.
  induction d as [|[k0 v0] d IH]; simpl; intros Hnd.
  - constructor; [intros [] | constructor].
  - inversion Hnd as [|? ? Hnotin Hnd']; subst.
    destruct (String.eqb k0 k) eqn:E; simpl.
    + constructor; assumption.
    + constructor; [|now apply IH].
      intros Hin. apply dict_keys_set in Hin. destruct Hin as [->|Hin].
      * now rewrite String.eqb_refl in E.
      * contradiction.
Qed.

Lemma dict_get_In_keys d k : dict_get d k <> None <-> In k (dict_keys d).
Proof.
  induction d as [|[k0 v0] d IH]; simpl.
  - intuition.
  - destruct (String.eqb k0 k) eqn:E.
    + apply String.eqb_eq in E. subst. split; [auto | discriminate].
    + rewrite IH. apply String.eqb_neq in E. unfold dict_keys. intuition.
Qed.

Lemma dict_mem_In d k : dict_mem d k = true <-> In k (dict_keys d).
Proof.
  rewrite <- dict_get_In_keys. unfold dict_mem.
  destruct (dict_get d k); split; congruence.
Qed.

Lemma dict_get_In d k v : dict_get d k = Some v -> In (k, v) d.
Proof.
  induction d as [|[k0 v0] d IH]; simpl; [discriminate|].
  destruct (String.eqb k0 k) eqn:E.
  - apply String.eqb_eq in E. intros [= ->]. subst. now left.
  - intros H. right. now apply IH.
Qed.

End DictFacts.

(** ** The normalizer *)

Lemma model_key_required k f : model_key k = Some f -> In f required_fields.
Proof.
  unfold model_key. intros H.
  assert (Hall : forallb (fun kv => existsb (String.eqb (snd kv)) required_fields) key_map = true)
    by reflexivity.
  destruct (dict_get key_map (lower k)) as [m|] eqn:Hg; [|discriminate].
  apply dict_get_In in Hg. rewrite forallb_forall in Hall.
  specialize (Hall _ Hg). cbn [snd] in Hall.
  apply existsb_exists in Hall. destruct Hall as [x [Hx Heq]].
  apply String.eqb_eq in Heq. subst x.
  destruct m; [discriminate|]. now inversion H; subst.
Qed.

Lemma map_items_app a b acc : map_items (a ++ b) acc = map_items b (map_items a acc).
Proof.
  revert acc. induction a as [|[k v] a IH]; intros acc; simpl; auto.
  destruct (model_key k); apply IH.
Qed.

Lemma map_items_other items acc f :
  (forall k v, In (k, v) items -> model_key k <> Some f) ->
  dict_get (map_items items acc) f = dict_get acc f.
Proof.
  revert acc. induction items as [|[k v] items IH]; intros acc Hno; simpl; auto.
  assert (Hrest : forall k' v', In (k', v') items -> model_key k' <> Some f)
    by (intros; eapply Hno; right; eauto).
  destruct (model_key k) as [m|] eqn:Hk.
  - rewrite IH by assumption. apply dict_get_set_ne.
    intros ->. apply (Hno k v); [now left | assumption].
  - now apply IH.
Qed.

Lemma map_items_keys items acc k :
  In k (dict_keys (map_items items acc)) ->
  In k (dict_keys acc) \/ In k required_fields.
Proof.
  revert acc. induction items as [|[a v] items IH]; intros acc; simpl; auto.
  destruct (model_key a) as [m|] eqn:Hm; [|apply IH].
  intros Hin. apply IH in Hin. destruct Hin as [Hin|]; auto.
  apply dict_keys_set in Hin. destruct Hin as [->|]; auto.
  right. eapply model_key_required; eauto.
Qed.

Lemma map_items_NoDup items acc :
  NoDup (dict_keys acc) -> NoDup (dict_keys (map_items items acc)).
Proof.
  revert acc. induction items as [|[a v] items IH]; intros acc Hnd; simpl; auto.
  destruct (model_key a); apply IH; auto using dict_keys_set_NoDup.
Qed.

Lemma fill_missing_get fields acc f :
  dict_get (fill_missing fields acc) f =
  match dict_get acc f with
  | Some v => Some v
  | None => if existsb (String.eqb f) fields then Some EmptyString else None
  end.
Proof.
  revert acc. induction fields as [|g fields IH]; intros acc; simpl.
  - destruct (dict_get acc f); auto.
  - unfold dict_mem. destruct (dict_get acc g) as [w|] eqn:Hg.
    + rewrite IH. destruct (dict_get acc f) eqn:Hf; auto.
      destruct (String.eqb f g) eqn:E; auto.
      apply String.eqb_eq in E. subst. congruence.
    + rewrite IH. destruct (String.eqb f g) eqn:E.
      * apply String.eqb_eq in E. subst g.
        now rewrite dict_get_set_eq, Hg.
      * apply String.eqb_neq in E.
        rewrite dict_get_set_ne by congruence. reflexivity.
Qed.

Lemma fill_missing_keys fields acc k :
  In k (dict_keys (fill_missing fields acc)) <-> In k (dict_keys acc) \/ In k fields.
Proof.
  rewrite <- !dict_get_In_keys, fill_missing_get.
  destruct (dict_get acc k) eqn:Hk.
  - split; [left|]; congruence.
  - destruct (existsb (String.eqb k) fields) eqn:E.
    + apply existsb_exists in E. destruct E as [x [Hx Hxk]].
      apply String.eqb_eq in Hxk. subst x. split; [auto | congruence].
    + split; [congruence|]. intros [H|H]; [congruence|].
      assert (existsb (String.eqb k) fields = true)
        by (apply existsb_exists; exists k; split; [assumption | apply String.eqb_refl]).
      congruence.
Qed.

Lemma fill_missing_NoDup fields acc :
  NoDup (dict_keys acc) -> NoDup (dict_keys (fill_missing fields acc)).
Proof.
  revert acc. induction fields as [|g fields IH]; intros acc Hnd; simpl; auto.
  destruct (dict_mem acc g); apply IH; auto using dict_keys_set_NoDup.
Qed.

Lemma required_fields_NoDup : NoDup required_fields.
Proof.
  unfold required_fields.
  repeat (constructor; [simpl; intuition discriminate|]). constructor.
Qed.

Lemma normalized_keys items k :
  In k (dict_keys (fill_missing required_fields (map_items items []))) <->
  In k required_fields.
Proof.
  rewrite fill_missing_keys. split; [|auto].
  intros [H|H]; auto. apply map_items_keys in H. destruct H as [[]|]; auto.
Qed.

Lemma normalized_NoDup items :
  NoDup (dict_keys (fill_missing required_fields (map_items items []))).
Proof. apply fill_missing_NoDup, map_items_NoDup. constructor. Qed.

Lemma normalized_last pre k v post f :
  model_key k = Some f ->
  (forall k' v', In (k', v') post -> model_key k' <> Some f) ->
  dict_get (fill_missing required_fields (map_items (pre ++ (k, v) :: post) [])) f
  = Some (flatten_value v).
Proof.
  intros Hk Hpost.
  rewrite fill_missing_get, map_items_app. simpl. rewrite Hk.
  rewrite map_items_other by assumption.
  now rewrite dict_get_set_eq.
Qed.

(** ** Characters of a text *)

Lemma mem_app c a b : mem c (a ++ b) = (mem c a || mem c b)%bool.
Proof. induction a as [|d a IH]; simpl; auto. now rewrite IH, orb_assoc. Qed.

Lemma mem_In c s : mem c s = true <-> In c (list_ascii_of_string s).
Proof.
  induction s as [|d s IH]; simpl.
  - split; [discriminate | tauto].
  - rewrite orb_true_iff, IH, Ascii.eqb_eq. tauto.
Qed.

Lemma mem_false_In c s : mem c s = false <-> ~ In c (list_ascii_of_string s).
Proof. rewrite <- mem_In. destruct (mem c s); split; congruence. Qed.

Lemma mem_substring c n m s : mem c s = false -> mem c (substring n m s) = false.
Proof.
  revert n m. induction s as [|d s IH]; intros n m H; simpl in *.
  - destruct n, m; reflexivity.
  - apply orb_false_iff in H. destruct H as [Hd Hs].
    destruct n; [destruct m|]; simpl; auto.
    now rewrite Hd, IH.
Qed.

Lemma mem_repeat_char c d n : Ascii.eqb d c = false -> mem c (repeat_char d n) = false.
Proof. intros H. induction n; simpl; auto. now rewrite H. Qed.

Lemma mem_join c sep l :
  mem c sep = false -> Forall (fun x => mem c x = false) l -> mem c (join sep l) = false.
Proof.
  intros Hsep Hl. induction Hl as [|x l Hx Hl IH]; simpl; auto.
  destruct l; auto.
  rewrite !mem_app, Hx, Hsep. apply IH.
Qed.

Lemma replace_absent old new s : mem old s = false -> replace old new s = s.
Proof.
  induction s as [|c s IH]; simpl; auto.
  intros H. apply orb_false_iff in H. destruct H as [Hc Hs].
  now rewrite Hc, IH.
Qed.

Lemma lstrip_head c s : isspace c = false -> lstrip (String c s) = String c s.
Proof. intros H. simpl. now rewrite H. Qed.

Lemma rstrip_last s c : isspace c = false -> rstrip (s ++ chr c) = s ++ chr c.
Proof.
  intros H. induction s as [|d s IH]; simpl.
  - now rewrite H.
  - rewrite IH. destruct s; reflexivity.
Qed.

Lemma strip_bracketed a s b :
  isspace a = false -> isspace b = false ->
  strip (String a (s ++ chr b)) = String a (s ++ chr b).
Proof.
  intros Ha Hb. unfold strip. rewrite lstrip_head by assumption.
  change (String a (s ++ chr b)) with (String a s ++ chr b).
  now apply rstrip_last.
Qed.

(** ** The characters of the texts written for numbers *)

Section Numeric.
Variable c : ascii.
Hypothesis c_outside : mem c numeric_alphabet = false.

Lemma string_of_uint_avoids d : mem c (NilEmpty.string_of_uint d) = false.
Proof.
  unfold numeric_alphabet in c_outside. simpl in c_outside.
  repeat (apply orb_false_iff in c_outside; destruct c_outside as [? c_outside]).
  induction d; simpl; auto; rewrite IHd; rewrite orb_false_r; assumption.
Qed.

Lemma nilzero_uint_avoids d : mem c (NilZero.string_of_uint d) = false.
Proof.
  destruct d; try apply string_of_uint_avoids.
  unfold numeric_alphabet in c_outside. simpl in c_outside.
  apply orb_false_iff in c_outside. destruct c_outside as [H0 _].
  simpl. now rewrite H0.
Qed.

Lemma str_of_Z_avoids z : mem c (str_of_Z z) = false.
Proof.
  unfold str_of_Z, NilZero.string_of_int.
  destruct (Z.to_int z) as [d|d]; [apply nilzero_uint_avoids|].
  change (String "-" (NilZero.string_of_uint d)) with ("-" ++ NilZero.string_of_uint d).
  rewrite mem_app, nilzero_uint_avoids, orb_false_r.
  unfold numeric_alphabet in c_outside. simpl in c_outside.
  repeat (apply orb_false_iff in c_outside; destruct c_outside as [? c_outside]).
  simpl. rewrite orb_false_r. assumption.
Qed.

Lemma literal_avoids s :
  forallb (fun d => mem d numeric_alphabet) (list_ascii_of_string s) = true ->
  mem c s = false.
Proof.
  induction s as [|d s IH]; [reflexivity|].
  cbn [list_ascii_of_string forallb]. intros H.
  apply andb_true_iff in H. destruct H as [Hd Hs].
  cbn [mem]. rewrite IH by assumption. rewrite orb_false_r.
  destruct (Ascii.eqb d c) eqn:E; auto.
  apply Ascii.eqb_eq in E. rewrite E, c_outside in Hd. discriminate.
Qed.

Lemma drop_zeros_incl l d : In d (PyFloat.drop_zeros l) -> In d l.
Proof.
  induction l as [|a l IH]; simpl; auto.
  destruct a as [[] [] [] [] [] [] [] []]; simpl; auto.
Qed.

Lemma rstrip_zeros_avoids s : mem c s = false -> mem c (PyFloat.rstrip_zeros s) = false.
Proof.
  rewrite !mem_false_In. unfold PyFloat.rstrip_zeros.
  rewrite list_ascii_of_string_of_list_ascii.
  intros H Hin. apply H. apply in_rev in Hin. apply drop_zeros_incl in Hin.
  now apply in_rev in Hin.
Qed.

Lemma exponent_text_avoids x : mem c (PyFloat.exponent_text x) = false.
Proof.
  unfold PyFloat.exponent_text.
  destruct (x <? 0), (Z.abs x <? 10);
    rewrite ?mem_app, str_of_Z_avoids, ?orb_false_r;
    rewrite ?literal_avoids by reflexivity; reflexivity.
Qed.

Lemma format_short_avoids ds decpt :
  mem c ds = false -> mem c (PyFloat.format_short ds decpt) = false.
Proof.
  intros H. unfold PyFloat.format_short.
  assert (He : mem c "e" = false) by (apply literal_avoids; reflexivity).
  assert (Hdot : mem c "." = false) by (apply literal_avoids; reflexivity).
  assert (Hz : Ascii.eqb "0" c = false).
  { assert (H0 : mem c "0" = false) by (apply literal_avoids; reflexivity).
    simpl in H0. now rewrite orb_false_r in H0. }
  destruct ((decpt <=? -4) || (16 <? decpt))%bool.
  - destruct ds as [|d [|d' r]]; auto.
    + unfold chr. rewrite !mem_app, H, He, exponent_text_avoids. reflexivity.
    + change (String d ("." ++ String d' r)) with (String d EmptyString ++ "." ++ String d' r).
      cbn [mem] in H. apply orb_false_iff in H. destruct H as [Hd Hr].
      rewrite !mem_app, He, Hdot, exponent_text_avoids.
      cbn [mem]. now rewrite Hd, Hr.
  - destruct (decpt <=? 0).
    + rewrite !mem_app, H, mem_repeat_char by assumption.
      rewrite literal_avoids by reflexivity. reflexivity.
    + destruct (_ <=? decpt).
      * rewrite !mem_app, H, mem_repeat_char by assumption.
        rewrite literal_avoids by reflexivity. reflexivity.
      * rewrite !mem_app, !mem_substring, Hdot by assumption. reflexivity.
Qed.

Lemma float_repr_avoids x : mem c (PyFloat.repr x) = false.
Proof.
  destruct x as [[]|[]| |s m e]; try (apply literal_avoids; reflexivity).
  unfold PyFloat.repr, PyFloat.shortest.
  destruct (PyFloat.shortest_from _ _ _ _ _) as [n k].
  rewrite mem_app, format_short_avoids
    by apply rstrip_zeros_avoids, str_of_Z_avoids.
  destruct s; [rewrite literal_avoids by reflexivity|]; reflexivity.
Qed.

End Numeric.

(** ** The texts written by [json.dumps] have no line feed *)

Lemma str_of_Z_no_newline z : mem newline (str_of_Z z) = false.
Proof. now apply str_of_Z_avoids. Qed.

Lemma float_to_json_no_newline x : mem newline (PyFloat.to_json x) = false.
Proof.
  destruct x as [[]|[]| |s m e]; try reflexivity.
  now apply (float_repr_avoids newline).
Qed.

Lemma json_escape_char_no_newline c : mem newline (json_escape_char c) = false.
Proof. destruct c as [[] [] [] [] [] [] [] []]; reflexivity. Qed.

Lemma json_escape_no_newline s : mem newline (json_escape s) = false.
Proof.
  induction s as [|c s IH]; simpl; auto.
  rewrite mem_app, json_escape_char_no_newline. exact IH.
Qed.

Lemma json_quote_no_newline s : mem newline (json_quote s) = false.
Proof.
  unfold json_quote. rewrite !mem_app, json_escape_no_newline. reflexivity.
Qed.

(** induction on values, through the lists and dictionaries nested in them *)
Lemma pyval_nested_ind (P : pyval -> Prop) :
  P PyNone ->
  (forall b, P (PyBool b)) ->
  (forall z, P (PyInt z)) ->
  (forall x, P (PyFloat x)) ->
  (forall s, P (PyStr s)) ->
  (forall l, Forall P l -> P (PyList l)) ->
  (forall d, Forall (fun kv => P (snd kv)) d -> P (PyDict d)) ->
  forall v, P v.
Proof.
  intros HN HB HI HF HS HL HD.
  fix IH 1. intros [| b | z | x | s | l | d].
  - exact HN.
  - apply HB.
  - apply HI.
  - apply HF.
  - apply HS.
  - apply HL. induction l as [|v l IHl]; constructor; [apply IH | exact IHl].
  - apply HD. induction d as [|[k v] d IHd]; constructor; [apply IH | exact IHd].
Qed.

Lemma dumps_no_newline v : mem newline (dumps v) = false.
Proof.
  induction v as [| b | z | x | s | l IHl | d IHd] using pyval_nested_ind; simpl.
  - reflexivity.
  - now destruct b.
  - apply str_of_Z_no_newline.
  - apply float_to_json_no_newline.
  - apply json_quote_no_newline.
  - rewrite mem_app, mem_join; auto.
    induction IHl; constructor; auto.
  - rewrite mem_app, mem_join; auto.
    induction IHd as [|[k v] d Hv Hd IH]; constructor; auto.
    simpl in Hv. simpl. rewrite !mem_app, json_escape_no_newline. simpl. exact Hv.
Qed.

Lemma flatten_value_nested v : is_nested v = true -> flatten_value v = dumps v.
Proof.
  destruct v as [| | | | | l | d]; try discriminate; intros _;
    unfold flatten_value; rewrite replace_absent by apply dumps_no_newline;
    simpl; apply strip_bracketed; reflexivity.
Qed.

(** ** Claims about the normalizer *)

(** C4. [normalize_ai_response] raises exactly when its argument is not a
    mapping, and what it raises then is the shape error.  For a mapping it
    returns a record with exactly the ten canonical keys, each once and each
    bound to a text: a key without a canonical name is not in the record, a
    canonical field that no key of the input maps to is bound to the empty
    text, and the empty mapping gives the ten fields all empty. *)
Theorem normalize_ai_response_total :
  forall ai_response : pyval,
    ((exists e, normalize_ai_response ai_response = inl e) <-> is_mapping ai_response = false)
    /\ (forall e, normalize_ai_response ai_response = inl e -> e = InvalidResponseShape)
    /\ (forall items, ai_response = PyDict items ->
        exists r : record,
          normalize_ai_response ai_response = inr r
          /\ List.length r = 10%nat
          /\ NoDup (dict_keys r)
          /\ (forall k, In k (dict_keys r) <-> In k required_fields)
          /\ (forall f, In f required_fields ->
                (forall k v, In (k, v) items -> model_key k <> Some f) ->
                dict_get r f = Some EmptyString)
          /\ (items = [] -> r = map (fun f => (f, EmptyString)) required_fields)).
Proof.
  intros ai_response. split; [|split].
  - destruct ai_response; simpl;
      first [ split; [intros _; reflexivity | intros _; eexists; reflexivity]
            | split; [intros [e He]; discriminate | discriminate] ].
  - intros e. destruct ai_response; simpl; congruence.
  - intros items ->. eexists. split; [reflexivity|].
    split; [|split; [|split; [|split]]].
    + rewrite <- (length_map fst).
      change (List.length required_fields) with 10%nat.
      change 10%nat with (List.length required_fields).
      apply Permutation_length, NoDup_Permutation.
      * apply normalized_NoDup.
      * apply required_fields_NoDup.
      * apply normalized_keys.
    + apply normalized_NoDup.
    + apply normalized_keys.
    + intros f Hf Hno. rewrite fill_missing_get, map_items_other by assumption.
      simpl dict_get.
      replace (existsb (String.eqb f) required_fields) with true; auto.
      symmetry. apply existsb_exists. exists f. split; [assumption | apply String.eqb_refl].
    + intros ->. reflexivity.
Qed.

(** C10. When several keys of the input map to one canonical field, the
    record holds the flattened value of the one that comes last in the
    iteration order of the mapping. *)
Theorem normalize_last_synonym_wins :
  forall (pre post : list (string * pyval)) (k : string) (v : pyval) (f : string),
    model_key k = Some f ->
    (forall k' v', In (k', v') post -> model_key k' <> Some f) ->
    exists r : record,
      normalize_ai_response (PyDict (pre ++ (k, v) :: post)) = inr r
      /\ dict_get r f = Some (flatten_value v).
Proof.
  intros pre post k v f Hk Hpost. eexists. split; [reflexivity|].
  now apply normalized_last.
Qed.

Lemma normalize_last_synonym_wins_witness :
  model_key "resources" = Some "teaching_materials"
  /\ exists r : record,
      normalize_ai_response
        (PyDict [("materials", PyStr "chalk"); ("Resources", PyStr "books");
                 ("topic", PyStr "fractions")]) = inr r
      /\ dict_get r "teaching_materials" = Some "books".
Proof.
  split; [reflexivity|].
  apply (normalize_last_synonym_wins
           [("materials", PyStr "chalk")] [("topic", PyStr "fractions")]
           "Resources" (PyStr "books") "teaching_materials").
  - reflexivity.
  - intros k' v' [H|[]]. inversion H; subst. vm_compute. discriminate.
Defined.

(** C7, as the code has it.  A nested value (list or dictionary) under a
    mapped key is flattened to the text [json.dumps] writes for it, with the
    default separators: a comma and a space between items, a colon and a
    space after a key.  That text has no line feed and no white space at its
    ends, so the replacement and the strip leave it as it is.  For the pair
    of the scenario the field [teaching_materials] is the array with a space
    after the comma. *)
Theorem flatten_nested_is_dumps :
  (forall (pre post : list (string * pyval)) (k : string) (v : pyval) (f : string),
      model_key k = Some f ->
      is_nested v = true ->
      (forall k' v', In (k', v') post -> model_key k' <> Some f) ->
      exists r : record,
        normalize_ai_response (PyDict (pre ++ (k, v) :: post)) = inr r
        /\ dict_get r f = Some (dumps v)
        /\ mem newline (dumps v) = false)
  /\ (exists r : record,
        normalize_ai_response materials_example = inr r
        /\ dict_get r "teaching_materials" = Some book_chalk_spaced).
Proof.
  split.
  - intros pre post k v f Hk Hv Hpost. eexists. split; [reflexivity|]. split.
    + rewrite normalized_last by assumption. now rewrite flatten_value_nested.
    + apply dumps_no_newline.
  - eexists. split; reflexivity.
Qed.

Lemma flatten_nested_is_dumps_witness :
  model_key "materials" = Some "teaching_materials"
  /\ exists r : record,
      normalize_ai_response
        (PyDict [("materials", PyDict [("board", PyList [PyInt 1; PyNone])])]) = inr r
      /\ dict_get r "teaching_materials"
         = Some (dumps (PyDict [("board", PyList [PyInt 1; PyNone])]))
      /\ mem newline (dumps (PyDict [("board", PyList [PyInt 1; PyNone])])) = false.
Proof.
  split; [reflexivity|].
  apply (proj1 flatten_nested_is_dumps [] []
           "materials" (PyDict [("board", PyList [PyInt 1; PyNone])]) "teaching_materials").
  - reflexivity.
  - reflexivity.
  - intros k' v' [].
Defined.

(** C7 as stated fails: for the pair of the scenario the field is not the
    compact text. *)
Lemma flatten_not_compact :
  exists r : record,
    normalize_ai_response materials_example = inr r
    /\ dict_get r "teaching_materials" <> Some book_chalk_compact.
Proof.
  eexists. split; [reflexivity|]. vm_compute. discriminate.
Qed.

(** ** The schema validator *)

Lemma flat_map_nil {A B : Type} (g : A -> list B) (l : list A) :
  flat_map g l = [] <-> (forall x, In x l -> g x = []).
Proof.
  induction l as [|a l IH]; simpl.
  - split; [intros _ x [] | reflexivity].
  - split.
    + intros H. apply app_eq_nil in H. destruct H as [Ha Hl].
      intros x [->|Hx]; [assumption | now apply IH].
    + intros H. rewrite (H a) by now left. apply IH. auto.
Qed.

Lemma filter_nil {A : Type} (g : A -> bool) (l : list A) :
  filter g l = [] <-> (forall x, In x l -> g x = false).
Proof.
  induction l as [|a l IH]; simpl.
  - split; [intros _ x [] | reflexivity].
  - destruct (g a) eqn:Ha; split.
    + discriminate.
    + intros H. rewrite (H a) in Ha by now left. discriminate.
    + intros H x [->|Hx]; [assumption | now apply IH].
    + intros H. apply IH. auto.
Qed.

Lemma record_value_get (r : record) k :
  dict_get (map (fun kv => (fst kv, PyStr (snd kv))) r) k = option_map PyStr (dict_get r k).
Proof.
  induction r as [|[k' v] r IH]; simpl; auto.
  destruct (String.eqb k' k); auto.
Qed.

Lemma record_value_keys (r : record) :
  dict_keys (map (fun kv => (fst kv, PyStr (snd kv))) r) = dict_keys r.
Proof. unfold dict_keys. rewrite map_map. reflexivity. Qed.

Lemma iter_errors_string_schema ts mn mx path v :
  existsb (has_type (PyStr v)) ts = true ->
  iter_errors (string_schema ts mn mx) path (PyStr v) = length_errors path mn mx v.
Proof.
  intros H. unfold string_schema, length_errors. simpl.
  unfold check_type. rewrite H. simpl. now rewrite app_nil_r.
Qed.

Lemma SCHEMA_properties p sub :
  In (p, sub) (properties_of SCHEMA) ->
  exists ts mn mx,
    sub = string_schema ts mn mx /\ existsb (fun t => has_type (PyStr EmptyString) t) ts = true
    /\ (mn <= mx)%nat /\ field_bounds p = Some (mn, mx) /\ In p required_fields.
Proof.
  simpl. intros H.
  repeat (destruct H as [H|H];
          [inversion H; subst; do 3 eexists;
           split; [reflexivity|]; split; [reflexivity|]; split; [lia|];
           split; [reflexivity | simpl; tauto] |]).
  contradiction.
Qed.

Lemma field_bounds_property f mn mx :
  field_bounds f = Some (mn, mx) ->
  exists sub, In (f, sub) (properties_of SCHEMA).
Proof.
  unfold field_bounds. destruct (dict_get (properties_of SCHEMA) f) as [sub|] eqn:H.
  - intros _. exists sub. now apply dict_get_In.
  - discriminate.
Qed.

Lemma properties_names : map fst (properties_of SCHEMA) = required_fields.
Proof. reflexivity. Qed.

Lemma iter_errors_record (r : record) :
  iter_errors SCHEMA [] (record_value r)
  = (check_required required_fields [] (record_value r)
     ++ flat_map (property_errors r) (properties_of SCHEMA)
     ++ check_additional false required_fields [] (record_value r))%list.
Proof. reflexivity. Qed.

Lemma property_errors_bounds (r : record) p sub v mn mx :
  In (p, sub) (properties_of SCHEMA) ->
  dict_get r p = Some v ->
  field_bounds p = Some (mn, mx) ->
  property_errors r (p, sub) = length_errors [p] mn mx v.
Proof.
  intros Hin Hget Hb. unfold property_errors.
  rewrite record_value_get, Hget. simpl option_map. cbv iota.
  destruct (SCHEMA_properties _ _ Hin) as (ts & mn' & mx' & -> & Hts & _ & Hb' & _).
  rewrite Hb in Hb'. inversion Hb'; subst.
  apply iter_errors_string_schema.
  clear - Hts. induction ts as [|t ts IH]; simpl in *; auto.
Qed.

Lemma length_errors_nil path mn mx v :
  length_errors path mn mx v = [] <-> (mn <= String.length v <= mx)%nat.
Proof.
  unfold length_errors, check_minLength, check_maxLength.
  destruct (Nat.ltb_spec (String.length v) mn), (Nat.ltb_spec mx (String.length v));
    simpl; split; intros Hx; try discriminate; try lia; auto.
Qed.

Lemma required_nil (r : record) :
  check_required required_fields [] (record_value r) = []
  <-> (forall k, In k required_fields -> In k (dict_keys r)).
Proof.
  unfold check_required, record_value. rewrite flat_map_nil.
  split; intros H k Hk; specialize (H k Hk).
  - rewrite <- record_value_keys. apply dict_mem_In.
    destruct (dict_mem _ k); [reflexivity | discriminate].
  - rewrite <- record_value_keys in H. apply dict_mem_In in H. now rewrite H.
Qed.

Lemma additional_nil (r : record) :
  check_additional false required_fields [] (record_value r) = []
  <-> (forall k, In k (dict_keys r) -> In k required_fields).
Proof.
  unfold check_additional, record_value. rewrite record_value_keys.
  split.
  - intros H k Hk.
    destruct (filter _ (dict_keys r)) eqn:Hf; [|discriminate].
    rewrite filter_nil in Hf. specialize (Hf k Hk).
    apply negb_false_iff, existsb_exists in Hf. destruct Hf as [x [Hx Heq]].
    apply String.eqb_eq in Heq. now subst.
  - intros H.
    replace (filter _ (dict_keys r)) with (@nil string); [reflexivity|].
    symmetry. apply filter_nil. intros k Hk. apply negb_false_iff, existsb_exists.
    exists k. split; [now apply H | apply String.eqb_refl].
Qed.

(** [validate] accepts a record exactly when the record has the ten
    canonical fields and every text is within its bounds *)
Lemma validate_iff (r : record) :
  NoDup (dict_keys r) ->
  validate (record_value r) SCHEMA = inr tt <-> schema_ok r.
Proof.
  intros Hnd. unfold validate. rewrite iter_errors_record.
  split.
  - intros H.
    destruct (_ ++ _)%list eqn:E; [|discriminate]. clear H.
    apply app_eq_nil in E. destruct E as [Hreq E].
    apply app_eq_nil in E. destruct E as [Hprops Hadd].
    rewrite required_nil in Hreq. rewrite additional_nil in Hadd.
    rewrite flat_map_nil in Hprops.
    split; [assumption|]. split; [split; auto|].
    intros f v mn mx Hget Hb.
    destruct (field_bounds_property _ _ _ Hb) as [sub Hin].
    specialize (Hprops _ Hin).
    rewrite (property_errors_bounds r f sub v mn mx) in Hprops by assumption.
    now apply length_errors_nil in Hprops.
  - intros (_ & Hkeys & Hbounds).
    replace (_ ++ _)%list with (@nil violation); [reflexivity|]. symmetry.
    rewrite (proj2 (required_nil r)) by (intros; now apply Hkeys).
    rewrite (proj2 (additional_nil r)) by (intros; now apply Hkeys).
    rewrite app_nil_r, app_nil_l.
    apply flat_map_nil. intros [p sub] Hin.
    destruct (SCHEMA_properties _ _ Hin) as (ts & mn & mx & _ & _ & _ & Hb & Hp).
    apply Hkeys in Hp. apply dict_get_In_keys in Hp.
    destruct (dict_get r p) as [v|] eqn:Hget; [|congruence].
    rewrite (property_errors_bounds r p sub v mn mx) by assumption.
    apply length_errors_nil. eauto.
Qed.

Lemma flat_map_only {B C : Type} (g : string * B -> list C) (l : list (string * B)) f b :
  NoDup (map fst l) ->
  In (f, b) l ->
  (forall p x, In (p, x) l -> p <> f -> g (p, x) = []) ->
  flat_map g l = g (f, b).
Proof.
  induction l as [|[p0 x0] l IH]; simpl; intros Hnd Hin Hothers; [contradiction|].
  inversion Hnd as [|? ? Hnotin Hnd']; subst.
  destruct Hin as [Heq|Hin].
  - inversion Heq; subst.
    replace (flat_map g l) with (@nil C); [apply app_nil_r|].
    symmetry. apply flat_map_nil. intros [p x] Hpx.
    apply Hothers; [now right|].
    intros ->. apply Hnotin. now apply (in_map fst) in Hpx.
  - rewrite (Hothers p0 x0) by
      (auto; intros ->; apply Hnotin; now apply (in_map fst) in Hin).
    simpl. apply IH; auto.
Qed.

Lemma schema_ok_set (r : record) f mn mx s :
  schema_ok r -> field_bounds f = Some (mn, mx) ->
  (mn <= String.length s <= mx)%nat ->
  schema_ok (dict_set r f s).
Proof.
  intros (Hnd & Hkeys & Hbounds) Hb Hlen.
  destruct (field_bounds_property _ _ _ Hb) as [sub Hin].
  destruct (SCHEMA_properties _ _ Hin) as (_ & _ & _ & _ & _ & _ & _ & Hreq).
  split; [now apply dict_keys_set_NoDup|]. split.
  - intros k. rewrite dict_keys_set, Hkeys. split; [intros [->|]; auto | auto].
  - intros g v mn' mx' Hget Hb'.
    destruct (string_dec f g) as [->|Hne].
    + rewrite dict_get_set_eq in Hget. inversion Hget; subst.
      rewrite Hb in Hb'. inversion Hb'; subst. assumption.
    + rewrite dict_get_set_ne in Hget by assumption. eauto.
Qed.

(** C8. The length bounds are inclusive.  Take a valid record and any
    canonical field: the field has bounds; with a text of exactly the
    minimum or exactly the maximum length in that field the record passes,
    and with a text one character short of the minimum the validator
    reports exactly one error, the [minLength] of that field. *)
Theorem validator_bounds_inclusive :
  forall (r : record) (f : string),
    schema_ok r -> In f required_fields ->
    exists mn mx : nat,
      field_bounds f = Some (mn, mx)
      /\ (forall s, String.length s = mn \/ String.length s = mx ->
            validate (record_value (dict_set r f s)) SCHEMA = inr tt)
      /\ (forall s, S (String.length s) = mn ->
            validate (record_value (dict_set r f s)) SCHEMA
            = inl (SchemaViolation [([f], KMinLength)])).
Proof.
  intros r f Hok Hf.
  assert (Hin : exists sub, In (f, sub) (properties_of SCHEMA)).
  { rewrite <- properties_names in Hf. apply in_map_iff in Hf.
    destruct Hf as [[f' sub] [Heq Hin]]. simpl in Heq. subst. eauto. }
  destruct Hin as [sub Hin].
  destruct (SCHEMA_properties _ _ Hin) as (ts & mn & mx & Hsub & _ & Hle & Hb & _).
  exists mn, mx. split; [assumption|]. split.
  - intros s Hlen. apply validate_iff.
    + destruct Hok as (Hnd & _). now apply dict_keys_set_NoDup.
    + eapply schema_ok_set; eauto. lia.
  - intros s Hlen. destruct Hok as (Hnd & Hkeys & Hbounds).
    unfold validate. rewrite iter_errors_record.
    rewrite (proj2 (required_nil _)), (proj2 (additional_nil _)).
    + rewrite app_nil_r, app_nil_l.
      rewrite (flat_map_only _ _ f sub).
      * rewrite (property_errors_bounds _ f sub s mn mx);
          auto using dict_get_set_eq.
        unfold length_errors, check_minLength, check_maxLength.
        destruct (Nat.ltb_spec (String.length s) mn); [|lia].
        destruct (Nat.ltb_spec mx (String.length s)); [lia|]. reflexivity.
      * rewrite properties_names. apply required_fields_NoDup.
      * assumption.
      * intros p x Hpx Hne.
        destruct (SCHEMA_properties _ _ Hpx) as (_ & mn' & mx' & _ & _ & _ & Hb' & Hp).
        apply Hkeys, dict_get_In_keys in Hp.
        destruct (dict_get r p) as [v|] eqn:Hget; [|congruence].
        rewrite (property_errors_bounds _ p x v mn' mx'); auto.
        -- apply length_errors_nil. eauto.
        -- rewrite dict_get_set_ne; auto.
    + intros k. rewrite dict_keys_set, Hkeys. intros [->|]; auto.
    + intros k Hk. apply dict_keys_set. right. now apply Hkeys.
Qed.

Lemma filled_record_ok : schema_ok (filled_record 50).
Proof.
  apply validate_iff; [|reflexivity].
  apply required_fields_NoDup.
Qed.

Lemma validator_bounds_inclusive_witness :
  schema_ok (filled_record 50) /\ In "objectives" required_fields
  /\ exists mn mx : nat,
      field_bounds "objectives" = Some (mn, mx)
      /\ (forall s, String.length s = mn \/ String.length s = mx ->
            validate (record_value (dict_set (filled_record 50) "objectives" s)) SCHEMA
            = inr tt)
      /\ (forall s, S (String.length s) = mn ->
            validate (record_value (dict_set (filled_record 50) "objectives" s)) SCHEMA
            = inl (SchemaViolation [(["objectives"], KMinLength)])).
Proof.
  split; [exact filled_record_ok|]. split; [simpl; tauto|].
  apply (validator_bounds_inclusive (filled_record 50) "objectives").
  - exact filled_record_ok.
  - simpl. tauto.
Defined.

(** ** [json.loads] and white space around the text *)

Lemma isspace_cases c : isspace c = true -> In c space_chars.
Proof.
  destruct c as [[] [] [] [] [] [] [] []]; intros H; vm_compute in H;
    try discriminate H; simpl; tauto.
Qed.

Lemma run_error toks s : Json.run (toks, Json.LError) s = (toks, Json.LError).
Proof. induction s as [|c s IH]; simpl; auto. Qed.

(** a white-space character between two tokens is skipped when JSON knows
    it, and is an error otherwise *)
Lemma between_space toks c :
  isspace c = true ->
  Json.between toks c = (toks, if Json.is_ws c then Json.LBetween else Json.LError).
Proof.
  intros H. apply isspace_cases in H. simpl in H.
  repeat (destruct H as [<-|H]; [reflexivity|]). contradiction.
Qed.

(** a white-space character at the end of a text that scans well can be left out *)
Lemma finish_step_space lx c toks :
  isspace c = true ->
  Json.finish (Json.step lx c) = Some toks -> Json.finish lx = Some toks.
Proof.
  intros H. destruct lx as [ts st]. apply isspace_cases in H. simpl in H.
  destruct st as [| |acc|acc|acc high|acc high|acc high ds];
    repeat (destruct H as [<-|H]; [cbn; try discriminate; auto|]);
    contradiction.
Qed.

Lemma run_lstrip toks s :
  Json.finish (Json.run (toks, Json.LBetween) s) <> None ->
  Json.run (toks, Json.LBetween) (lstrip s) = Json.run (toks, Json.LBetween) s.
Proof.
  induction s as [|c s IH]; simpl; auto.
  destruct (isspace c) eqn:Hc; auto.
  rewrite (between_space _ _ Hc).
  destruct (Json.is_ws c); auto.
  rewrite run_error. simpl. congruence.
Qed.

Lemma finish_run_rstrip s : forall lx toks,
  Json.finish (Json.run lx s) = Some toks ->
  Json.finish (Json.run lx (rstrip s)) = Some toks.
Proof.
  induction s as [|c s IH]; intros lx toks H; simpl in *; auto.
  specialize (IH _ _ H).
  destruct (rstrip s) as [|d r].
  - simpl in IH. destruct (isspace c) eqn:Hc; simpl; auto.
    eapply finish_step_space; eauto.
  - exact IH.
Qed.

Lemma tokenize_strip s toks :
  Json.tokenize s = Some toks -> Json.tokenize (strip s) = Some toks.
Proof.
  unfold Json.tokenize, strip. intros H.
  apply finish_run_rstrip. rewrite run_lstrip; [assumption | congruence].
Qed.

(** [json.loads(s.strip())] is [json.loads(s)] when the latter succeeds *)
Lemma loads_strip s v : Json.loads s = Some v -> Json.loads (strip s) = Some v.
Proof.
  unfold Json.loads. destruct (Json.tokenize s) as [ts|] eqn:Ht; [|discriminate].
  now rewrite (tokenize_strip _ _ Ht).
Qed.

Lemma mem_lstrip c s : mem c s = false -> mem c (lstrip s) = false.
Proof.
  induction s as [|d s IH]; simpl; auto.
  intros H. destruct (isspace d); auto.
  apply orb_false_iff in H. now apply IH.
Qed.

Lemma mem_rstrip c s : mem c s = false -> mem c (rstrip s) = false.
Proof.
  induction s as [|d s IH]; simpl; auto.
  intros H. apply orb_false_iff in H. destruct H as [Hd Hs].
  specialize (IH Hs).
  destruct (rstrip s); [destruct (isspace d); simpl; auto; now rewrite Hd|].
  cbn [mem] in *. now rewrite Hd, IH.
Qed.

Lemma mem_strip c s : mem c s = false -> mem c (strip s) = false.
Proof. intros H. now apply mem_rstrip, mem_lstrip. Qed.

(** ** The retry loop *)

Section Orchestrator.
Variable chat : chat_service.
Variable repair_json : string -> option string.
Variable prompt : string.
Variable config : LessonPlanConfig.

Let out := outcome chat repair_json prompt config.
Let run := attempts chat repair_json prompt config.
Let answer (n : nat) :=
  chat (model_name config) prompt (temperature config) (timeout config) n.
Let later := vars_after chat repair_json prompt config.
Let again := retried chat repair_json prompt config.

Lemma attempts_step_fail todo attempt last vars tr e :
  out attempt = inl e ->
  handle (assign repair_json (answer attempt) vars) e = inr tt ->
  run (S todo) attempt last vars tr
  = run todo (S attempt) (Some e) (assign repair_json (answer attempt) vars)
      (tr ++ Invoke attempt :: backoff config attempt).
Proof.
  intros H Hh. unfold run, out, outcome, answer in *. cbn [attempts]. rewrite H, Hh.
  unfold backoff. destruct (_ <? _); [now rewrite <- app_assoc | reflexivity].
Qed.

Lemma attempts_step_raise todo attempt last vars tr e raised :
  out attempt = inl e ->
  handle (assign repair_json (answer attempt) vars) e = inl raised ->
  run (S todo) attempt last vars tr = ((tr ++ [Invoke attempt])%list, inl raised).
Proof.
  intros H Hh. unfold run, out, outcome, answer in *. cbn [attempts]. now rewrite H, Hh.
Qed.

Lemma attempts_step_ok todo attempt last vars tr r :
  out attempt = inr r ->
  run (S todo) attempt last vars tr = ((tr ++ [Invoke attempt])%list, inr r).
Proof. intros H. unfold run, out, outcome in *. cbn [attempts]. now rewrite H. Qed.

Lemma vars_after_S vars n : forall from,
  later vars from (S n) = assign repair_json (answer (from + n)%nat) (later vars from n).
Proof.
  unfold later, answer. revert vars.
  induction n as [|n IH]; intros vars from.
  - cbn [vars_after]. now rewrite Nat.add_0_r.
  - cbn [vars_after] in *. rewrite IH. now rewrite Nat.add_succ_r.
Qed.

Lemma retried_first vars from :
  again vars from 0 <->
  exists e, out from = inl e
            /\ handle (assign repair_json (answer from) vars) e = inr tt.
Proof.
  unfold again, retried. fold out. cbn [vars_after]. now rewrite Nat.add_0_r.
Qed.

Lemma retried_next vars from n :
  again vars from (S n) <-> again (assign repair_json (answer from) vars) (S from) n.
Proof.
  unfold again, retried. fold out. cbn [vars_after]. now rewrite Nat.add_succ_r.
Qed.

(** [k] failures and then a success *)
Lemma attempts_success k : forall todo attempt last vars tr r,
  (k < todo)%nat ->
  (forall n, (n < k)%nat -> again vars attempt n) ->
  out (attempt + k)%nat = inr r ->
  run todo attempt last vars tr
  = ((tr ++ failed_attempts config attempt k ++ [Invoke (attempt + k)%nat])%list, inr r).
Proof.
  induction k as [|k IH]; intros todo attempt last vars tr r Hlt Hfail Hok.
  - destruct todo; [lia|]. rewrite Nat.add_0_r in *.
    now rewrite (attempts_step_ok _ _ _ _ _ _ Hok).
  - destruct todo; [lia|].
    destruct (proj1 (retried_first _ _) (Hfail 0%nat ltac:(lia))) as (e & He & Hh).
    rewrite (attempts_step_fail _ _ _ _ _ _ He Hh).
    rewrite (IH todo (S attempt) (Some e) _ _ r).
    + unfold failed_attempts. simpl seq. simpl flat_map.
      rewrite <- !app_assoc. simpl. now rewrite Nat.add_succ_r, <- !app_assoc.
    + lia.
    + intros n Hn. apply retried_next, Hfail. lia.
    + now rewrite Nat.add_succ_r in Hok.
Qed.

(** [k] failures and then an attempt whose handler raises *)
Lemma attempts_escape k : forall todo attempt last vars tr e raised,
  (k < todo)%nat ->
  (forall n, (n < k)%nat -> again vars attempt n) ->
  out (attempt + k)%nat = inl e ->
  handle (later vars attempt (S k)) e = inl raised ->
  run todo attempt last vars tr
  = ((tr ++ failed_attempts config attempt k ++ [Invoke (attempt + k)%nat])%list,
     inl raised).
Proof.
  induction k as [|k IH]; intros todo attempt last vars tr e raised Hlt Hfail He Hh.
  - destruct todo; [lia|]. rewrite Nat.add_0_r in *.
    unfold later in Hh. cbn [vars_after] in Hh.
    now rewrite (attempts_step_raise _ _ _ _ _ _ _ He Hh).
  - destruct todo; [lia|].
    destruct (proj1 (retried_first _ _) (Hfail 0%nat ltac:(lia))) as (e0 & He0 & Hh0).
    rewrite (attempts_step_fail _ _ _ _ _ _ He0 Hh0).
    rewrite (IH todo (S attempt) (Some e0) _ _ e raised).
    + unfold failed_attempts. simpl seq. simpl flat_map.
      rewrite <- !app_assoc. simpl. now rewrite Nat.add_succ_r, <- !app_assoc.
    + lia.
    + intros n Hn. apply retried_next, Hfail. lia.
    + now rewrite Nat.add_succ_r in He.
    + exact Hh.
Qed.

(** every attempt fails: the last error is the cause of the final one *)
Lemma attempts_all_fail todo : forall attempt last vars tr,
  (forall n, (n < todo)%nat -> again vars attempt n) ->
  exists cause,
    run todo attempt last vars tr
    = ((tr ++ failed_attempts config attempt todo)%list,
       inl (GenerationExhausted (max_retries config) cause))
    /\ match todo with
       | O => cause = last
       | S j => exists e, out (attempt + j)%nat = inl e /\ cause = Some e
       end.
Proof.
  induction todo as [|todo IH]; intros attempt last vars tr Hfail.
  - exists last. unfold failed_attempts. simpl. now rewrite app_nil_r.
  - destruct (proj1 (retried_first _ _) (Hfail 0%nat ltac:(lia))) as (e & He & Hh).
    rewrite (attempts_step_fail _ _ _ _ _ _ He Hh).
    destruct (IH (S attempt) (Some e) (assign repair_json (answer attempt) vars)
                 (tr ++ Invoke attempt :: backoff config attempt)%list)
      as (cause & Hrun & Hcause).
    { intros n Hn. apply retried_next, Hfail. lia. }
    exists cause. split.
    + rewrite Hrun. unfold failed_attempts. simpl seq. simpl flat_map.
      now rewrite <- !app_assoc.
    + destruct todo as [|j].
      * subst cause. exists e. now rewrite Nat.add_0_r.
      * destruct Hcause as (e' & He' & ->). exists e'.
        split; [|reflexivity]. now rewrite Nat.add_succ_r in *.
Qed.

(** the three ways a run can go *)
Lemma run_cases todo vars attempt :
  (exists k r, (k < todo)%nat
     /\ (forall n, (n < k)%nat -> again vars attempt n)
     /\ out (attempt + k)%nat = inr r)
  \/ (exists k e raised, (k < todo)%nat
        /\ (forall n, (n < k)%nat -> again vars attempt n)
        /\ out (attempt + k)%nat = inl e
        /\ handle (later vars attempt (S k)) e = inl raised)
  \/ (forall n, (n < todo)%nat -> again vars attempt n).
Proof.
  induction todo as [|todo IH].
  - right. right. intros n Hn. lia.
  - destruct IH as [(k & r & Hk & Hfail & Hok)|[(k & e & raised & Hk & Hfail & He & Hh)|Hall]].
    + left. exists k, r. split; [lia | auto].
    + right. left. exists k, e, raised. split; [lia | auto].
    + destruct (out (attempt + todo)%nat) as [e|r] eqn:E.
      * destruct (handle (later vars attempt (S todo)) e) as [raised|[]] eqn:Hh.
        -- right. left. exists todo, e, raised. split; [lia | auto].
        -- right. right. intros n Hn.
           destruct (Nat.eq_dec n todo) as [->|Hne]; [|apply Hall; lia].
           exists e. split; [exact E | exact Hh].
      * left. exists todo, r. split; [lia | auto].
Qed.

(** what a run gives, by its three ways *)
Lemma run_result todo attempt last vars tr :
  (exists k r, (k < todo)%nat
     /\ (forall n, (n < k)%nat -> again vars attempt n)
     /\ out (attempt + k)%nat = inr r
     /\ run todo attempt last vars tr
        = ((tr ++ failed_attempts config attempt k ++ [Invoke (attempt + k)%nat])%list,
           inr r))
  \/ (exists k e raised, (k < todo)%nat
        /\ (forall n, (n < k)%nat -> again vars attempt n)
        /\ out (attempt + k)%nat = inl e
        /\ handle (later vars attempt (S k)) e = inl raised
        /\ run todo attempt last vars tr
           = ((tr ++ failed_attempts config attempt k ++ [Invoke (attempt + k)%nat])%list,
              inl raised))
  \/ ((forall n, (n < todo)%nat -> again vars attempt n)
      /\ exists cause,
          run todo attempt last vars tr
          = ((tr ++ failed_attempts config attempt todo)%list,
             inl (GenerationExhausted (max_retries config) cause))
          /\ match todo with
             | O => cause = last
             | S j => exists e, out (attempt + j)%nat = inl e /\ cause = Some e
             end).
Proof.
  destruct (run_cases todo vars attempt)
    as [(k & r & Hk & Hfail & Hok)|[(k & e & raised & Hk & Hfail & He & Hh)|Hall]].
  - left. exists k, r. repeat split; auto. now apply attempts_success.
  - right. left. exists k, e, raised. repeat split; auto. now apply attempts_escape with e.
  - right. right. split; [exact Hall|]. now apply attempts_all_fail.
Qed.

(** the errors of [clean_invalid_json_chars] and of [normalize_ai_response] *)
Lemma clean_error content e :
  clean_invalid_json_chars repair_json content = inl e -> e = UnrepairableContent.
Proof.
  unfold clean_invalid_json_chars.
  destruct (repair_json _) as [cleaned|]; [|congruence].
  destruct (Json.loads cleaned); congruence.
Qed.

Lemma normalize_error v e : normalize_ai_response v = inl e -> e = InvalidResponseShape.
Proof. destruct v; simpl; congruence. Qed.

Lemma validate_error v e : validate v SCHEMA = inl e -> exists errors, e = SchemaViolation errors.
Proof.
  unfold validate. destruct (iter_errors SCHEMA [] v); [discriminate|].
  intros [= <-]. eauto.
Qed.

(** an error of the body after the model has answered is one of the four
    attempt-local ones, or the end of the model; its handler finds what it
    reads and runs to its end *)
Lemma process_error content e vars :
  process repair_json content = inl e ->
  e = BeyondAlphabet
  \/ (attempt_local e /\ handle (assign repair_json (inr content) vars) e = inr tt).
Proof.
  unfold process, assign.
  destruct (_ || _)%bool; [intros [= <-]; right; split; [exact I | reflexivity]|].
  destruct (clean_invalid_json_chars repair_json content) as [e'|clean] eqn:Hc.
  { intros [= <-]. apply clean_error in Hc. subst e'.
    right. split; [exact I | reflexivity]. }
  assert (Hl : Json.loads clean <> None).
  { unfold clean_invalid_json_chars in Hc.
    destruct (repair_json _) as [cleaned|]; [|discriminate].
    destruct (Json.loads cleaned) as [v|] eqn:Hv; [|discriminate].
    injection Hc as <-. rewrite (loads_strip _ _ Hv). discriminate. }
  destruct (Json.loads clean) as [decoded|]; [|congruence].
  destruct (Json.to_python decoded) as [parsed|]; [|intros [= <-]; now left].
  destruct (normalize_ai_response parsed) as [e'|normalized] eqn:Hn.
  { intros [= <-]. apply normalize_error in Hn. subst e'.
    right. split; [exact I | reflexivity]. }
  destruct (validate (record_value normalized) SCHEMA) as [e'|[]] eqn:Hv; [|discriminate].
  intros [= <-]. apply validate_error in Hv. destruct Hv as [errors ->].
  right. split; [exact I | reflexivity].
Qed.

(** an error that is [self_contained] is stored by its handler, whatever the
    variables were before the attempt *)
Lemma handle_self_contained n e vars :
  out n = inl e -> self_contained e = true ->
  handle (assign repair_json (answer n) vars) e = inr tt.
Proof.
  unfold out, outcome, attempt_once, answer.
  destruct (chat _ _ _ _ n) as [m|content].
  - intros [= <-]. destruct m; [reflexivity | discriminate | discriminate].
  - intros He Hs. destruct (process_error content e vars He) as [->|[_ Hh]];
      [discriminate | exact Hh].
Qed.

Lemma retried_self_contained vars from n e :
  out (from + n)%nat = inl e -> self_contained e = true -> again vars from n.
Proof.
  intros He Hs. exists e. split; [exact He|].
  fold later. rewrite vars_after_S. now apply handle_self_contained.
Qed.

(** a handler that does not run to its end: the model has ended, or the
    model call raised an error of one of the first two clauses and the
    handler read a name that was not bound *)
Lemma handle_raises n e vars raised :
  out n = inl e ->
  handle (assign repair_json (answer n) vars) e = inl raised ->
  (e = BeyondAlphabet /\ raised = BeyondAlphabet)
  \/ ((e = ModelCallError ModelJSONDecodeError \/ e = ModelCallError ModelValidationError)
      /\ exists name, raised = UnboundLocalError name).
Proof.
  unfold out, outcome, attempt_once, answer.
  destruct (chat _ _ _ _ n) as [m|content].
  - intros [= <-]. destruct m as [message| |]; cbn [assign handle clause_of].
    + discriminate.
    + intros H. right. split; [now left|].
      destruct (Locals.content vars); [destruct (Locals.clean_content vars)|];
        inversion H; eauto.
    + intros H. right. split; [now right|].
      destruct (Locals.parsed vars); inversion H; eauto.
  - intros He Hh. destruct (process_error content e vars He) as [->|[_ Hok]].
    + left. split; [reflexivity|]. cbn [handle] in Hh. congruence.
    + congruence.
Qed.

(** a record that leaves [process] has passed [validate] *)
Lemma process_valid content r : process repair_json content = inr r -> schema_ok r.
Proof.
  unfold process.
  destruct (_ || _)%bool; [discriminate|].
  destruct (clean_invalid_json_chars repair_json content) as [e|clean]; [discriminate|].
  destruct (Json.loads clean) as [decoded|]; [|discriminate].
  destruct (Json.to_python decoded) as [parsed|]; [|discriminate].
  destruct (normalize_ai_response parsed) as [e|normalized] eqn:Hn; [discriminate|].
  destruct (validate (record_value normalized) SCHEMA) as [e|[]] eqn:Hv; [discriminate|].
  intros [= <-]. apply validate_iff; [|assumption].
  destruct parsed; try discriminate. inversion Hn; subst. apply normalized_NoDup.
Qed.

Lemma outcome_valid n r : out n = inr r -> schema_ok r.
Proof.
  unfold out, outcome, attempt_once.
  destruct (chat _ _ _ _ n); [discriminate | apply process_valid].
Qed.

Lemma attempts_valid todo : forall attempt last vars tr tr' r,
  run todo attempt last vars tr = (tr', inr r) -> schema_ok r.
Proof.
  intros attempt last vars tr tr' r H.
  destruct (run_result todo attempt last vars tr)
    as [(k & r' & _ & _ & Hok & Hrun)|[(k & e & raised & _ & _ & _ & _ & Hrun)
                                      |(_ & cause & Hrun & _)]];
    rewrite Hrun in H; [|discriminate|discriminate].
  inversion H; subst. eapply outcome_valid; eauto.
Qed.

End Orchestrator.

Lemma lstrip_length s : (String.length (lstrip s) <= String.length s)%nat.
Proof. induction s as [|c s IH]; simpl; auto. destruct (isspace c); simpl; lia. Qed.

Lemma rstrip_length s : (String.length (rstrip s) <= String.length s)%nat.
Proof.
  induction s as [|c s IH]; simpl; auto.
  destruct (rstrip s); [destruct (isspace c)|]; simpl in *; lia.
Qed.

Lemma strip_length s : (String.length (strip s) <= String.length s)%nat.
Proof.
  unfold strip. etransitivity; [apply rstrip_length | apply lstrip_length].
Qed.

Lemma process_short repair_json content :
  (String.length content < 50)%nat -> process repair_json content = inl InsufficientContent.
Proof.
  intros H. unfold process.
  replace (Nat.ltb (String.length (strip content)) 50) with true.
  - now rewrite orb_true_r.
  - symmetry. apply Nat.ltb_lt. pose proof (strip_length content). lia.
Qed.

Lemma failed_attempts_sleep config count : forall from,
  (Z.of_nat (from + count) <= max_retries config - 1) ->
  failed_attempts config from count
  = flat_map (fun n => [Invoke n; Sleep (2 ^ Z.of_nat n)]) (seq from count).
Proof.
  unfold failed_attempts.
  induction count as [|count IH]; intros from H; simpl; auto.
  rewrite IH by lia. unfold backoff.
  destruct (Z.ltb_spec (Z.of_nat from) (max_retries config - 1)); [reflexivity | lia].
Qed.

Lemma invocations_app a b : invocations (a ++ b) = (invocations a + invocations b)%nat.
Proof. unfold invocations. now rewrite filter_app, length_app. Qed.

Lemma invocations_failed config count : forall from,
  invocations (failed_attempts config from count) = count.
Proof.
  unfold failed_attempts.
  induction count as [|count IH]; intros from; simpl; auto.
  change (Invoke from :: backoff config from ++ ?l)%list
    with ([Invoke from] ++ backoff config from ++ l)%list.
  rewrite !invocations_app, IH. unfold backoff.
  destruct (_ <? _); reflexivity.
Qed.

(** ** Claims about [generate_lesson_plan] *)

(** C1. A record returned by [generate_lesson_plan] satisfies the schema: it
    has exactly the ten canonical fields, each once and each a text, and the
    length of every text is within the bounds configured for its field. *)
Theorem generated_record_valid :
  forall (chat : chat_service) (repair_json : string -> option string)
         (prompt : string) (config : option LessonPlanConfig)
         (trace : list event) (r : record),
    generate_lesson_plan chat repair_json prompt config = (trace, inr r) ->
    schema_ok r
    /\ validate (record_value r) SCHEMA = inr tt
    /\ List.length r = 10%nat.
Proof.
  intros chat repair_json prompt config trace r H.
  unfold generate_lesson_plan in H. apply attempts_valid in H.
  split; [assumption|]. split.
  - apply validate_iff; [apply H | assumption].
  - destruct H as (Hnd & Hkeys & _).
    rewrite <- (length_map fst).
    change 10%nat with (List.length required_fields).
    apply Permutation_length, NoDup_Permutation; auto using required_fields_NoDup.
Qed.

Lemma generated_record_valid_witness :
  generate_lesson_plan good_chat repair_identity "plan a lesson" None
  = ([Invoke 0], inr (filled_record 50))
  /\ schema_ok (filled_record 50)
  /\ validate (record_value (filled_record 50)) SCHEMA = inr tt
  /\ List.length (filled_record 50) = 10%nat.
Proof.
  split; [vm_compute; reflexivity|].
  apply (generated_record_valid good_chat repair_identity "plan a lesson" None [Invoke 0]).
  vm_compute. reflexivity.
Defined.

(** C2. With [max_retries = 3] and a model whose answer fails in every
    attempt, the model is invoked exactly three times, with sleeps of 1 and
    2 seconds in between and none at the end, and the final error carries
    the error of the third attempt as its cause.  When an attempt succeeds
    after [k] failed ones, its record is returned at once: the run is the
    [k] failed attempts, each followed by its sleep, and the successful
    invocation, with nothing after it.  A failed attempt is one whose error
    is [self_contained]: the answer of the model is a text that fails in
    the body, or the call raises an error of the generic handler. *)
Theorem retry_bound_and_early_success :
  forall (chat : chat_service) (repair_json : string -> option string)
         (prompt : string) (config : option LessonPlanConfig),
    let out := outcome chat repair_json prompt (effective config) in
    let run := generate_lesson_plan chat repair_json prompt config in
    (max_retries (effective config) = 3 ->
     (forall n, (n < 3)%nat -> exists e, out n = inl e /\ self_contained e = true) ->
     exists e, out 2%nat = inl e
       /\ run = ([Invoke 0; Sleep 1; Invoke 1; Sleep 2; Invoke 2],
                 inl (GenerationExhausted 3 (Some e)))
       /\ invocations (fst run) = 3%nat)
    /\ (forall (k : nat) (r : record),
          Z.of_nat k < max_retries (effective config) ->
          (forall n, (n < k)%nat -> exists e, out n = inl e /\ self_contained e = true) ->
          out k = inr r ->
          run = ((flat_map (fun n => [Invoke n; Sleep (2 ^ Z.of_nat n)]) (seq 0 k)
                  ++ [Invoke k])%list, inr r)
          /\ invocations (fst run) = S k).
Proof.
  intros chat repair_json prompt config out run. split.
  - intros Hmax Hfail.
    destruct (attempts_all_fail chat repair_json prompt (effective config) 3 0 None
                Locals.unbound [])
      as (cause & Hrun & e & He & ->).
    { intros n Hn. destruct (Hfail n Hn) as (e & He & Hs).
      now apply retried_self_contained with e. }
    exists e. split; [exact He|].
    assert (Hrun' : run = ([Invoke 0; Sleep 1; Invoke 1; Sleep 2; Invoke 2],
                          inl (GenerationExhausted 3 (Some e)))).
    { unfold run, generate_lesson_plan. cbv zeta. rewrite Hmax.
      change (Z.to_nat 3) with 3%nat. rewrite Hrun.
      unfold failed_attempts, backoff. rewrite Hmax. reflexivity. }
    split; [exact Hrun' | now rewrite Hrun'].
  - intros k r Hk Hfail Hok.
    assert (Hrun : run = ((failed_attempts (effective config) 0 k ++ [Invoke k])%list, inr r)).
    { unfold run, generate_lesson_plan. cbv zeta.
      rewrite (attempts_success chat repair_json prompt (effective config) k _ 0 None
                 Locals.unbound [] r); auto; [lia|].
      intros n Hn. destruct (Hfail n Hn) as (e & He & Hs).
      now apply retried_self_contained with e. }
    split.
    + rewrite Hrun, failed_attempts_sleep; [reflexivity | rewrite Nat.add_0_l; lia].
    + rewrite Hrun. simpl fst. rewrite invocations_app, invocations_failed.
      change (invocations [Invoke k]) with 1%nat. lia.
Qed.

Lemma retry_bound_and_early_success_witness :
  (max_retries (effective None) = 3
   /\ (forall n, (n < 3)%nat ->
         exists e, outcome garbled_chat repair_identity "plan" (effective None) n = inl e
                   /\ self_contained e = true)
   /\ generate_lesson_plan garbled_chat repair_identity "plan" None
      = ([Invoke 0; Sleep 1; Invoke 1; Sleep 2; Invoke 2],
         inl (GenerationExhausted 3 (Some UnrepairableContent))))
  /\ (generate_lesson_plan second_time_chat repair_identity "plan" None
      = ([Invoke 0; Sleep 1; Invoke 1], inr (filled_record 50))
      /\ invocations (fst (generate_lesson_plan second_time_chat repair_identity "plan" None))
         = 2%nat).
Proof.
  split.
  - split; [reflexivity|]. split.
    + intros n Hn. exists UnrepairableContent. split; reflexivity.
    + destruct (proj1 (retry_bound_and_early_success garbled_chat repair_identity "plan" None))
        as (e & He & Hrun & _).
      * reflexivity.
      * intros n Hn. exists UnrepairableContent. split; reflexivity.
      * rewrite Hrun. vm_compute in He. inversion He. reflexivity.
  - apply (proj2 (retry_bound_and_early_success second_time_chat repair_identity "plan" None)
             1%nat (filled_record 50)).
    + reflexivity.
    + intros n Hn. exists InsufficientContent.
      destruct n as [|n]; [split; reflexivity | lia].
    + vm_compute. reflexivity.
Defined.

(** C3, as the code has it.  An answer that is empty or shorter than 50
    characters is rejected as insufficient.  Every error of the body after
    the model has answered is one of the four attempt-local ones (unless the
    answer leaves the alphabet), and its handler runs to its end, whatever
    was assigned before: the error is stored and the loop goes on.  But the
    final error is not the only one the caller can see: when the model call
    itself raises [json.JSONDecodeError] or [jsonschema.ValidationError],
    the handler reads [content], [clean_content] or [parsed]; if the name
    is not bound, [UnboundLocalError] leaves the function after that
    invocation.  Every run is some retried attempts followed by a
    successful one, or by one whose handler raises, or [max_retries]
    retried attempts and the final error. *)
Theorem attempt_errors_and_handlers :
  forall (chat : chat_service) (repair_json : string -> option string)
         (prompt : string) (config : option LessonPlanConfig),
    let cfg := effective config in
    let out := outcome chat repair_json prompt cfg in
    let run := generate_lesson_plan chat repair_json prompt config in
    let total := Z.to_nat (max_retries cfg) in
    let again := retried chat repair_json prompt cfg Locals.unbound 0 in
    (forall content, (String.length content < 50)%nat ->
        process repair_json content = inl InsufficientContent)
    /\ (forall content e vars,
          process repair_json content = inl e ->
          e = BeyondAlphabet
          \/ (attempt_local e
              /\ handle (assign repair_json (inr content) vars) e = inr tt))
    /\ (forall n e, out n = inl e -> attempt_local e -> again n)
    /\ (forall e, snd run = inl e ->
          ~ attempt_local e
          /\ ((exists cause, e = GenerationExhausted (max_retries cfg) cause)
              \/ e = BeyondAlphabet
              \/ exists k name,
                   (k < total)%nat /\ e = UnboundLocalError name
                   /\ (out k = inl (ModelCallError ModelJSONDecodeError)
                       \/ out k = inl (ModelCallError ModelValidationError))))
    /\ ((exists k r, (k < total)%nat
           /\ (forall n, (n < k)%nat -> again n)
           /\ out k = inr r
           /\ run = ((failed_attempts cfg 0 k ++ [Invoke k])%list, inr r))
        \/ (exists k e raised, (k < total)%nat
              /\ (forall n, (n < k)%nat -> again n)
              /\ out k = inl e
              /\ handle (vars_after chat repair_json prompt cfg Locals.unbound 0 (S k)) e
                 = inl raised
              /\ run = ((failed_attempts cfg 0 k ++ [Invoke k])%list, inl raised))
        \/ ((forall n, (n < total)%nat -> again n)
            /\ exists cause,
                run = (failed_attempts cfg 0 total,
                       inl (GenerationExhausted (max_retries cfg) cause))
                /\ match total with
                   | O => cause = None
                   | S j => exists e, out j = inl e /\ cause = Some e
                   end)).
Proof.
  intros chat repair_json prompt config cfg out run total again.
  assert (Hrun0 : run = attempts chat repair_json prompt cfg total 0 None Locals.unbound [])
    by reflexivity.
  pose proof (run_result chat repair_json prompt cfg total 0 None Locals.unbound [])
    as Hcases.
  cbn [app Nat.add] in Hcases. rewrite <- Hrun0 in Hcases.
  fold out in Hcases. fold again in Hcases.
  split; [apply process_short|].
  split; [intros content e vars; apply process_error|].
  split.
  { intros n e He Hlocal. apply (retried_self_contained chat repair_json prompt cfg _ 0 n e).
    - exact He.
    - destruct e; try contradiction; reflexivity. }
  split; [|exact Hcases].
  intros e He.
  destruct Hcases as [(k & r & _ & _ & _ & Hrun)
                     |[(k & e0 & raised & Hk & _ & He0 & Hh & Hrun)
                      |(_ & cause & Hrun & _)]];
    rewrite Hrun in He; cbn [snd] in He.
  - discriminate.
  - injection He as <-.
    rewrite (vars_after_S chat repair_json prompt cfg) in Hh.
    destruct (handle_raises chat repair_json prompt cfg _ _ _ _ He0 Hh)
      as [[_ ->]|[Hclass [name ->]]].
    + split; [intros []|]. right. now left.
    + split; [intros []|]. right. right. exists k, name.
      split; [exact Hk|]. split; [reflexivity|].
      destruct Hclass as [<-|<-]; [now left | now right].
  - injection He as <-. split; [intros []|]. left. eauto.
Qed.

(** C3 as stated fails.  A model call that raises [json.JSONDecodeError] in
    the first attempt reaches the first handler with [content] unbound, and
    the run ends after one invocation with [UnboundLocalError]; after an
    answer that could not be repaired, the same error in the second attempt
    finds [content] and ends the run at [clean_content]. *)
Lemma handler_error_escapes :
  generate_lesson_plan undecodable_chat repair_identity "plan" None
  = ([Invoke 0], inl (UnboundLocalError "content"))
  /\ generate_lesson_plan garbled_then_undecodable repair_identity "plan" None
     = ([Invoke 0; Sleep 1; Invoke 1], inl (UnboundLocalError "clean_content"))
  /\ ~ (forall (chat : chat_service) (repair_json : string -> option string)
               (prompt : string) (config : option LessonPlanConfig) (e : exn),
          snd (generate_lesson_plan chat repair_json prompt config) = inl e ->
          exists cause, e = GenerationExhausted (max_retries (effective config)) cause).
Proof.
  split; [reflexivity|]. split; [reflexivity|].
  intros H.
  destruct (H undecodable_chat repair_identity "plan" None _ eq_refl) as [cause Hc].
  discriminate.
Qed.

(** ** [sanitize_text] *)

Lemma tags_of_no_angle s : mem "<" s = false -> tags_of s = [].
Proof.
  induction s as [|c s IH]; simpl; auto.
  intros H. apply orb_false_iff in H. destruct H as [Hc Hs].
  rewrite Hc. auto.
Qed.

Lemma drop_angles_no_angle s : mem "<" (drop_angles s) = false.
Proof.
  induction s as [|c s IH]; simpl; auto.
  destruct (Ascii.eqb c "<") eqn:E; simpl; auto.
  destruct (Ascii.eqb c ">"); simpl; auto. now rewrite E.
Qed.

Lemma strip_cleaner_contract : sanitize_contract strip_cleaner.
Proof.
  intros s. unfold only_allowed_tags, strip_cleaner.
  now rewrite tags_of_no_angle by apply drop_angles_no_angle.
Qed.

(** C9, as the code has it.  [sanitize_text] returns a text for every value.
    For a text it returns what [bleach.clean] gives with the allow-lists, so
    every tag left is on the allow-list.  A value that is not a text is
    turned into its text and returned as it is: for [None], a boolean or a
    number that text has no tag at all, but markup inside the texts of a
    list or dictionary is not removed. *)
Theorem sanitize_text_by_kind :
  forall bleach_clean : cleaner,
    sanitize_contract bleach_clean ->
    (forall s, sanitize_text bleach_clean (PyStr s)
               = bleach_clean ALLOWED_TAGS ALLOWED_ATTRIBUTES true s
               /\ only_allowed_tags (sanitize_text bleach_clean (PyStr s)) = true)
    /\ (forall v, is_text v = false -> sanitize_text bleach_clean v = py_str v)
    /\ (forall v, is_text v = false -> is_nested v = false ->
          tags_of (sanitize_text bleach_clean v) = []).
Proof.
  intros bleach_clean Hclean. split; [|split].
  - intros s. split; [reflexivity | apply Hclean].
  - intros v Hv. destruct v; try reflexivity. discriminate.
  - intros v Htext Hnested. apply tags_of_no_angle.
    destruct v as [| [] | z | x | s | l | d]; try discriminate; simpl; try reflexivity.
    + now apply str_of_Z_avoids.
    + now apply float_repr_avoids.
Qed.

Lemma sanitize_text_by_kind_witness :
  sanitize_contract strip_cleaner
  /\ (forall s, sanitize_text strip_cleaner (PyStr s)
                = strip_cleaner ALLOWED_TAGS ALLOWED_ATTRIBUTES true s
                /\ only_allowed_tags (sanitize_text strip_cleaner (PyStr s)) = true)
  /\ (forall v, is_text v = false -> sanitize_text strip_cleaner v = py_str v)
  /\ (forall v, is_text v = false -> is_nested v = false ->
        tags_of (sanitize_text strip_cleaner v) = []).
Proof.
  split; [exact strip_cleaner_contract|].
  apply (sanitize_text_by_kind strip_cleaner). exact strip_cleaner_contract.
Defined.

(** C9 as stated fails: even with a cleaner that leaves no tag in any text,
    the list with one text in it comes back with its [script] tags. *)
Lemma sanitize_text_keeps_markup :
  sanitize_text strip_cleaner script_list = "['<script>alert(1)</script>']"
  /\ only_allowed_tags (sanitize_text strip_cleaner script_list) = false
  /\ ~ (forall bleach_clean : cleaner,
          sanitize_contract bleach_clean ->
          forall v, only_allowed_tags (sanitize_text bleach_clean v) = true).
Proof.
  split; [reflexivity|]. split; [reflexivity|].
  intros H. specialize (H strip_cleaner strip_cleaner_contract script_list).
  discriminate.
Qed.

(** ** The fuel of the parser and of the substitution is enough *)

Section ParserFuel.
Import Json.

(** a parse that succeeds takes tokens, and succeeds alike with any fuel
    that is at least the number of tokens taken *)
Definition enough (value : nat -> list token -> option (value * list token)) (f : nat)
  : Prop :=
  forall ts v rest,
    value f ts = Some (v, rest) ->
    (List.length rest < List.length ts)%nat
    /\ forall f', (List.length ts - List.length rest <= f')%nat ->
                  value f' ts = Some (v, rest).

Lemma elements_enough f :
  enough parse_value f ->
  forall n ts acc v rest,
    elements (parse_value f) n ts acc = Some (v, rest) ->
    (List.length rest < List.length ts)%nat
    /\ forall f' n',
         (List.length ts - List.length rest <= f')%nat ->
         (List.length ts - List.length rest <= n')%nat ->
         elements (parse_value f') n' ts acc = Some (v, rest).
Proof.
  intros Hf. induction n as [|n IH]; intros ts acc v rest H; [discriminate|].
  simpl in H.
  destruct (parse_value f ts) as [[x [|t r]]|] eqn:Hx; try discriminate.
  destruct (Hf _ _ _ Hx) as [Hlen Hmore]. cbn [List.length] in Hlen.
  destruct t; try discriminate.
  - inversion H; subst. split; [cbn [List.length] in *; lia|].
    intros f' n' Hf' Hn'. destruct n'; [cbn [List.length] in *; lia|].
    simpl. rewrite Hmore by (cbn [List.length] in *; lia). reflexivity.
  - destruct (IH _ _ _ _ H) as [Hlen' Hmore']. split; [lia|].
    intros f' n' Hf' Hn'. destruct n'; [lia|].
    simpl. rewrite Hmore by (cbn [List.length] in *; lia). apply Hmore'; lia.
Qed.

Lemma members_enough f :
  enough parse_value f ->
  forall n ts acc v rest,
    members (parse_value f) n ts acc = Some (v, rest) ->
    (List.length rest < List.length ts)%nat
    /\ forall f' n',
         (List.length ts - List.length rest <= f')%nat ->
         (List.length ts - List.length rest <= n')%nat ->
         members (parse_value f') n' ts acc = Some (v, rest).
Proof.
  intros Hf. induction n as [|n IH]; intros ts acc v rest H; [discriminate|].
  simpl in H.
  destruct ts as [|[| | | | | |k|w] [|[] r1]]; try discriminate.
  destruct (parse_value f r1) as [[x [|t r]]|] eqn:Hx; try discriminate.
  destruct (Hf _ _ _ Hx) as [Hlen Hmore]. cbn [List.length] in Hlen.
  destruct t; try discriminate.
  - inversion H; subst. split; [cbn [List.length] in *; lia|].
    intros f' n' Hf' Hn'. destruct n'; [cbn [List.length] in *; lia|].
    simpl. rewrite Hmore by (cbn [List.length] in *; lia). reflexivity.
  - destruct (IH _ _ _ _ H) as [Hlen' Hmore']. split; [cbn [List.length] in *; lia|].
    intros f' n' Hf' Hn'. destruct n'; [cbn [List.length] in *; lia|].
    simpl. rewrite Hmore by (cbn [List.length] in *; lia). apply Hmore'; cbn [List.length] in *; lia.
Qed.

Lemma parse_value_enough_all f : enough parse_value f.
Proof.
  induction f as [|f IH]; intros ts v rest H; [discriminate|].
  destruct ts as [|t r]; [discriminate|].
  destruct t; try discriminate.
  - (* an object *)
    destruct r as [|t' r'].
    + simpl in H. destruct f; discriminate.
    + assert (Hcases :
        (t' = TRBrace /\ v = JObj [] /\ rest = r')
        \/ (t' <> TRBrace /\ members (parse_value f) f (t' :: r') [] = Some (v, rest))).
      { destruct t'; simpl in H;
          try (right; split; [discriminate | exact H]).
        left. inversion H; auto. }
      destruct Hcases as [(-> & -> & ->)|[Hne Hm]].
      * split; [cbn [List.length] in *; lia|]. intros f' Hf'. destruct f'; [cbn [List.length] in *; lia|]. reflexivity.
      * destruct (members_enough f IH _ _ _ _ _ Hm) as [Hlen Hmore].
        split; [cbn [List.length] in *; lia|].
        intros f' Hf'. destruct f'; [cbn [List.length] in *; lia|].
        assert (Hgoal : members (parse_value f') f' (t' :: r') [] = Some (v, rest))
          by (apply Hmore; cbn [List.length] in *; lia).
        destruct t'; try exact Hgoal. congruence.
  - (* an array *)
    destruct r as [|t' r'].
    + simpl in H. destruct f; discriminate.
    + assert (Hcases :
        (t' = TRBracket /\ v = JArr [] /\ rest = r')
        \/ (t' <> TRBracket /\ elements (parse_value f) f (t' :: r') [] = Some (v, rest))).
      { destruct t'; simpl in H;
          try (right; split; [discriminate | exact H]).
        left. inversion H; auto. }
      destruct Hcases as [(-> & -> & ->)|[Hne Hm]].
      * split; [cbn [List.length] in *; lia|]. intros f' Hf'. destruct f'; [cbn [List.length] in *; lia|]. reflexivity.
      * destruct (elements_enough f IH _ _ _ _ _ Hm) as [Hlen Hmore].
        split; [cbn [List.length] in *; lia|].
        intros f' Hf'. destruct f'; [cbn [List.length] in *; lia|].
        assert (Hgoal : elements (parse_value f') f' (t' :: r') [] = Some (v, rest))
          by (apply Hmore; cbn [List.length] in *; lia).
        destruct t'; try exact Hgoal. congruence.
  - (* a string *)
    simpl in H. inversion H; subst. split; [cbn [List.length] in *; lia|].
    intros f' Hf'. destruct f'; [cbn [List.length] in *; lia|]. reflexivity.
  - (* a bare word *)
    simpl in H. destruct (word_value w) as [x|] eqn:Hw; [|discriminate].
    inversion H; subst. split; [cbn [List.length] in *; lia|].
    intros f' Hf'. destruct f'; [cbn [List.length] in *; lia|]. simpl. now rewrite Hw.
Qed.

(** whatever fuel makes the parser succeed, the fuel [loads] gives it does too *)
Lemma parse_value_enough f ts v rest :
  parse_value f ts = Some (v, rest) ->
  parse_value (S (List.length ts)) ts = Some (v, rest).
Proof.
  intros H. destruct (parse_value_enough_all f _ _ _ H) as [_ Hmore].
  apply Hmore. lia.
Qed.

End ParserFuel.

Lemma match_here_rest p : forall s g g' rest,
  Re.match_here p s g = Some (g', rest) ->
  (String.length rest <= String.length s)%nat.
Proof.
  induction p as [|it p IH]; intros s g g' rest H.
  - inversion H; subst. lia.
  - destruct it.
    + destruct s as [|d s]; [discriminate|]. simpl in H.
      destruct (Ascii.eqb d c); [|discriminate].
      apply IH in H. simpl. lia.
    + cbn [Re.match_here] in H. revert H.
      induction s as [|d s IHs]; intros H.
      * now apply IH in H.
      * destruct (isspace d).
        -- match type of H with
           | match ?m with _ => _ end = _ => destruct m as [[g1 r1]|]
           end.
           ++ specialize (IHs H). simpl. lia.
           ++ now apply IH in H.
        -- now apply IH in H.
    + cbn [Re.match_here] in H. revert H. generalize (@nil ascii) as acc.
      induction s as [|d s IHs]; intros acc H.
      * destruct (Re.match_here p EmptyString _) as [[g1 r1]|] eqn:Hm; [|discriminate].
        inversion H; subst. now apply IH in Hm.
      * destruct (Re.match_here p (String d s) _) as [[g1 r1]|] eqn:Hm.
        -- inversion H; subst. now apply IH in Hm.
        -- specialize (IHs _ H). simpl. lia.
Qed.

(** the substitution does not depend on its fuel once the fuel exceeds the
    length of the text *)
Lemma sub_from_enough c p : forall f1 f2 s,
  (String.length s < f1)%nat -> (String.length s < f2)%nat ->
  Re.sub_from f1 (Re.Lit c :: p) s = Re.sub_from f2 (Re.Lit c :: p) s.
Proof.
  induction f1 as [|f1 IH]; intros f2 s H1 H2; [lia|].
  destruct f2 as [|f2]; [lia|].
  cbn [Re.sub_from].
  destruct (Re.match_here (Re.Lit c :: p) s EmptyString) as [[g rest]|] eqn:Hm.
  - f_equal. apply IH.
    + destruct s as [|d s]; [discriminate|]. simpl in Hm.
      destruct (Ascii.eqb d c); [|discriminate].
      apply match_here_rest in Hm. simpl in H1. lia.
    + destruct s as [|d s]; [discriminate|]. simpl in Hm.
      destruct (Ascii.eqb d c); [|discriminate].
      apply match_here_rest in Hm. simpl in H2. lia.
  - destruct s as [|d s]; [reflexivity|].
    f_equal. apply IH; simpl in *; lia.
Qed.

(** ** Fence stripping *)

Lemma sub_from_skip n p c t :
  Ascii.eqb c backtick = false ->
  Re.sub_from (S n) (Re.Lit backtick :: p) (String c t)
  = String c (Re.sub_from n (Re.Lit backtick :: p) t).
Proof. intros H. cbn [Re.sub_from Re.match_here]. now rewrite H. Qed.

Lemma sub_keeps_prefix p pre s :
  mem backtick pre = false ->
  Re.sub (Re.Lit backtick :: p) (pre ++ s) = pre ++ Re.sub (Re.Lit backtick :: p) s.
Proof.
  induction pre as [|c pre IH]; intros H; [reflexivity|].
  cbn [mem] in H. apply orb_false_iff in H. destruct H as [Hc Hpre].
  change (String c pre ++ s) with (String c (pre ++ s)).
  unfold Re.sub at 1. cbn [String.length].
  rewrite sub_from_skip by assumption.
  change (Re.sub_from (S (String.length (pre ++ s))) (Re.Lit backtick :: p) (pre ++ s))
    with (Re.sub (Re.Lit backtick :: p) (pre ++ s)).
  now rewrite IH.
Qed.

(** *** The equations of [Re.match_here] *)

Lemma str_app_assoc (a b c : string) : (a ++ b) ++ c = a ++ (b ++ c).
Proof. induction a as [|x a IH]; simpl; congruence. Qed.

Lemma app_cons c (a b : string) : String c a ++ b = String c (a ++ b).
Proof. reflexivity. Qed.

Lemma str_app_nil_r (a : string) : a ++ EmptyString = a.
Proof. induction a as [|x a IH]; simpl; congruence. Qed.

Lemma string_of_list_app (a b : list ascii) :
  string_of_list_ascii (a ++ b) = string_of_list_ascii a ++ string_of_list_ascii b.
Proof. induction a as [|x a IH]; simpl; congruence. Qed.

Lemma spaces_eq q s g :
  Re.match_here (Re.Spaces :: q) s g
  = match s with
    | String d s' =>
        if isspace d then
          match Re.match_here (Re.Spaces :: q) s' g with
          | Some m => Some m
          | None => Re.match_here q s g
          end
        else Re.match_here q s g
    | EmptyString => Re.match_here q s g
    end.
Proof. destruct s; reflexivity. Qed.

Lemma lazy_scan_eq q s acc :
  lazy_scan q s acc
  = match Re.match_here q s (string_of_list_ascii (rev acc)) with
    | Some m => Some m
    | None =>
        match s with
        | String d s' => lazy_scan q s' (d :: acc)
        | EmptyString => None
        end
    end.
Proof. destruct s; reflexivity. Qed.

Lemma group_eq q s g : Re.match_here (Re.Group :: q) s g = lazy_scan q s [].
Proof.
  cbn [Re.match_here]. generalize (@nil ascii) as acc.
  induction s as [|d s IH]; intros acc; [reflexivity|].
  rewrite lazy_scan_eq.
  destruct (Re.match_here q (String d s) (string_of_list_ascii (rev acc)));
    [reflexivity | apply IH].
Qed.

Lemma lit_eq c q s g :
  Re.match_here (Re.Lit c :: q) s g
  = match s with
    | String d s' => if Ascii.eqb d c then Re.match_here q s' g else None
    | EmptyString => None
    end.
Proof. reflexivity. Qed.

Lemma match_lit o : forall q x g,
  Re.match_here (Re.lit o ++ q)%list (o ++ x) g = Re.match_here q x g.
Proof.
  induction o as [|c o IH]; intros q x g; [reflexivity|].
  cbn [Re.lit app append]. rewrite lit_eq, Ascii.eqb_refl. apply IH.
Qed.

(** *** Where a fence pattern can match *)

Section FencePattern.
Variable q : Re.pattern.
Let p : Re.pattern := Re.Lit backtick :: Re.Lit backtick :: Re.Lit backtick :: q.
Let closer : Re.pattern :=
  [Re.Spaces; Re.Lit backtick; Re.Lit backtick; Re.Lit backtick].

Lemma fence_none s g : starts_fence s = false -> Re.match_here p s g = None.
Proof.
  unfold p, starts_fence, is_tick. intros H.
  destruct s as [|a [|b [|c s]]]; cbn [Re.match_here].
  - reflexivity.
  - destruct (Ascii.eqb a backtick); reflexivity.
  - destruct (Ascii.eqb a backtick); [destruct (Ascii.eqb b backtick)|]; reflexivity.
  - destruct (Ascii.eqb a backtick); [|reflexivity].
    destruct (Ascii.eqb b backtick); [|reflexivity].
    destruct (Ascii.eqb c backtick); [discriminate | reflexivity].
Qed.

Lemma fence_starts s g m : Re.match_here p s g = Some m -> starts_fence s = true.
Proof.
  intros H. destruct (starts_fence s) eqn:E; [reflexivity|].
  rewrite (fence_none _ _ E) in H. discriminate.
Qed.

Lemma has_fence_tail c y : has_fence (String c y) = false -> has_fence y = false.
Proof. cbn [has_fence]. intros H. now apply orb_false_iff in H. Qed.

Lemma has_fence_head s : has_fence s = false -> starts_fence s = false.
Proof. destruct s; cbn [has_fence]; intros H; now apply orb_false_iff in H. Qed.

Lemma last_is_tail f c y : last_is f (String c y) = false -> last_is f y = false.
Proof. destruct y; [reflexivity | auto]. Qed.

Lemma free_text_tail c y : free_text (String c y) = true -> free_text y = true.
Proof.
  unfold free_text. intros H. apply andb_true_iff in H. destruct H as [Hf Hl].
  apply negb_true_iff in Hf, Hl.
  now rewrite (has_fence_tail _ _ Hf), (last_is_tail _ _ _ Hl).
Qed.

(** inside free text no marker starts, whatever comes after the text *)
Lemma starts_fence_inside y z :
  y <> EmptyString -> has_fence y = false -> last_is is_tick y = false ->
  starts_fence (y ++ z) = false.
Proof.
  intros Hy Hf Hl. destruct y as [|a [|b [|c y]]]; [contradiction| | |].
  - cbn in Hl. cbn [append]. unfold starts_fence. rewrite Hl.
    destruct z as [|b [|c z]]; reflexivity.
  - cbn in Hl. cbn [append]. unfold starts_fence. rewrite Hl.
    destruct z as [|c z]; [reflexivity|]. now rewrite andb_false_r.
  - apply has_fence_head in Hf. exact Hf.
Qed.

(** the closing marker does not match inside the content of a block *)
Lemma closer_fails y : forall z g,
  y <> EmptyString -> has_fence y = false ->
  last_is is_tick y = false -> last_is isspace y = false ->
  Re.match_here closer (y ++ z) g = None.
Proof.
  induction y as [|c y IH]; intros z g Hy Hf Ht Hs; [contradiction|].
  assert (Hlit : Re.match_here
                   [Re.Lit backtick; Re.Lit backtick; Re.Lit backtick]
                   (String c y ++ z) g = None).
  { pose proof (starts_fence_inside (String c y) z Hy Hf Ht) as Hno.
    unfold starts_fence, is_tick in Hno. cbn [append] in *.
    destruct (y ++ z) as [|b [|d r]]; cbn [Re.match_here].
    - destruct (Ascii.eqb c backtick); reflexivity.
    - destruct (Ascii.eqb c backtick); [destruct (Ascii.eqb b backtick)|]; reflexivity.
    - destruct (Ascii.eqb c backtick); [|reflexivity].
      destruct (Ascii.eqb b backtick); [|reflexivity].
      destruct (Ascii.eqb d backtick); [discriminate | reflexivity]. }
  unfold closer. rewrite spaces_eq. cbn [append]. cbn [append] in Hlit.
  destruct (isspace c) eqn:Hc; [|exact Hlit].
  destruct y as [|d y].
  - cbn in Hs. congruence.
  - fold closer. rewrite IH.
    + exact Hlit.
    + discriminate.
    + exact (has_fence_tail _ _ Hf).
    + exact (last_is_tail _ _ _ Ht).
    + exact (last_is_tail _ _ _ Hs).
Qed.

(** it matches where the content ends *)
Lemma closer_matches ws : forall rest g,
  all_space ws = true ->
  Re.match_here closer (ws ++ "```" ++ rest) g = Some (g, rest).
Proof.
  induction ws as [|c ws IH]; intros rest g H.
  - reflexivity.
  - cbn [all_space] in H. apply andb_true_iff in H. destruct H as [Hc Hws].
    unfold closer. rewrite app_cons, spaces_eq, Hc.
    fold closer. now rewrite IH.
Qed.

(** the lazy group stops at the end of the content *)
Lemma lazy_over_body y : forall acc ws rest,
  has_fence y = false -> last_is is_tick y = false -> last_is isspace y = false ->
  all_space ws = true ->
  lazy_scan closer (y ++ ws ++ "```" ++ rest) acc
  = Some (string_of_list_ascii (rev acc) ++ y, rest).
Proof.
  induction y as [|c y IH]; intros acc ws rest Hf Ht Hs Hws.
  - rewrite lazy_scan_eq.
    change (EmptyString ++ ws ++ "```" ++ rest) with (ws ++ "```" ++ rest).
    rewrite closer_matches by assumption.
    now rewrite str_app_nil_r.
  - rewrite lazy_scan_eq.
    rewrite (closer_fails (String c y)) by (assumption || discriminate).
    rewrite app_cons, IH.
    + cbn [rev]. rewrite string_of_list_app. cbn [string_of_list_ascii].
      now rewrite str_app_assoc.
    + exact (has_fence_tail _ _ Hf).
    + exact (last_is_tail _ _ _ Ht).
    + exact (last_is_tail _ _ _ Hs).
    + exact Hws.
Qed.

Lemma block_text_parts y :
  block_text y = true ->
  has_fence y = false /\ last_is is_tick y = false
  /\ first_is isspace y = false /\ last_is isspace y = false.
Proof.
  unfold block_text, free_text. intros H.
  apply andb_true_iff in H. destruct H as [H Hl].
  apply andb_true_iff in H. destruct H as [H Hfi].
  apply andb_true_iff in H. destruct H as [Hf Ht].
  apply negb_true_iff in Hl, Hfi, Hf, Ht. auto.
Qed.

(** a block without content *)
Lemma empty_block_matches ws : forall rest g,
  all_space ws = true ->
  Re.match_here (Re.Spaces :: Re.Group :: closer) (ws ++ "```" ++ rest) g
  = Some (EmptyString, rest).
Proof.
  induction ws as [|c ws IH]; intros rest g H.
  - change (EmptyString ++ "```" ++ rest) with (String "`" ("``" ++ rest)).
    rewrite spaces_eq.
    change (isspace "`"%char) with false. cbv iota.
    rewrite group_eq, lazy_scan_eq.
    change (String "`" ("``" ++ rest)) with (EmptyString ++ "```" ++ rest).
    now rewrite (closer_matches EmptyString).
  - cbn [all_space] in H. apply andb_true_iff in H. destruct H as [Hc Hws].
    rewrite app_cons, spaces_eq, Hc. now rewrite IH.
Qed.

(** white space, the content, white space and the closing marker: the
    group captures the content and the match ends after the marker *)
Lemma block_matches ws1 : forall y ws2 rest g,
  all_space ws1 = true -> block_text y = true -> all_space ws2 = true ->
  Re.match_here (Re.Spaces :: Re.Group :: closer) (ws1 ++ y ++ ws2 ++ "```" ++ rest) g
  = Some (y, rest).
Proof.
  induction ws1 as [|c ws1 IH]; intros y ws2 rest g H1 Hy H2.
  - change (EmptyString ++ y ++ ws2 ++ "```" ++ rest) with (y ++ ws2 ++ "```" ++ rest).
    destruct (block_text_parts _ Hy) as (Hf & Ht & Hfi & Hs).
    destruct y as [|d y].
    + change (EmptyString ++ ws2 ++ "```" ++ rest) with (ws2 ++ "```" ++ rest).
      now apply empty_block_matches.
    + cbn in Hfi. rewrite app_cons, spaces_eq, Hfi.
      rewrite group_eq. rewrite <- app_cons.
      exact (lazy_over_body (String d y) [] ws2 rest Hf Ht Hs H2).
  - cbn [all_space] in H1. apply andb_true_iff in H1. destruct H1 as [Hc Hws].
    rewrite app_cons, spaces_eq, Hc. now rewrite IH.
Qed.

(** *** Substitution with a pattern that starts with a fence marker *)

Lemma sub_skip c0 r d s :
  Re.match_here (Re.Lit c0 :: r) (String d s) EmptyString = None ->
  Re.sub (Re.Lit c0 :: r) (String d s) = String d (Re.sub (Re.Lit c0 :: r) s).
Proof. intros H. unfold Re.sub. cbn [String.length Re.sub_from]. now rewrite H. Qed.

Lemma sub_hit c0 r s g rest :
  Re.match_here (Re.Lit c0 :: r) s EmptyString = Some (g, rest) ->
  Re.sub (Re.Lit c0 :: r) s = g ++ Re.sub (Re.Lit c0 :: r) rest.
Proof.
  intros H. unfold Re.sub at 1.
  replace (Re.sub_from (S (String.length s)) (Re.Lit c0 :: r) s)
    with (g ++ Re.sub_from (String.length s) (Re.Lit c0 :: r) rest)
    by (cbn [Re.sub_from]; now rewrite H).
  f_equal. unfold Re.sub.
  apply sub_from_enough; [|lia].
  destruct s as [|d s]; [discriminate|]. rewrite lit_eq in H.
  destruct (Ascii.eqb d c0); [|discriminate].
  apply match_here_rest in H. cbn [String.length]. lia.
Qed.

Lemma sub_free before : forall x,
  free_text before = true -> Re.sub p (before ++ x) = before ++ Re.sub p x.
Proof.
  induction before as [|c before IH]; intros x H; [reflexivity|].
  rewrite !app_cons. unfold p. rewrite sub_skip.
  - fold p. rewrite IH by exact (free_text_tail _ _ H). reflexivity.
  - fold p. apply fence_none.
    unfold free_text in H. apply andb_true_iff in H. destruct H as [Hf Hl].
    apply negb_true_iff in Hf, Hl.
    exact (starts_fence_inside (String c before) x ltac:(discriminate) Hf Hl).
Qed.

Lemma sub_calm tail : has_fence tail = false -> Re.sub p tail = tail.
Proof.
  induction tail as [|c tail IH]; intros H; [reflexivity|].
  unfold p. rewrite sub_skip.
  - fold p. now rewrite IH by exact (has_fence_tail _ _ H).
  - fold p. apply fence_none, has_fence_head, H.
Qed.

Lemma search_fence s : Re.search p s = true -> has_fence s = true.
Proof.
  induction s as [|c s IH]; cbn [Re.search has_fence].
  - destruct (Re.match_here p EmptyString EmptyString) eqn:E; [|discriminate].
    apply fence_starts in E. discriminate.
  - destruct (Re.match_here p (String c s) EmptyString) eqn:E.
    + apply fence_starts in E. now rewrite E.
    + intros H. rewrite IH by assumption. apply orb_true_r.
Qed.

End FencePattern.

Lemma search_found p pre : forall s m,
  Re.match_here p s EmptyString = Some m -> Re.search p (pre ++ s) = true.
Proof.
  induction pre as [|c pre IH]; intros s m H.
  - destruct s; cbn [append Re.search]; now rewrite H.
  - cbn [append Re.search].
    destruct (Re.match_here p (String c (pre ++ s)) EmptyString); [reflexivity|].
    eapply IH; eauto.
Qed.

(** *** Counting back-ticks *)




(** a match takes at least the back-ticks its pattern names *)
Lemma match_ticks p : forall s g g' rest,
  Re.match_here p s g = Some (g', rest) ->
  (lit_ticks p + ticks rest <= ticks s)%nat.
Proof.
  induction p as [|it p IH]; intros s g g' rest H.
  - inversion H; subst. simpl. lia.
  - destruct it.
    + destruct s as [|d s]; [discriminate|]. rewrite lit_eq in H.
      destruct (Ascii.eqb d c) eqn:E; [|discriminate].
      apply Ascii.eqb_eq in E. subst d.
      apply IH in H. cbn [lit_ticks ticks]. destruct (is_tick c); lia.
    + cbn [lit_ticks]. revert H.
      induction s as [|d s IHs]; intros H; rewrite spaces_eq in H.
      * now apply IH in H.
      * assert (Hd : (ticks s <= ticks (String d s))%nat)
          by (cbn [ticks]; destruct (is_tick d); lia).
        destruct (isspace d).
        -- destruct (Re.match_here (Re.Spaces :: p) s g) as [[g1 r1]|] eqn:Hm.
           ++ inversion H; subst. specialize (IHs eq_refl). lia.
           ++ now apply IH in H.
        -- now apply IH in H.
    + cbn [lit_ticks]. rewrite group_eq in H. revert H. generalize (@nil ascii) as acc.
      induction s as [|d s IHs]; intros acc H; rewrite lazy_scan_eq in H.
      * destruct (Re.match_here p EmptyString _) as [[g1 r1]|] eqn:Hm; [|discriminate].
        inversion H; subst. now apply IH in Hm.
      * destruct (Re.match_here p (String d s) _) as [[g1 r1]|] eqn:Hm.
        -- inversion H; subst. now apply IH in Hm.
        -- specialize (IHs _ H). cbn [ticks]. destruct (is_tick d); lia.
Qed.

Lemma search_ticks p s : Re.search p s = true -> (lit_ticks p <= ticks s)%nat.
Proof.
  induction s as [|c s IH]; cbn [Re.search].
  - destruct (Re.match_here p EmptyString EmptyString) as [[g r]|] eqn:E; [|discriminate].
    intros _. apply match_ticks in E. lia.
  - destruct (Re.match_here p (String c s) EmptyString) as [[g r]|] eqn:E.
    + intros _. apply match_ticks in E. lia.
    + intros H. specialize (IH H). cbn [ticks]. destruct (is_tick c); lia.
Qed.

Lemma search_few_ticks p s : (ticks s < lit_ticks p)%nat -> Re.search p s = false.
Proof.
  intros H. destruct (Re.search p s) eqn:E; [|reflexivity].
  apply search_ticks in E. lia.
Qed.

Lemma sub_few_ticks c0 r s :
  (ticks s < lit_ticks (Re.Lit c0 :: r))%nat -> Re.sub (Re.Lit c0 :: r) s = s.
Proof.
  induction s as [|d s IH]; intros H; [reflexivity|].
  rewrite sub_skip.
  - rewrite IH; [reflexivity|]. cbn [ticks] in H. destruct (is_tick d); lia.
  - destruct (Re.match_here (Re.Lit c0 :: r) (String d s) EmptyString) as [[g rest]|] eqn:E;
      [|reflexivity].
    apply match_ticks in E. lia.
Qed.

(** a text with at most one back-tick goes through unchanged *)
Lemma strip_fences_few_ticks s : (ticks s <= 1)%nat -> strip_fences patterns s = s.
Proof.
  intros H. unfold patterns. cbn [strip_fences].
  rewrite (search_few_ticks json_fence) by (cbn; lia).
  rewrite (search_few_ticks any_fence) by (cbn; lia).
  now rewrite (search_few_ticks inline_span) by (cbn; lia).
Qed.

(** *** The three patterns on texts with blocks and spans *)

Lemma json_block_matches b rest :
  Fenced.ok b = true ->
  Re.match_here json_fence
    ("```json" ++ Fenced.gap b ++ Fenced.body b ++ Fenced.gap' b ++ "```" ++ rest)
    EmptyString
  = Some (Fenced.body b, rest).
Proof.
  unfold Fenced.ok. intros H.
  apply andb_true_iff in H. destruct H as [H H4].
  apply andb_true_iff in H. destruct H as [H H3].
  apply andb_true_iff in H. destruct H as [H1 H2].
  change json_fence
    with (Re.lit "```json"
          ++ [Re.Spaces; Re.Group; Re.Spaces;
              Re.Lit backtick; Re.Lit backtick; Re.Lit backtick])%list.
  rewrite match_lit. now apply block_matches.
Qed.

Lemma any_block_matches b rest :
  Fenced.ok b = true ->
  Re.match_here any_fence
    ("```" ++ Fenced.gap b ++ Fenced.body b ++ Fenced.gap' b ++ "```" ++ rest)
    EmptyString
  = Some (Fenced.body b, rest).
Proof.
  unfold Fenced.ok. intros H.
  apply andb_true_iff in H. destruct H as [H H4].
  apply andb_true_iff in H. destruct H as [H H3].
  apply andb_true_iff in H. destruct H as [H1 H2].
  change any_fence
    with (Re.lit "```"
          ++ [Re.Spaces; Re.Group; Re.Spaces;
              Re.Lit backtick; Re.Lit backtick; Re.Lit backtick])%list.
  rewrite match_lit. now apply block_matches.
Qed.

Lemma ok_before b : Fenced.ok b = true -> free_text (Fenced.before b) = true.
Proof.
  unfold Fenced.ok. intros H.
  apply andb_true_iff in H. destruct H as [H _].
  apply andb_true_iff in H. destruct H as [H _].
  apply andb_true_iff in H. now destruct H as [H _].
Qed.

Lemma sub_json_blocks blocks tail :
  forallb Fenced.ok blocks = true -> has_fence tail = false ->
  Re.sub json_fence (Fenced.text "```json" blocks tail) = Fenced.content blocks tail.
Proof.
  intros Hb Ht. induction blocks as [|b blocks IH]; cbn [Fenced.text Fenced.content].
  - now apply (sub_calm (Re.lit "json"
                          ++ [Re.Spaces; Re.Group; Re.Spaces;
                              Re.Lit backtick; Re.Lit backtick; Re.Lit backtick])%list).
  - cbn [forallb] in Hb. apply andb_true_iff in Hb. destruct Hb as [Hok Hb].
    rewrite (sub_free (Re.lit "json"
                         ++ [Re.Spaces; Re.Group; Re.Spaces;
                             Re.Lit backtick; Re.Lit backtick; Re.Lit backtick])%list)
      by exact (ok_before _ Hok).
    f_equal.
    rewrite (sub_hit _ _ _ _ _ (json_block_matches b _ Hok)).
    f_equal. now apply IH.
Qed.

Lemma sub_any_blocks blocks tail :
  forallb Fenced.ok blocks = true -> has_fence tail = false ->
  Re.sub any_fence (Fenced.text "```" blocks tail) = Fenced.content blocks tail.
Proof.
  intros Hb Ht. induction blocks as [|b blocks IH]; cbn [Fenced.text Fenced.content].
  - now apply (sub_calm [Re.Spaces; Re.Group; Re.Spaces;
                         Re.Lit backtick; Re.Lit backtick; Re.Lit backtick]).
  - cbn [forallb] in Hb. apply andb_true_iff in Hb. destruct Hb as [Hok Hb].
    rewrite (sub_free [Re.Spaces; Re.Group; Re.Spaces;
                       Re.Lit backtick; Re.Lit backtick; Re.Lit backtick])
      by exact (ok_before _ Hok).
    f_equal.
    rewrite (sub_hit _ _ _ _ _ (any_block_matches b _ Hok)).
    f_equal. now apply IH.
Qed.

(** a pattern that starts with a literal text matches only where the text is *)
Lemma match_starts_with n : forall r s g m,
  Re.match_here (Re.lit n ++ r)%list s g = Some m -> starts_with n s = true.
Proof.
  induction n as [|c n IH]; intros r s g m H; [destruct s; reflexivity|].
  cbn [Re.lit app] in H. rewrite lit_eq in H.
  destruct s as [|d s]; [discriminate|].
  cbn [starts_with]. destruct (Ascii.eqb d c); [|discriminate].
  cbn [andb]. eapply IH; eauto.
Qed.

Lemma search_occurs n r s : Re.search (Re.lit n ++ r)%list s = true -> occurs n s = true.
Proof.
  induction s as [|c s IH]; cbn [Re.search occurs].
  - destruct (Re.match_here _ EmptyString EmptyString) eqn:E; [|discriminate].
    apply match_starts_with in E. now rewrite E.
  - destruct (Re.match_here _ (String c s) EmptyString) eqn:E.
    + apply match_starts_with in E. now rewrite E.
    + intros H. rewrite IH by assumption. apply orb_true_r.
Qed.

(** an inline span *)
Lemma lazy_to_tick y : forall acc rest,
  mem backtick y = false ->
  lazy_scan [Re.Lit backtick] (y ++ "`" ++ rest) acc
  = Some (string_of_list_ascii (rev acc) ++ y, rest).
Proof.
  induction y as [|c y IH]; intros acc rest H.
  - rewrite lazy_scan_eq. cbn. now rewrite str_app_nil_r.
  - cbn [mem] in H. apply orb_false_iff in H. destruct H as [Hc Hy].
    rewrite lazy_scan_eq, app_cons, lit_eq, Hc, IH by assumption.
    cbn [rev]. rewrite string_of_list_app. cbn [string_of_list_ascii].
    now rewrite str_app_assoc.
Qed.

Lemma span_matches sp rest :
  Inline.ok sp = true ->
  Re.match_here inline_span ("`" ++ Inline.body sp ++ "`" ++ rest) EmptyString
  = Some (Inline.body sp, rest).
Proof.
  unfold Inline.ok. intros H. apply andb_true_iff in H. destruct H as [_ H].
  apply negb_true_iff in H.
  change inline_span with [Re.Lit backtick; Re.Group; Re.Lit backtick].
  rewrite lit_eq. cbn [append]. change (Ascii.eqb "`"%char backtick) with true. cbv iota.
  rewrite group_eq. exact (lazy_to_tick _ [] rest H).
Qed.

Lemma sub_spans spans tail :
  forallb Inline.ok spans = true -> (ticks tail <= 1)%nat ->
  Re.sub inline_span (Inline.text spans tail) = Inline.content spans tail.
Proof.
  intros Hs Ht. induction spans as [|sp spans IH]; cbn [Inline.text Inline.content].
  - apply (sub_few_ticks backtick [Re.Group; Re.Lit backtick]). cbn. lia.
  - cbn [forallb] in Hs. apply andb_true_iff in Hs. destruct Hs as [Hok Hs].
    pose proof Hok as Hb. unfold Inline.ok in Hb.
    apply andb_true_iff in Hb. destruct Hb as [Hb _]. apply negb_true_iff in Hb.
    change inline_span with (Re.Lit backtick :: [Re.Group; Re.Lit backtick]).
    rewrite sub_keeps_prefix by assumption. f_equal.
    change (Re.Lit backtick :: [Re.Group; Re.Lit backtick]) with inline_span.
    rewrite (sub_hit _ _ _ _ _ (span_matches sp _ Hok)).
    f_equal. now apply IH.
Qed.

(** C6, as the code has it.  The patterns are tried in the order JSON fence,
    any fence, inline span; the first one that matches somewhere in the text
    is the only one applied, and it is applied to all of its matches: each
    is replaced by what the group captured, and the text outside the matches
    stays, stray back-ticks included.
    - In a text with blocks in JSON fences, every block is replaced by its
      content; the text before, between and after the blocks and the
      back-ticks inside it are kept, although the other two patterns match
      such a text as well.
    - In a text with blocks in fences and no JSON label anywhere, the same
      holds with the second pattern.
    - In a text with inline spans and no fence marker, every span is
      replaced by its content.
    - A text with at most one back-tick is left as it is. *)
Theorem strip_fences_first_match :
  (forall (blocks : list Fenced.block) (tail : string),
      blocks <> [] -> forallb Fenced.ok blocks = true -> has_fence tail = false ->
      strip_fences patterns (Fenced.text "```json" blocks tail)
      = strip (Fenced.content blocks tail))
  /\ (forall (blocks : list Fenced.block) (tail : string),
        blocks <> [] -> forallb Fenced.ok blocks = true -> has_fence tail = false ->
        occurs "```json" (Fenced.text "```" blocks tail) = false ->
        strip_fences patterns (Fenced.text "```" blocks tail)
        = strip (Fenced.content blocks tail))
  /\ (forall (spans : list Inline.span) (tail : string),
        spans <> [] -> forallb Inline.ok spans = true -> (ticks tail <= 1)%nat ->
        has_fence (Inline.text spans tail) = false ->
        strip_fences patterns (Inline.text spans tail)
        = strip (Inline.content spans tail))
  /\ (forall content : string,
        (ticks content <= 1)%nat -> strip_fences patterns content = content).
Proof.
  split; [|split; [|split]].
  - intros blocks tail Hne Hok Htail.
    unfold patterns. cbn [strip_fences].
    assert (Hs : Re.search json_fence (Fenced.text "```json" blocks tail) = true).
    { destruct blocks as [|b blocks]; [contradiction|].
      cbn [forallb] in Hok. apply andb_true_iff in Hok. destruct Hok as [Hb _].
      cbn [Fenced.text]. eapply search_found. now apply json_block_matches. }
    rewrite Hs. now rewrite sub_json_blocks.
  - intros blocks tail Hne Hok Htail Hlabel.
    unfold patterns. cbn [strip_fences].
    assert (Hj : Re.search json_fence (Fenced.text "```" blocks tail) = false).
    { destruct (Re.search json_fence _) eqn:E; [|reflexivity].
      change json_fence
        with (Re.lit "```json"
              ++ [Re.Spaces; Re.Group; Re.Spaces;
                  Re.Lit backtick; Re.Lit backtick; Re.Lit backtick])%list in E.
      apply search_occurs in E. congruence. }
    assert (Hs : Re.search any_fence (Fenced.text "```" blocks tail) = true).
    { destruct blocks as [|b blocks]; [contradiction|].
      cbn [forallb] in Hok. apply andb_true_iff in Hok. destruct Hok as [Hb _].
      cbn [Fenced.text]. eapply search_found. now apply any_block_matches. }
    rewrite Hj, Hs. now rewrite sub_any_blocks.
  - intros spans tail Hne Hok Htail Hnf.
    unfold patterns. cbn [strip_fences].
    assert (Hj : Re.search json_fence (Inline.text spans tail) = false).
    { destruct (Re.search json_fence _) eqn:E; [|reflexivity].
      apply (search_fence (Re.lit "json"
                            ++ [Re.Spaces; Re.Group; Re.Spaces;
                                Re.Lit backtick; Re.Lit backtick; Re.Lit backtick])%list)
        in E. congruence. }
    assert (Ha : Re.search any_fence (Inline.text spans tail) = false).
    { destruct (Re.search any_fence _) eqn:E; [|reflexivity].
      apply (search_fence [Re.Spaces; Re.Group; Re.Spaces;
                           Re.Lit backtick; Re.Lit backtick; Re.Lit backtick]) in E.
      congruence. }
    assert (Hs : Re.search inline_span (Inline.text spans tail) = true).
    { destruct spans as [|sp spans]; [contradiction|].
      cbn [forallb] in Hok. apply andb_true_iff in Hok. destruct Hok as [Hb _].
      cbn [Inline.text]. eapply search_found. now apply span_matches. }
    rewrite Hj, Ha, Hs. now rewrite sub_spans.
  - exact strip_fences_few_ticks.
Qed.

Lemma strip_fences_first_match_witness :
  strip_fences patterns (Fenced.text "```json" two_blocks " end `d`")
  = strip (Fenced.content two_blocks " end `d`")
  /\ Fenced.content two_blocks " end `d`" = "`a` {} and ``b`` [1, `c`] end `d`"
  /\ Re.search any_fence (Fenced.text "```json" two_blocks " end `d`") = true
  /\ Re.search inline_span (Fenced.text "```json" two_blocks " end `d`") = true.
Proof.
  split; [|repeat split; reflexivity].
  apply (proj1 strip_fences_first_match two_blocks " end `d`").
  - discriminate.
  - reflexivity.
  - reflexivity.
Defined.

(** C6 as stated fails: the text has an inline span with a JSON object in
    it and, after it, a JSON fence.  The content of the fence is the second
    object, but the text that goes on to the repair pass still has the span
    and its object in front: with a repair pass that hands its text back,
    extraction fails on it, while it succeeds on the content of the fence
    alone. *)
Lemma fence_content_not_alone :
  Re.first_group json_fence span_and_fence = Some ("{" ++ quoted "y" ++ ": 2}")
  /\ Re.search inline_span span_and_fence = true
  /\ strip_fences patterns (strip span_and_fence)
     = "`{" ++ quoted "x" ++ ": 1}` {" ++ quoted "y" ++ ": 2}"
  /\ clean_invalid_json_chars repair_identity span_and_fence = inl UnrepairableContent
  /\ clean_invalid_json_chars repair_identity ("{" ++ quoted "y" ++ ": 2}")
     = inr ("{" ++ quoted "y" ++ ": 2}")
  /\ ~ (forall content g,
          Re.first_group json_fence content = Some g ->
          Re.search inline_span content = true ->
          strip_fences patterns (strip content) = g).
Proof.
  split; [reflexivity|]. split; [reflexivity|]. split; [reflexivity|].
  split; [reflexivity|]. split; [reflexivity|].
  intros H. specialize (H span_and_fence _ eq_refl eq_refl). discriminate.
Qed.

(** ** Extraction on strict JSON *)




(** * Further properties of the code *)

(** ** Stripping twice *)

Lemma lstrip_fixed s :
  match s with EmptyString => True | String c _ => isspace c = false end ->
  lstrip s = s.
Proof. destruct s as [|c s]; simpl; auto. now intros ->. Qed.

Lemma lstrip_head_nonspace s :
  match lstrip s with EmptyString => True | String c _ => isspace c = false end.
Proof.
  induction s as [|c s IH]; simpl; auto.
  destruct (isspace c) eqn:E; auto.
Qed.

Lemma rstrip_head c s :
  isspace c = false -> exists r, rstrip (String c s) = String c r.
Proof.
  intros H. simpl. destruct (rstrip s) as [|d r].
  - rewrite H. exists EmptyString. reflexivity.
  - eexists. reflexivity.
Qed.

Lemma rstrip_idem s : rstrip (rstrip s) = rstrip s.
Proof.
  induction s as [|c s IH]; simpl; auto.
  destruct (rstrip s) as [|d r] eqn:E.
  - destruct (isspace c) eqn:Hc; simpl; auto. now rewrite Hc.
  - cbn [rstrip]. cbn [rstrip] in IH. rewrite IH. reflexivity.
Qed.

Lemma strip_idem s : strip (strip s) = strip s.
Proof.
  unfold strip. pose proof (lstrip_head_nonspace s) as H.
  destruct (lstrip s) as [|c t] eqn:E; [reflexivity|].
  destruct (rstrip_head c t H) as [r Hr]. rewrite Hr.
  rewrite lstrip_fixed by exact H. rewrite <- Hr. apply rstrip_idem.
Qed.

Lemma mem_replace_gone old new s :
  mem old new = false -> mem old (replace old new s) = false.
Proof.
  intros H. induction s as [|c s IH]; simpl; auto.
  destruct (Ascii.eqb c old) eqn:E.
  - now rewrite mem_app, H, IH.
  - simpl. now rewrite E, IH.
Qed.

(** ** Values of a normalized record *)

Lemma flatten_value_settled v : settled (flatten_value v).
Proof.
  assert (H : forall t, settled (strip (replace newline " " t))).
  { intros t. split; [|apply strip_idem].
    apply mem_strip, mem_replace_gone. reflexivity. }
  destruct v; apply H.
Qed.

Lemma settled_flatten x : settled x -> flatten_value (PyStr x) = x.
Proof.
  intros [Hnl Hstrip]. unfold flatten_value, py_str.
  now rewrite replace_absent.
Qed.

Lemma settled_values_set r k x :
  settled_values r -> settled x -> settled_values (dict_set r k x).
Proof.
  intros Hr Hx k' x' Hget. destruct (string_dec k k') as [->|Hne].
  - rewrite dict_get_set_eq in Hget. now inversion Hget; subst.
  - rewrite dict_get_set_ne in Hget by assumption. eauto.
Qed.

Lemma map_items_settled items : forall acc,
  settled_values acc -> settled_values (map_items items acc).
Proof.
  induction items as [|[k v] items IH]; intros acc Hacc; simpl; auto.
  destruct (model_key k); auto.
  apply IH, settled_values_set; auto using flatten_value_settled.
Qed.

Lemma fill_missing_settled fields : forall acc,
  settled_values acc -> settled_values (fill_missing fields acc).
Proof.
  induction fields as [|f fields IH]; intros acc Hacc; simpl; auto.
  destruct (dict_mem acc f); auto.
  apply IH, settled_values_set; auto. split; reflexivity.
Qed.

Lemma normalized_settled v r :
  normalize_ai_response v = inr r -> settled_values r.
Proof.
  destruct v as [| | | | | |d]; try discriminate. intros H.
  assert (Hr : r = fill_missing required_fields (map_items d []))
    by (unfold normalize_ai_response in H; congruence).
  rewrite Hr.
  apply fill_missing_settled, map_items_settled. intros k x Hk. discriminate.
Qed.

(** X2. In a record that [normalize_ai_response] returns no text has a line
    feed in it and no text starts or ends with white space. *)
Theorem normalized_values_are_trimmed :
  forall (ai_response : pyval) (r : record) (k x : string),
    normalize_ai_response ai_response = inr r ->
    dict_get r k = Some x ->
    mem newline x = false /\ strip x = x.
Proof.
  intros ai_response r k x Hn Hget. exact (normalized_settled _ _ Hn k x Hget).
Qed.

Lemma normalized_values_are_trimmed_witness :
  exists r : record,
    normalize_ai_response
      (PyDict [("homework", PyStr ("  read" ++ chr newline ++ "chapter 2  "))]) = inr r
    /\ dict_get r "homework" = Some "read chapter 2"
    /\ mem newline "read chapter 2" = false /\ strip "read chapter 2" = "read chapter 2".
Proof.
  eexists. split; [vm_compute; reflexivity|]. split; [reflexivity|].
  eapply (normalized_values_are_trimmed
            (PyDict [("homework", PyStr ("  read" ++ chr newline ++ "chapter 2  "))])
            _ "homework" "read chapter 2");
    [vm_compute; reflexivity | reflexivity].
Defined.

(** ** Normalizing a normalized record *)

Lemma model_key_canonical f : In f required_fields -> model_key f = Some f.
Proof.
  simpl. intros H.
  repeat (destruct H as [<-|H]; [reflexivity|]). contradiction.
Qed.

Lemma dict_set_fresh {V : Type} (d : list (string * V)) k v :
  ~ In k (dict_keys d) -> dict_set d k v = (d ++ [(k, v)])%list.
Proof.
  induction d as [|[k' v'] d IH]; simpl; intros H; auto.
  destruct (String.eqb k' k) eqn:E.
  - apply String.eqb_eq in E. subst. tauto.
  - rewrite IH; tauto.
Qed.

Lemma In_dict_get {V : Type} (d : list (string * V)) k v :
  NoDup (dict_keys d) -> In (k, v) d -> dict_get d k = Some v.
Proof.
  induction d as [|[k' v'] d IH]; simpl; intros Hnd Hin; [contradiction|].
  inversion Hnd as [|? ? Hnotin Hnd']; subst.
  destruct Hin as [Heq|Hin].
  - inversion Heq; subst. now rewrite String.eqb_refl.
  - destruct (String.eqb k' k) eqn:E; [|auto].
    apply String.eqb_eq in E. subst. exfalso. apply Hnotin.
    now apply (in_map fst) in Hin.
Qed.

Lemma map_items_record (r : record) : forall acc : record,
  NoDup (dict_keys r) ->
  (forall k, In k (dict_keys r) -> In k required_fields) ->
  Forall (fun kv => settled (snd kv)) r ->
  (forall k, In k (dict_keys r) -> ~ In k (dict_keys acc)) ->
  map_items (map (fun kv => (fst kv, PyStr (snd kv))) r) acc = (acc ++ r)%list.
Proof.
  induction r as [|[k x] r IH]; intros acc Hnd Hkeys Hset Hfresh;
    cbn [map map_items fst snd].
  - now rewrite app_nil_r.
  - inversion Hnd as [|? ? Hnotin Hnd']; subst.
    inversion Hset as [|? ? Hx Hset']; subst. cbn [snd] in Hx.
    rewrite model_key_canonical by (apply Hkeys; now left).
    rewrite settled_flatten by assumption.
    rewrite dict_set_fresh by (apply Hfresh; now left).
    rewrite IH; auto.
    + now rewrite <- app_assoc.
    + intros k' Hk'. apply Hkeys. now right.
    + intros k' Hk' Hin. unfold dict_keys in Hin. rewrite map_app in Hin.
      apply in_app_or in Hin. destruct Hin as [Hin|[<-|[]]].
      * apply (Hfresh k'); [now right | assumption].
      * contradiction.
Qed.

Lemma fill_missing_present fields (r : record) :
  (forall f, In f fields -> In f (dict_keys r)) -> fill_missing fields r = r.
Proof.
  induction fields as [|f fields IH]; intros H; simpl; auto.
  rewrite (proj2 (dict_mem_In r f)) by (apply H; now left).
  apply IH. intros g Hg. apply H. now right.
Qed.

Lemma settled_values_Forall (r : record) :
  NoDup (dict_keys r) -> settled_values r -> Forall (fun kv => settled (snd kv)) r.
Proof.
  intros Hnd Hset. apply Forall_forall. intros [k x] Hin.
  apply (Hset k x). now apply In_dict_get.
Qed.

Lemma normalized_again (ai_response : pyval) (r : record) :
  normalize_ai_response ai_response = inr r ->
  normalize_ai_response (record_value r) = inr r.
Proof.
  intros Hn.
  pose proof (normalized_settled _ _ Hn) as Hset.
  destruct ai_response as [| | | | | |items]; try discriminate.
  assert (Hr : r = fill_missing required_fields (map_items items []))
    by (unfold normalize_ai_response in Hn; congruence).
  assert (Hnd : NoDup (dict_keys r)) by (rewrite Hr; apply normalized_NoDup).
  assert (Hkeys : forall k, In k (dict_keys r) <-> In k required_fields)
    by (intros k; rewrite Hr; apply normalized_keys).
  unfold normalize_ai_response, record_value. f_equal.
  rewrite map_items_record; auto using settled_values_Forall.
  - rewrite app_nil_l. apply fill_missing_present. intros f Hf. now apply Hkeys.
  - intros k Hk. now apply Hkeys.
Qed.

(** X1. Normalizing is idempotent: the record that [normalize_ai_response]
    returns, handed to it again (as the view does with the result of
    [generate_lesson_plan]), comes back unchanged, in the same order. *)
Theorem normalize_ai_response_idempotent :
  forall (ai_response : pyval) (r : record),
    normalize_ai_response ai_response = inr r ->
    normalize_ai_response (record_value r) = inr r.
Proof. exact normalized_again. Qed.

Lemma normalize_ai_response_idempotent_witness :
  exists r : record,
    normalize_ai_response
      (PyDict [("Assignment", PyList [PyInt 1; PyInt 2]); ("recap", PyStr " sum up ")])
    = inr r
    /\ normalize_ai_response (record_value r) = inr r.
Proof.
  eexists. split; [vm_compute; reflexivity|].
  eapply (normalize_ai_response_idempotent
            (PyDict [("Assignment", PyList [PyInt 1; PyInt 2]); ("recap", PyStr " sum up ")])).
  vm_compute. reflexivity.
Defined.

(** ** Keys in another letter case *)

Lemma lower_char_idem c : lower_char (lower_char c) = lower_char c.
Proof. destruct c as [[] [] [] [] [] [] [] []]; reflexivity. Qed.

Lemma lower_idem s : lower (lower s) = lower s.
Proof. induction s as [|c s IH]; simpl; auto. now rewrite lower_char_idem, IH. Qed.

Lemma map_items_same_lower (g : string -> string) items :
  (forall k, lower (g k) = lower k) ->
  forall acc,
    map_items (map (fun kv => (g (fst kv), snd kv)) items) acc = map_items items acc.
Proof.
  intros Hg. induction items as [|[k v] items IH]; intros acc; simpl; auto.
  unfold model_key. rewrite Hg.
  destruct (dict_get key_map (lower k)) as [[|c m]|]; apply IH.
Qed.

(** X4. Keys are matched without regard to letter case: renaming the keys of
    a mapping in a way that keeps their lower-case form, such as writing
    them all in lower case, does not change the normalized record. *)
Theorem normalize_ignores_letter_case :
  forall (g : string -> string) (items : list (string * pyval)),
    (forall k, lower (g k) = lower k) ->
    normalize_ai_response (PyDict (map (fun kv => (g (fst kv), snd kv)) items))
    = normalize_ai_response (PyDict items).
Proof.
  intros g items Hg. unfold normalize_ai_response.
  now rewrite map_items_same_lower.
Qed.

Lemma normalize_ignores_letter_case_witness :
  (forall k, lower (lower k) = lower k)
  /\ normalize_ai_response (PyDict (lower_keys [("HomeWork", PyStr "read"); ("Recap", PyNone)]))
     = normalize_ai_response (PyDict [("HomeWork", PyStr "read"); ("Recap", PyNone)]).
Proof.
  split; [exact lower_idem|].
  exact (normalize_ignores_letter_case lower
           [("HomeWork", PyStr "read"); ("Recap", PyNone)] lower_idem).
Defined.

(** ** A field that the answer lacks *)

Lemma field_min_positive f mn mx : field_bounds f = Some (mn, mx) -> (0 < mn)%nat.
Proof.
  intros Hb. destruct (field_bounds_property _ _ _ Hb) as [sub Hin].
  simpl in Hin.
  repeat (destruct Hin as [Hin|Hin];
          [inversion Hin; subst; vm_compute in Hb; inversion Hb; lia|]).
  contradiction.
Qed.

(** X3. A mapping in which no key maps to some canonical field cannot pass:
    the normalizer fills the field with the empty text and the validation
    against [SCHEMA] then raises; and no record that an attempt returns has
    the empty text in that field. *)
Theorem missing_field_is_rejected :
  forall (items : list (string * pyval)) (f : string),
    In f required_fields ->
    (forall k v, In (k, v) items -> model_key k <> Some f) ->
    (exists (r : record) (errors : list violation),
        normalize_ai_response (PyDict items) = inr r
        /\ dict_get r f = Some EmptyString
        /\ validate (record_value r) SCHEMA = inl (SchemaViolation errors))
    /\ (forall (repair_json : string -> option string) (content : string) (r : record),
          process repair_json content = inr r -> dict_get r f <> Some EmptyString).
Proof.
  intros items f Hf Hno.
  assert (Hsub : exists sub, In (f, sub) (properties_of SCHEMA)).
  { rewrite <- properties_names in Hf. apply in_map_iff in Hf.
    destruct Hf as [[f' sub] [Heq Hin]]. simpl in Heq. subst. eauto. }
  destruct Hsub as [sub Hin].
  destruct (SCHEMA_properties _ _ Hin) as (ts & mn & mx & _ & _ & _ & Hb & _).
  pose proof (field_min_positive _ _ _ Hb) as Hpos.
  split.
  - set (r := fill_missing required_fields (map_items items [])).
    assert (Hget : dict_get r f = Some EmptyString).
    { unfold r. rewrite fill_missing_get, map_items_other by assumption. simpl dict_get.
      replace (existsb (String.eqb f) required_fields) with true; auto.
      symmetry. apply existsb_exists. exists f.
      split; [assumption | apply String.eqb_refl]. }
    assert (Herr : In ([f], KMinLength) (iter_errors SCHEMA [] (record_value r))).
    { rewrite iter_errors_record. apply in_or_app. right. apply in_or_app. left.
      apply in_flat_map. exists (f, sub). split; [assumption|].
      rewrite (property_errors_bounds r f sub EmptyString mn mx) by assumption.
      unfold length_errors, check_minLength. simpl String.length.
      destruct (Nat.ltb_spec 0 mn); [|lia]. now left. }
    exists r. unfold validate.
    destruct (iter_errors SCHEMA [] (record_value r)) as [|e errors] eqn:E; [contradiction|].
    exists (e :: errors). repeat split; auto.
  - intros repair_json content r Hr Hempty.
    apply process_valid in Hr. destruct Hr as (_ & _ & Hbounds).
    specialize (Hbounds f EmptyString mn mx Hempty Hb). simpl in Hbounds. lia.
Qed.

Lemma missing_field_is_rejected_witness :
  In "homework" required_fields
  /\ (exists (r : record) (errors : list violation),
        normalize_ai_response (PyDict [("objective", PyStr "Pupils name the planets.")])
        = inr r
        /\ dict_get r "homework" = Some EmptyString
        /\ validate (record_value r) SCHEMA = inl (SchemaViolation errors))
  /\ (forall (repair_json : string -> option string) (content : string) (r : record),
        process repair_json content = inr r ->
        dict_get r "homework" <> Some EmptyString).
Proof.
  split; [simpl; tauto|].
  apply (missing_field_is_rejected [("objective", PyStr "Pupils name the planets.")] "homework").
  - simpl. tauto.
  - intros k v [H|[]]. inversion H; subst. vm_compute. discriminate.
Defined.

(** ** More on the validator *)

(** X5. For a record with distinct keys, [validate] against [SCHEMA] passes
    exactly when the keys are the ten canonical ones and every text is
    within the bounds of its field. *)
Theorem validate_accepts_exactly :
  forall r : record,
    NoDup (dict_keys r) ->
    (validate (record_value r) SCHEMA = inr tt <-> schema_ok r).
Proof. intros r Hnd. now apply validate_iff. Qed.

Lemma validate_accepts_exactly_witness :
  NoDup (dict_keys (filled_record 50))
  /\ (validate (record_value (filled_record 50)) SCHEMA = inr tt
      <-> schema_ok (filled_record 50)).
Proof.
  split; [apply required_fields_NoDup|].
  apply (validate_accepts_exactly (filled_record 50)). apply required_fields_NoDup.
Defined.

Lemma errors_of_changed_field (r : record) f mn mx s :
  schema_ok r -> field_bounds f = Some (mn, mx) ->
  iter_errors SCHEMA [] (record_value (dict_set r f s)) = length_errors [f] mn mx s.
Proof.
  intros (Hnd & Hkeys & Hbounds) Hb.
  destruct (field_bounds_property _ _ _ Hb) as [sub Hin].
  destruct (SCHEMA_properties _ _ Hin) as (_ & _ & _ & _ & _ & _ & _ & Hf).
  rewrite iter_errors_record.
  rewrite (proj2 (required_nil _)), (proj2 (additional_nil _)).
  - rewrite app_nil_r, app_nil_l.
    rewrite (flat_map_only _ _ f sub).
    + apply property_errors_bounds; auto using dict_get_set_eq.
    + rewrite properties_names. apply required_fields_NoDup.
    + assumption.
    + intros p x Hpx Hne.
      destruct (SCHEMA_properties _ _ Hpx) as (_ & mn' & mx' & _ & _ & _ & Hb' & Hp).
      apply Hkeys, dict_get_In_keys in Hp.
      destruct (dict_get r p) as [v|] eqn:Hget; [|congruence].
      rewrite (property_errors_bounds _ p x v mn' mx'); auto.
      * apply length_errors_nil. eauto.
      * rewrite dict_get_set_ne; auto.
  - intros k. rewrite dict_keys_set, Hkeys. intros [->|]; auto.
  - intros k Hk. apply dict_keys_set. right. now apply Hkeys.
Qed.

(** X6. In a valid record, a canonical field whose text is replaced by one
    shorter than the minimum gives exactly one error, the [minLength] of
    that field, and by one longer than the maximum exactly one error, its
    [maxLength]. *)
Theorem validator_reports_the_bound :
  forall (r : record) (f : string) (mn mx : nat) (s : string),
    schema_ok r -> field_bounds f = Some (mn, mx) ->
    ((String.length s < mn)%nat ->
       validate (record_value (dict_set r f s)) SCHEMA
       = inl (SchemaViolation [([f], KMinLength)]))
    /\ ((mx < String.length s)%nat ->
       validate (record_value (dict_set r f s)) SCHEMA
       = inl (SchemaViolation [([f], KMaxLength)])).
Proof.
  intros r f mn mx s Hok Hb.
  destruct (field_bounds_property _ _ _ Hb) as [sub Hin].
  destruct (SCHEMA_properties _ _ Hin) as (_ & mn' & mx' & _ & _ & Hle & Hb' & _).
  rewrite Hb in Hb'. inversion Hb'; subst mn' mx'.
  unfold validate. rewrite (errors_of_changed_field r f mn mx s Hok Hb).
  unfold length_errors, check_minLength, check_maxLength.
  split; intros Hlen.
  - destruct (Nat.ltb_spec (String.length s) mn); [|lia].
    destruct (Nat.ltb_spec mx (String.length s)); [lia|]. reflexivity.
  - destruct (Nat.ltb_spec (String.length s) mn); [lia|].
    destruct (Nat.ltb_spec mx (String.length s)); [|lia]. reflexivity.
Qed.

Lemma validator_reports_the_bound_witness :
  schema_ok (filled_record 50) /\ field_bounds "homework" = Some (5%nat, 1000%nat)
  /\ ((String.length (repeat_char "x" 1001) < 5)%nat ->
        validate (record_value (dict_set (filled_record 50) "homework"
                                  (repeat_char "x" 1001))) SCHEMA
        = inl (SchemaViolation [(["homework"], KMinLength)]))
  /\ ((1000 < String.length (repeat_char "x" 1001))%nat ->
        validate (record_value (dict_set (filled_record 50) "homework"
                                  (repeat_char "x" 1001))) SCHEMA
        = inl (SchemaViolation [(["homework"], KMaxLength)])).
Proof.
  split; [exact filled_record_ok|]. split; [reflexivity|].
  apply (validator_reports_the_bound (filled_record 50) "homework" 5 1000
           (repeat_char "x" 1001)).
  - exact filled_record_ok.
  - reflexivity.
Defined.

(** X7. A valid record to which a key outside the ten canonical ones is
    added is rejected with exactly one error: the additional property, named
    in the error. *)
Theorem validator_rejects_extra_key :
  forall (r : record) (k s : string),
    schema_ok r -> ~ In k required_fields ->
    validate (record_value (dict_set r k s)) SCHEMA
    = inl (SchemaViolation [([], KAdditionalProperties [k])]).
Proof.
  intros r k s (Hnd & Hkeys & Hbounds) Hk.
  assert (Hfresh : ~ In k (dict_keys r)) by (intros H; apply Hk; now apply Hkeys).
  rewrite (dict_set_fresh r k s Hfresh).
  unfold validate. rewrite iter_errors_record.
  rewrite (proj2 (required_nil _)).
  - replace (flat_map (property_errors (r ++ [(k, s)])%list) (properties_of SCHEMA))
      with (@nil violation).
    + rewrite !app_nil_l. unfold check_additional, record_value.
      rewrite record_value_keys. unfold dict_keys. rewrite map_app, filter_app.
      replace (filter _ (map fst r)) with (@nil string).
      * assert (Hex : existsb (String.eqb k) required_fields = false).
        { apply not_true_is_false. intros H. apply existsb_exists in H.
          destruct H as [x [Hx Heq]]. apply String.eqb_eq in Heq. now subst. }
        cbn [map fst filter app]. rewrite Hex. reflexivity.
      * symmetry. apply filter_nil. intros x Hx.
        apply negb_false_iff, existsb_exists. exists x.
        split; [now apply Hkeys | apply String.eqb_refl].
    + symmetry. apply flat_map_nil. intros [p sub] Hin.
      destruct (SCHEMA_properties _ _ Hin) as (_ & mn & mx & _ & _ & _ & Hb & Hp).
      assert (Hne : k <> p) by (intros ->; contradiction).
      pose proof Hp as Hp'. apply Hkeys, dict_get_In_keys in Hp'.
      destruct (dict_get r p) as [v|] eqn:Hget; [|congruence].
      rewrite (property_errors_bounds _ p sub v mn mx); auto.
      * apply length_errors_nil. eauto.
      * rewrite <- (dict_set_fresh r k s Hfresh). now rewrite dict_get_set_ne.
  - intros f Hf. unfold dict_keys. rewrite map_app. apply in_or_app. left.
    now apply Hkeys.
Qed.

Lemma validator_rejects_extra_key_witness :
  schema_ok (filled_record 50) /\ ~ In "notes" required_fields
  /\ validate (record_value (dict_set (filled_record 50) "notes" "bring chalk")) SCHEMA
     = inl (SchemaViolation [([], KAdditionalProperties ["notes"])]).
Proof.
  assert (Hk : ~ In "notes" required_fields)
    by (simpl; intros H; repeat (destruct H as [H|H]; [discriminate H|]); exact H).
  split; [exact filled_record_ok|]. split; [exact Hk|].
  exact (validator_rejects_extra_key (filled_record 50) "notes" "bring chalk"
           filled_record_ok Hk).
Defined.

(** ** More on the retry loop *)

(** X8. With [max_retries] zero or negative the loop body never runs: the
    model is not invoked, nothing is slept, and the final error is raised
    with no cause. *)
Theorem no_retries_no_invocation :
  forall (chat : chat_service) (repair_json : string -> option string)
         (prompt : string) (config : option LessonPlanConfig),
    max_retries (effective config) <= 0 ->
    generate_lesson_plan chat repair_json prompt config
    = ([], inl (GenerationExhausted (max_retries (effective config)) None)).
Proof.
  intros chat repair_json prompt config H. unfold generate_lesson_plan. cbv zeta.
  replace (Z.to_nat (max_retries (effective config))) with 0%nat by lia.
  reflexivity.
Qed.

Lemma no_retries_no_invocation_witness :
  max_retries (effective (Some {| model_name := "m"; max_retries := 0; timeout := 1;
                                  temperature := S754_zero false |})) <= 0
  /\ generate_lesson_plan good_chat repair_identity "plan"
       (Some {| model_name := "m"; max_retries := 0; timeout := 1;
                temperature := S754_zero false |})
     = ([], inl (GenerationExhausted 0 None)).
Proof.
  split; [simpl; lia|].
  apply (no_retries_no_invocation good_chat repair_identity "plan"
           (Some {| model_name := "m"; max_retries := 0; timeout := 1;
                    temperature := S754_zero false |})).
  simpl. lia.
Defined.

Lemma total_sleep_app a b : total_sleep (a ++ b) = total_sleep a + total_sleep b.
Proof.
  induction a as [|[n|z] a IH]; simpl; auto. rewrite IH. lia.
Qed.

Lemma total_sleep_doubling count : forall from,
  total_sleep (flat_map (fun n => [Invoke n; Sleep (2 ^ Z.of_nat n)]) (seq from count))
  = 2 ^ Z.of_nat from * (2 ^ Z.of_nat count - 1).
Proof.
  induction count as [|count IH]; intros from.
  - simpl. lia.
  - cbn [seq flat_map app total_sleep]. rewrite IH.
    rewrite !Nat2Z.inj_succ, !Z.pow_succ_r by lia. lia.
Qed.

Lemma failed_attempts_last config j :
  max_retries config = Z.of_nat (S j) ->
  failed_attempts config 0 (S j)
  = (flat_map (fun n => [Invoke n; Sleep (2 ^ Z.of_nat n)]) (seq 0 j) ++ [Invoke j])%list.
Proof.
  intros Hmax. unfold failed_attempts at 1. rewrite seq_S, flat_map_app.
  fold (failed_attempts config 0 j).
  rewrite failed_attempts_sleep by (rewrite Hmax; lia).
  cbn [flat_map Nat.add]. unfold backoff. rewrite app_nil_r.
  destruct (Z.ltb_spec (Z.of_nat j) (max_retries config - 1)); [lia | reflexivity].
Qed.

Lemma run_bounds (chat : chat_service) (repair_json : string -> option string)
  (prompt : string) (config : option LessonPlanConfig) :
  (invocations (fst (generate_lesson_plan chat repair_json prompt config))
   <= Z.to_nat (max_retries (effective config)))%nat
  /\ total_sleep (fst (generate_lesson_plan chat repair_json prompt config))
     = match invocations (fst (generate_lesson_plan chat repair_json prompt config)) with
       | O => 0
       | S j => 2 ^ Z.of_nat j - 1
       end.
Proof.
  unfold generate_lesson_plan. cbv zeta.
  set (cfg := effective config). set (total := Z.to_nat (max_retries cfg)).
  assert (Hstop : forall k (res : result record), (k < total)%nat ->
            let trace := fst ((failed_attempts cfg 0 k ++ [Invoke (0 + k)%nat])%list, res) in
            (invocations trace <= total)%nat
            /\ total_sleep trace
               = match invocations trace with
                 | O => 0
                 | S j => 2 ^ Z.of_nat j - 1
                 end).
  { intros k res Hk. cbn [fst].
    assert (Hinv : invocations (failed_attempts cfg 0 k ++ [Invoke (0 + k)%nat]) = S k).
    { rewrite invocations_app, invocations_failed.
      change (invocations [Invoke (0 + k)]) with 1%nat. lia. }
    rewrite Hinv. split; [lia|].
    rewrite failed_attempts_sleep by (rewrite Nat.add_0_l; lia).
    rewrite total_sleep_app, total_sleep_doubling. simpl total_sleep.
    change (Z.of_nat 0) with 0. lia. }
  destruct (run_result chat repair_json prompt cfg total 0 None Locals.unbound [])
    as [(k & r & Hk & _ & _ & Hrun)|[(k & e & raised & Hk & _ & _ & _ & Hrun)
                                    |(_ & cause & Hrun & _)]];
    rewrite Hrun; cbn [app].
  - now apply Hstop.
  - now apply Hstop.
  - cbn [fst]. rewrite invocations_failed.
    split; [lia|].
    destruct total as [|j] eqn:Ht; [reflexivity|].
    rewrite failed_attempts_last by (unfold total in Ht; lia).
    rewrite total_sleep_app, total_sleep_doubling. simpl total_sleep.
    change (Z.of_nat 0) with 0. lia.
Qed.

(** X9. Whatever the model answers, a run invokes it at most [max_retries]
    times, and the time slept is fixed by the number of invocations: none
    for at most one invocation, and [2^(n-1) - 1] seconds for [n]. *)
Theorem run_is_bounded :
  forall (chat : chat_service) (repair_json : string -> option string)
         (prompt : string) (config : option LessonPlanConfig),
    let trace := fst (generate_lesson_plan chat repair_json prompt config) in
    (invocations trace <= Z.to_nat (max_retries (effective config)))%nat
    /\ total_sleep trace
       = match invocations trace with
         | O => 0
         | S j => 2 ^ Z.of_nat j - 1
         end.
Proof. intros chat repair_json prompt config. apply run_bounds. Qed.

(** ** More on the extraction *)

(** X10. What [clean_invalid_json_chars] returns is accepted by
    [json.loads] and has no white space at its ends; so the [json.loads]
    that follows the call in [generate_lesson_plan] does not raise, and the
    body after the model has answered never fails with [JSONDecodeError].
    The first handler is entered only with a [json.JSONDecodeError] that
    the model call itself raised. *)
Theorem cleaned_text_always_parses :
  forall (repair_json : string -> option string) (content : string),
    (forall out, clean_invalid_json_chars repair_json content = inr out ->
       (exists v, Json.loads out = Some v) /\ strip out = out)
    /\ process repair_json content <> inl JSONDecodeError
    /\ (forall (chat : chat_service) (prompt : string) (config : LessonPlanConfig)
               (n : nat) (e : exn),
          outcome chat repair_json prompt config n = inl e ->
          clause_of e = OnJSONDecodeError ->
          e = ModelCallError ModelJSONDecodeError).
Proof.
  intros repair_json content.
  assert (Hbody : forall text e, process repair_json text = inl e ->
                    clause_of e <> OnJSONDecodeError).
  { intros text e He.
    destruct (process_error repair_json text e Locals.unbound He) as [->|[Hlocal _]].
    - discriminate.
    - destruct e; try contradiction; discriminate. }
  split; [|split].
  - unfold clean_invalid_json_chars. intros out.
    destruct (repair_json _) as [cleaned|]; [|discriminate].
    destruct (Json.loads cleaned) as [v|] eqn:Hv; [|discriminate].
    intros [= <-]. split; [exists v; now apply loads_strip | apply strip_idem].
  - intros H. apply Hbody in H. now apply H.
  - intros chat prompt config n e. unfold outcome, attempt_once.
    destruct (chat _ _ _ _ n) as [m|text].
    + intros [= <-]. destruct m; [discriminate | reflexivity | discriminate].
    + intros He Hc. apply Hbody in He. contradiction.
Qed.

Lemma lstrip_space_only b : all_space b = true -> lstrip b = EmptyString.
Proof.
  induction b as [|c b IH]; simpl; auto.
  intros H. apply andb_true_iff in H. destruct H as [Hc Hb]. rewrite Hc. auto.
Qed.

Lemma lstrip_padded a s : all_space a = true -> lstrip (a ++ s) = lstrip s.
Proof.
  induction a as [|c a IH]; simpl; auto.
  intros H. apply andb_true_iff in H. destruct H as [Hc Ha]. rewrite Hc. auto.
Qed.

Lemma rstrip_space_only b : all_space b = true -> rstrip b = EmptyString.
Proof.
  induction b as [|c b IH]; simpl; auto.
  intros H. apply andb_true_iff in H. destruct H as [Hc Hb].
  now rewrite IH, Hc.
Qed.

Lemma rstrip_padded s b : all_space b = true -> rstrip (s ++ b) = rstrip s.
Proof.
  intros Hb. induction s as [|c s IH]; simpl.
  - now apply rstrip_space_only.
  - now rewrite IH.
Qed.

Lemma strip_padded a s b :
  all_space a = true -> all_space b = true -> strip (a ++ s ++ b) = strip s.
Proof.
  intros Ha Hb. unfold strip. rewrite lstrip_padded by assumption.
  induction s as [|c s IH]; simpl.
  - now rewrite lstrip_space_only.
  - destruct (isspace c); [exact IH|].
    change (String c (s ++ b)) with (String c s ++ b).
    now apply rstrip_padded.
Qed.

(** X11. White space around the answer of the model never changes the
    outcome of an attempt: the length test, the fence patterns and the
    repair pass all see the stripped text. *)
Theorem padding_is_ignored :
  forall (repair_json : string -> option string) (a content b : string),
    all_space a = true -> all_space b = true ->
    clean_invalid_json_chars repair_json (a ++ content ++ b)
    = clean_invalid_json_chars repair_json content
    /\ process repair_json (a ++ content ++ b) = process repair_json content.
Proof.
  intros repair_json a content b Ha Hb.
  assert (Hclean : clean_invalid_json_chars repair_json (a ++ content ++ b)
                   = clean_invalid_json_chars repair_json content).
  { unfold clean_invalid_json_chars. now rewrite strip_padded. }
  split; [exact Hclean|].
  unfold process. rewrite Hclean, strip_padded by assumption.
  destruct (Nat.ltb (String.length (strip content)) 50) eqn:Hlen.
  - now rewrite !orb_true_r.
  - rewrite !orb_false_r.
    assert (Hc : content <> EmptyString) by (intros ->; discriminate Hlen).
    replace (String.eqb content EmptyString) with false
      by (symmetry; now apply String.eqb_neq).
    replace (String.eqb (a ++ content ++ b) EmptyString) with false; [reflexivity|].
    symmetry. apply String.eqb_neq. intros H.
    destruct a; [|discriminate]. destruct content; [congruence | discriminate].
Qed.

Lemma padding_is_ignored_witness :
  all_space "  " = true /\ all_space (chr newline) = true
  /\ clean_invalid_json_chars repair_identity ("  " ++ plain_json ++ chr newline)
     = clean_invalid_json_chars repair_identity plain_json
  /\ process repair_identity ("  " ++ plain_json ++ chr newline)
     = process repair_identity plain_json.
Proof.
  split; [reflexivity|]. split; [reflexivity|].
  apply (padding_is_ignored repair_identity "  " plain_json (chr newline)); reflexivity.
Defined.

(** ** Fence stripping only takes characters away *)

Lemma string_of_list_length l : String.length (string_of_list_ascii l) = List.length l.
Proof. induction l as [|c l IH]; simpl; auto. Qed.

Lemma match_here_lengths p : forall s g g' rest,
  Re.match_here p s g = Some (g', rest) ->
  (String.length g' + String.length rest <= String.length g + String.length s)%nat.
Proof.
  induction p as [|it p IH]; intros s g g' rest H.
  - inversion H; subst. lia.
  - destruct it.
    + destruct s as [|d s]; [discriminate|]. simpl in H.
      destruct (Ascii.eqb d c); [|discriminate].
      apply IH in H. simpl. lia.
    + cbn [Re.match_here] in H. revert H.
      induction s as [|d s IHs]; intros H.
      * now apply IH in H.
      * destruct (isspace d).
        -- match type of H with
           | match ?m with _ => _ end = _ => destruct m as [[g1 r1]|]
           end.
           ++ specialize (IHs H). simpl. lia.
           ++ now apply IH in H.
        -- now apply IH in H.
    + cbn [Re.match_here] in H.
      assert (Hgen : forall (acc : list ascii) (t : string),
                (fix lazy (s0 : string) (acc0 : list ascii) {struct s0}
                   : option (string * string) :=
                   match Re.match_here p s0 (string_of_list_ascii (rev acc0)) with
                   | Some m => Some m
                   | None =>
                       match s0 with
                       | EmptyString => None
                       | String d s' => lazy s' (d :: acc0)
                       end
                   end) t acc = Some (g', rest) ->
                (String.length g' + String.length rest
                 <= List.length acc + String.length t)%nat).
      { intros acc t. revert acc.
        induction t as [|d t IHt]; intros acc Ht.
        - destruct (Re.match_here p EmptyString _) as [[g1 r1]|] eqn:Hm; [|discriminate].
          inversion Ht; subst. apply IH in Hm.
          rewrite string_of_list_length, length_rev in Hm. exact Hm.
        - destruct (Re.match_here p (String d t) _) as [[g1 r1]|] eqn:Hm.
          + inversion Ht; subst. apply IH in Hm.
            rewrite string_of_list_length, length_rev in Hm. exact Hm.
          + specialize (IHt _ Ht). simpl in *. lia. }
      apply Hgen in H. simpl in H. lia.
Qed.

Lemma append_length a b : String.length (a ++ b) = (String.length a + String.length b)%nat.
Proof. induction a as [|c a IH]; simpl; auto. Qed.

Lemma sub_from_length p : forall fuel s,
  (String.length (Re.sub_from fuel p s) <= String.length s)%nat.
Proof.
  induction fuel as [|fuel IH]; intros s; simpl; auto.
  destruct (Re.match_here p s EmptyString) as [[g rest]|] eqn:Hm.
  - apply match_here_lengths in Hm. rewrite append_length.
    specialize (IH rest). simpl in Hm. lia.
  - destruct s as [|c s]; simpl; auto. specialize (IH s). lia.
Qed.

(** X12. Fence stripping never adds a character: the text that goes on to
    the repair pass is at most as long as the answer of the model. *)
Theorem strip_fences_never_longer :
  forall (ps : list Re.pattern) (content : string),
    (String.length (strip_fences ps content) <= String.length content)%nat
    /\ (String.length (strip_fences ps (strip content)) <= String.length content)%nat.
Proof.
  assert (H : forall ps content,
             (String.length (strip_fences ps content) <= String.length content)%nat).
  { induction ps as [|p ps IH]; intros content; simpl; auto.
    destruct (Re.search p content); auto.
    etransitivity; [apply strip_length | apply sub_from_length]. }
  intros ps content. split; [apply H|].
  etransitivity; [apply H | apply strip_length].
Qed.

(** ** [build_prompt] *)

Lemma build_prompt_frame :
  exists head tail : string,
    forall (title : string -> string) (lesson_data : list (string * pyval)),
      build_prompt title lesson_data
      = Some (head ++ join (chr newline) (collect_details title lesson_data []) ++ tail).
Proof.
  assert (H : exists head tail : string,
             forall details : string,
               format BASE_PROMPT [("fields", fields_text); ("details", details)]
               = Some (head ++ details ++ tail)).
  { match eval vm_compute in (index 0 "{details}" BASE_PROMPT) with
    | Some ?n =>
        match eval vm_compute in
              (format (substring 0 n BASE_PROMPT) [("fields", fields_text)]) with
        | Some ?h => exists h
        end;
        match eval vm_compute in
              (format (substring (n + 9) (String.length BASE_PROMPT) BASE_PROMPT) []) with
        | Some ?t => exists t
        end
    end.
    intros details. vm_compute. reflexivity. }
  destruct H as (head & tail & H). exists head, tail.
  intros title lesson_data. apply H.
Qed.

(** X13. [build_prompt] never raises, whatever the parameters are, braces in
    their texts included: the prompt is always one fixed text, the listing
    of the parameters, and another fixed text. *)
Theorem build_prompt_total :
  exists head tail : string,
    forall (title : string -> string) (lesson_data : list (string * pyval)),
      build_prompt title lesson_data
      = Some (head ++ join (chr newline) (collect_details title lesson_data []) ++ tail).
Proof. exact build_prompt_frame. Qed.

Lemma collect_details_filter title items : forall acc,
  collect_details title items acc
  = (acc ++ map (fun kv => detail_line title (fst kv) (snd kv)) (kept items))%list.
Proof.
  unfold kept.
  induction items as [|[k v] items IH]; intros acc; simpl.
  - now rewrite app_nil_r.
  - destruct (truthy v); rewrite IH; simpl; auto. now rewrite <- app_assoc.
Qed.

Lemma kept_idem items : kept (kept items) = kept items.
Proof.
  unfold kept. induction items as [|[k v] items IH]; simpl; auto.
  destruct (truthy v) eqn:E; simpl; [rewrite E, IH|]; auto.
Qed.

(** X14. Parameters whose value is false in Python (the empty text, zero,
    [None], an empty list or dictionary) leave no trace in the prompt: the
    listing has one line for each of the other parameters, in their order,
    and the prompt is the one built from those alone. *)
Theorem build_prompt_skips_empty :
  forall (title : string -> string) (lesson_data : list (string * pyval)),
    collect_details title lesson_data []
    = map (fun kv => detail_line title (fst kv) (snd kv)) (kept lesson_data)
    /\ build_prompt title lesson_data = build_prompt title (kept lesson_data).
Proof.
  intros title lesson_data.
  assert (H : forall items,
             collect_details title items []
             = map (fun kv => detail_line title (fst kv) (snd kv)) (kept items))
    by (intros items; now rewrite collect_details_filter).
  split; [apply H|].
  unfold build_prompt. now rewrite !H, kept_idem.
Qed.

(** ** The view [generate_and_save_lesson_plan] *)

Lemma map_values_get {A B : Type} (g : A -> B) (d : list (string * A)) k :
  dict_get (map (fun kv => (fst kv, g (snd kv))) d) k = option_map g (dict_get d k).
Proof.
  induction d as [|[k' v] d IH]; simpl; auto.
  destruct (String.eqb k' k); auto.
Qed.

Lemma merge_other data (ai : record) k :
  ~ In k (dict_keys ai) -> dict_get (merge data ai) k = dict_get data k.
Proof.
  unfold merge. revert data.
  induction ai as [|[k0 x0] ai IH]; intros data Hk; simpl; auto.
  rewrite IH by (intros H; apply Hk; now right).
  apply dict_get_set_ne. intros ->. apply Hk. now left.
Qed.

Lemma merge_get data (ai : record) k x :
  NoDup (dict_keys ai) -> dict_get ai k = Some x ->
  dict_get (merge data ai) k = Some (PyStr x).
Proof.
  unfold merge. revert data.
  induction ai as [|[k0 x0] ai IH]; intros data Hnd Hget; simpl in *; [discriminate|].
  inversion Hnd as [|? ? Hnotin Hnd']; subst.
  destruct (String.eqb k0 k) eqn:E.
  - apply String.eqb_eq in E. subst k0. inversion Hget; subst x0.
    fold (merge (dict_set data k (PyStr x)) ai).
    rewrite merge_other by assumption. apply dict_get_set_eq.
  - now apply IH.
Qed.

Lemma pick_keys names : forall d fields,
  pick names d = Some fields -> dict_keys fields = names.
Proof.
  induction names as [|f names IH]; intros d fields H; simpl in H.
  - now inversion H.
  - destruct (dict_get d f) as [v|]; [|discriminate].
    destruct (pick names d) as [rest|] eqn:E; [|discriminate].
    inversion H; subst. simpl. f_equal. eapply IH; eauto.
Qed.

Lemma pick_values names : forall d fields k v,
  pick names d = Some fields -> In (k, v) fields -> dict_get d k = Some v.
Proof.
  induction names as [|f names IH]; intros d fields k v H Hin; simpl in H.
  - inversion H; subst. contradiction.
  - destruct (dict_get d f) as [w|] eqn:Hf; [|discriminate].
    destruct (pick names d) as [rest|] eqn:E; [|discriminate].
    inversion H; subst. destruct Hin as [Heq|Hin].
    + now inversion Heq; subst.
    + eapply IH; eauto.
Qed.

Lemma pick_exists names : forall d,
  (forall f, In f names -> dict_get d f <> None) ->
  exists fields, pick names d = Some fields.
Proof.
  induction names as [|f names IH]; intros d H; simpl; [eexists; reflexivity|].
  destruct (dict_get d f) as [v|] eqn:Hf; [|exfalso; apply (H f); [now left | assumption]].
  destruct (IH d) as [rest Hrest]; [intros g Hg; apply H; now right|].
  rewrite Hrest. eexists. reflexivity.
Qed.

Lemma pick_get names d fields f :
  pick names d = Some fields -> NoDup names -> In f names ->
  dict_get fields f = dict_get d f.
Proof.
  intros Hp Hnd Hin.
  pose proof (pick_keys _ _ _ Hp) as Hkeys.
  assert (Hf : In f (dict_keys fields)) by now rewrite Hkeys.
  apply dict_get_In_keys in Hf.
  destruct (dict_get fields f) as [v|] eqn:Hget; [|congruence].
  apply dict_get_In in Hget. symmetry. eapply pick_values; eauto.
Qed.

Lemma LESSON_FIELDS_NoDup : NoDup LESSON_FIELDS.
Proof.
  unfold LESSON_FIELDS, REQUIRED_FORM_FIELDS, required_fields. simpl.
  repeat (constructor; [simpl; intuition discriminate|]). constructor.
Qed.

Lemma form_field_not_generated f :
  In f REQUIRED_FORM_FIELDS -> ~ In f required_fields.
Proof.
  simpl. intros H.
  repeat (destruct H as [<-|H]; [intuition discriminate|]). contradiction.
Qed.

Lemma complete_form_get post f :
  missing_fields (form_data post) = [] -> In f REQUIRED_FORM_FIELDS ->
  exists x, dict_get post f = Some x /\ x <> EmptyString.
Proof.
  unfold missing_fields, form_data. intros H Hf.
  rewrite filter_nil in H. specialize (H f Hf).
  rewrite map_values_get in H.
  destruct (dict_get post f) as [x|]; [|discriminate].
  exists x. split; auto. intros ->. discriminate.
Qed.

Lemma prompt_data_get post n f :
  dict_get (prompt_data post n) f
  = if String.eqb "num_pupils" f then Some (PyInt n)
    else option_map PyStr (dict_get post f).
Proof.
  unfold prompt_data, form_data. destruct (String.eqb "num_pupils" f) eqn:E.
  - apply String.eqb_eq in E. subst. apply dict_get_set_eq.
  - apply String.eqb_neq in E. rewrite dict_get_set_ne by assumption.
    apply map_values_get.
Qed.

Lemma outcome_normalized chat repair_json prompt config n r :
  outcome chat repair_json prompt config n = inr r ->
  exists v, normalize_ai_response v = inr r.
Proof.
  unfold outcome, attempt_once, process.
  destruct (chat _ _ _ _ n); [discriminate|].
  destruct (_ || _)%bool; [discriminate|].
  destruct (clean_invalid_json_chars repair_json s) as [e|clean]; [discriminate|].
  destruct (Json.loads clean) as [decoded|]; [|discriminate].
  destruct (Json.to_python decoded) as [parsed|]; [|discriminate].
  destruct (normalize_ai_response parsed) as [e|normalized] eqn:Hn; [discriminate|].
  destruct (validate _ _) as [e|[]]; [discriminate|].
  intros [= <-]. eauto.
Qed.

Lemma generated_is_normalized chat repair_json prompt config trace r :
  generate_lesson_plan chat repair_json prompt config = (trace, inr r) ->
  exists v, normalize_ai_response v = inr r.
Proof.
  unfold generate_lesson_plan. cbv zeta. intros H.
  set (cfg := effective config) in *. set (total := Z.to_nat (max_retries cfg)) in *.
  destruct (run_result chat repair_json prompt cfg total 0 None Locals.unbound [])
    as [(k & r' & _ & _ & Hok & Hrun)|[(k & e & raised & _ & _ & _ & _ & Hrun)
                                      |(_ & cause & Hrun & _)]];
    rewrite Hrun in H; [|discriminate|discriminate].
  inversion H; subst. eapply outcome_normalized; eauto.
Qed.

(** the view is without effect, or it is [store_plan] on a valid form *)
Lemma view_cases chat repair_json bleach_clean title create method post :
  (exists r,
      generate_and_save_lesson_plan chat repair_json bleach_clean title create method post
      = no_effect r)
  \/ (exists n prompt,
        method = "POST" /\ valid_form post n
        /\ build_prompt title (prompt_data post n) = Some prompt
        /\ generate_and_save_lesson_plan chat repair_json bleach_clean title create
             method post
           = store_plan bleach_clean create (prompt_data post n)
               (generate_lesson_plan chat repair_json prompt None)).
Proof.
  unfold generate_and_save_lesson_plan.
  destruct (String.eqb method "POST") eqn:Hm; simpl negb; cbv iota; [|eauto].
  apply String.eqb_eq in Hm.
  destruct (missing_fields (form_data post)) eqn:Hmiss; [|eauto].
  destruct (dict_get post "num_pupils") as [text|] eqn:Ht; [|eauto].
  destruct (py_int text) as [n|] eqn:Hn; [|eauto].
  destruct (Z.leb_spec n 0); [eauto|].
  destruct (build_prompt title (prompt_data post n)) as [prompt|] eqn:Hp; [|eauto].
  right. exists n, prompt. repeat split; auto.
  exists text. auto.
Qed.

Lemma view_on_valid_form chat repair_json bleach_clean title create post n :
  valid_form post n ->
  exists prompt,
    build_prompt title (prompt_data post n) = Some prompt
    /\ generate_and_save_lesson_plan chat repair_json bleach_clean title create "POST" post
       = store_plan bleach_clean create (prompt_data post n)
           (generate_lesson_plan chat repair_json prompt None).
Proof.
  intros (Hmiss & text & Ht & Hn & Hpos).
  destruct build_prompt_frame as (head & tail & Hprompt).
  eexists. split; [apply Hprompt|].
  unfold generate_and_save_lesson_plan. simpl negb. cbv iota.
  rewrite Hmiss, Ht, Hn.
  destruct (Z.leb_spec n 0); [lia|]. now rewrite Hprompt.
Qed.

Lemma normalized_shape v (r : record) :
  normalize_ai_response v = inr r ->
  NoDup (dict_keys r) /\ (forall k, In k (dict_keys r) <-> In k required_fields).
Proof.
  destruct v as [| | | | | |items]; try discriminate.
  unfold normalize_ai_response. intros [= <-].
  split; [apply normalized_NoDup | intros k; apply normalized_keys].
Qed.

Lemma sanitized_get bleach_clean data (ai : record) k :
  dict_get (sanitized bleach_clean data ai) k
  = option_map (sanitize_text bleach_clean) (dict_get (merge data ai) k).
Proof. apply map_values_get. Qed.

Lemma merge_origin data (ai : record) : forall k v,
  dict_get (merge data ai) k = Some v ->
  (exists x, v = PyStr x) \/ dict_get data k = Some v.
Proof.
  unfold merge. revert data.
  induction ai as [|[k0 x0] ai IH]; intros data k v H; simpl in H; [now right|].
  apply IH in H. destruct H as [H|H]; [now left|].
  destruct (String.eqb k0 k) eqn:E.
  - apply String.eqb_eq in E. subst k0. rewrite dict_get_set_eq in H.
    left. exists x0. congruence.
  - apply String.eqb_neq in E. rewrite dict_get_set_ne in H by assumption. now right.
Qed.

(** what [store_plan] does with a record that the normalizer has made *)
Lemma store_plan_created bleach_clean create post n trace (raw : record) v :
  missing_fields (form_data post) = [] ->
  normalize_ai_response v = inr raw ->
  exists fields,
    store_plan bleach_clean create (prompt_data post n) (trace, inr raw)
    = {| model_events := trace; created := Some fields;
         rendered := after_create (create fields) |}
    /\ dict_keys fields = LESSON_FIELDS
    /\ (forall f, In f LESSON_FIELDS ->
          dict_get fields f
          = option_map (sanitize_text bleach_clean)
              (dict_get (merge (prompt_data post n) raw) f)).
Proof.
  intros Hmiss Hn.
  destruct (normalized_shape _ _ Hn) as [Hnd Hkeys].
  unfold store_plan. rewrite (normalized_again _ _ Hn).
  destruct (pick_exists LESSON_FIELDS (sanitized bleach_clean (prompt_data post n) raw))
    as [fields Hpick].
  { intros f Hf. rewrite sanitized_get. unfold LESSON_FIELDS in Hf.
    apply in_app_or in Hf. destruct Hf as [Hf|Hf].
    - rewrite merge_other
        by (rewrite Hkeys; now apply form_field_not_generated).
      rewrite prompt_data_get. destruct (String.eqb "num_pupils" f); [discriminate|].
      destruct (complete_form_get post f Hmiss Hf) as (x & -> & _). discriminate.
    - apply Hkeys, dict_get_In_keys in Hf.
      destruct (dict_get raw f) as [x|] eqn:Hx; [|congruence].
      rewrite (merge_get _ _ _ _ Hnd Hx). discriminate. }
  rewrite Hpick. exists fields. split; [reflexivity|]. split.
  - eapply pick_keys; eauto.
  - intros f Hf. rewrite (pick_get _ _ _ _ Hpick LESSON_FIELDS_NoDup Hf).
    apply sanitized_get.
Qed.

Lemma str_of_Z_no_tag z : only_allowed_tags (str_of_Z z) = true.
Proof.
  unfold only_allowed_tags.
  now rewrite tags_of_no_angle by now apply str_of_Z_avoids.
Qed.

(** ** What the view answers *)

(** X15. A POST in which a required form field is absent or empty is
    answered with the form and the message that lists the missing fields,
    this one among them; the model is not called and no lesson is created. *)
Theorem incomplete_form_is_rejected :
  forall (chat : chat_service) (repair_json : string -> option string)
         (bleach_clean : cleaner) (title : string -> string)
         (create : list (string * string) -> store_result)
         (post : list (string * string)) (f : string),
    In f REQUIRED_FORM_FIELDS ->
    dict_get post f = None \/ dict_get post f = Some EmptyString ->
    In f (missing_fields (form_data post))
    /\ generate_and_save_lesson_plan chat repair_json bleach_clean title create "POST" post
       = no_effect (FormError ("Missing required fields: "
                               ++ join ", " (missing_fields (form_data post)))).
Proof.
  intros chat repair_json bleach_clean title create post f Hf Hempty.
  assert (Hin : In f (missing_fields (form_data post))).
  { unfold missing_fields. apply filter_In. split; [assumption|].
    unfold form_data. rewrite map_values_get.
    destruct Hempty as [-> | ->]; reflexivity. }
  split; [assumption|].
  unfold generate_and_save_lesson_plan. simpl negb. cbv iota.
  destruct (missing_fields (form_data post)); [contradiction | reflexivity].
Qed.

Lemma incomplete_form_is_rejected_witness :
  In "date" (missing_fields (form_data [("teacher_name", "A. Banda"); ("date", EmptyString)]))
  /\ generate_and_save_lesson_plan good_chat repair_identity strip_cleaner (fun s => s)
       (fun _ => Stored 1) "POST" [("teacher_name", "A. Banda"); ("date", EmptyString)]
     = no_effect (FormError ("Missing required fields: "
         ++ join ", " (missing_fields
                         (form_data [("teacher_name", "A. Banda"); ("date", EmptyString)])))).
Proof.
  apply (incomplete_form_is_rejected good_chat repair_identity strip_cleaner (fun s => s)
           (fun _ => Stored 1) [("teacher_name", "A. Banda"); ("date", EmptyString)] "date").
  - simpl. auto.
  - right. reflexivity.
Defined.

(** X16. On a complete form whose number of pupils does not read as a
    positive integer, the view answers with the form and a message:
    [Invalid number of pupils] when [int] does not read the text,
    [Number of pupils must be positive] when it reads zero or less.  The
    model is not called and no lesson is created. *)
Theorem num_pupils_is_checked :
  forall (chat : chat_service) (repair_json : string -> option string)
         (bleach_clean : cleaner) (title : string -> string)
         (create : list (string * string) -> store_result)
         (post : list (string * string)) (text : string),
    missing_fields (form_data post) = [] ->
    dict_get post "num_pupils" = Some text ->
    (forall n, py_int text = Some n -> n <= 0) ->
    generate_and_save_lesson_plan chat repair_json bleach_clean title create "POST" post
    = no_effect (FormError match py_int text with
                           | None => "Invalid number of pupils"
                           | Some _ => "Number of pupils must be positive"
                           end).
Proof.
  intros chat repair_json bleach_clean title create post text Hmiss Ht Hbad.
  unfold generate_and_save_lesson_plan. simpl negb. cbv iota.
  rewrite Hmiss, Ht.
  destruct (py_int text) as [n|]; [|reflexivity].
  specialize (Hbad n eq_refl).
  destruct (Z.leb_spec n 0); [reflexivity | lia].
Qed.

Lemma num_pupils_is_checked_witness :
  generate_and_save_lesson_plan good_chat repair_identity strip_cleaner (fun s => s)
    (fun _ => Stored 1) "POST" (dict_set sample_form "num_pupils" "-5")
  = no_effect (FormError match py_int "-5" with
                         | None => "Invalid number of pupils"
                         | Some _ => "Number of pupils must be positive"
                         end).
Proof.
  apply (num_pupils_is_checked good_chat repair_identity strip_cleaner (fun s => s)
           (fun _ => Stored 1) (dict_set sample_form "num_pupils" "-5") "-5").
  - reflexivity.
  - reflexivity.
  - intros n H. vm_compute in H. injection H as <-. lia.
Defined.

(** X17. The view calls the model or creates a lesson only for a POST whose
    form has every required field filled in and a number of pupils that
    reads as a positive integer. *)
Theorem effects_need_a_valid_form :
  forall (chat : chat_service) (repair_json : string -> option string)
         (bleach_clean : cleaner) (title : string -> string)
         (create : list (string * string) -> store_result)
         (method : string) (post : list (string * string)),
    model_events
      (generate_and_save_lesson_plan chat repair_json bleach_clean title create method post)
    <> []
    \/ created
         (generate_and_save_lesson_plan chat repair_json bleach_clean title create method post)
       <> None ->
    method = "POST" /\ exists n, valid_form post n.
Proof.
  intros chat repair_json bleach_clean title create method post H.
  destruct (view_cases chat repair_json bleach_clean title create method post)
    as [[r Hr]|(n & prompt & Hm & Hv & _ & _)].
  - rewrite Hr in H. simpl in H. destruct H as [H|H]; now contradiction H.
  - split; [assumption | now exists n].
Qed.

Lemma effects_need_a_valid_form_witness :
  "POST" = "POST" /\ exists n, valid_form sample_form n.
Proof.
  apply (effects_need_a_valid_form good_chat repair_identity strip_cleaner (fun s => s)
           (fun _ => Stored 1) "POST" sample_form).
  left. vm_compute. discriminate.
Defined.

(** X18. When every one of the three attempts fails on a valid form, the
    view has called the model three times and slept three seconds in all,
    creates no lesson and answers with the form and the fixed text for an
    unexpected error.  A failed attempt is one whose error is
    [self_contained]: the answer of the model is a text that fails in the
    body, or the call raises an error of the generic handler. *)
Theorem failed_generation_creates_nothing :
  forall (chat : chat_service) (repair_json : string -> option string)
         (bleach_clean : cleaner) (title : string -> string)
         (create : list (string * string) -> store_result)
         (post : list (string * string)) (n : Z),
    valid_form post n ->
    (forall prompt k, (k < 3)%nat ->
       exists e, outcome chat repair_json prompt default_config k = inl e
                 /\ self_contained e = true) ->
    exists trace,
      generate_and_save_lesson_plan chat repair_json bleach_clean title create "POST" post
      = {| model_events := trace; created := None; rendered := FormUnexpected |}
      /\ invocations trace = 3%nat
      /\ total_sleep trace = 3.
Proof.
  intros chat repair_json bleach_clean title create post n Hv Hfail.
  destruct (view_on_valid_form chat repair_json bleach_clean title create post n Hv)
    as (prompt & _ & ->).
  unfold generate_lesson_plan. cbv zeta.
  change (Z.to_nat (max_retries (effective None))) with 3%nat.
  destruct (attempts_all_fail chat repair_json prompt (effective None) 3 0 None
              Locals.unbound [])
    as (cause & -> & _).
  { intros k Hk. destruct (Hfail prompt k Hk) as (e & He & Hs).
    now apply retried_self_contained with e. }
  eexists. split; [reflexivity|]. split; reflexivity.
Qed.

Lemma failed_generation_creates_nothing_witness :
  exists trace,
    generate_and_save_lesson_plan silent_chat repair_identity strip_cleaner (fun s => s)
      (fun _ => Stored 1) "POST" sample_form
    = {| model_events := trace; created := None; rendered := FormUnexpected |}
    /\ invocations trace = 3%nat
    /\ total_sleep trace = 3.
Proof.
  apply (failed_generation_creates_nothing silent_chat repair_identity strip_cleaner
           (fun s => s) (fun _ => Stored 1) sample_form 30).
  - split; [reflexivity|]. exists " 30 ". repeat split.
  - intros prompt k _. eexists. split; reflexivity.
Defined.

(** X19. When generation succeeds on a valid form, the lesson is created
    with the twenty-one fields of the model, in order: each generated
    section holds the cleaned text of the generated record (a posted value
    of the same name is overridden), the number of pupils is the decimal
    text of the integer read, every other form field is the cleaned posted
    text; the answer follows from what the creation did. *)
Theorem created_lesson_fields :
  forall (chat : chat_service) (repair_json : string -> option string)
         (bleach_clean : cleaner) (title : string -> string)
         (create : list (string * string) -> store_result)
         (post : list (string * string)) (n : Z) (prompt : string)
         (trace : list event) (raw : record),
    valid_form post n ->
    build_prompt title (prompt_data post n) = Some prompt ->
    generate_lesson_plan chat repair_json prompt None = (trace, inr raw) ->
    exists fields,
      generate_and_save_lesson_plan chat repair_json bleach_clean title create "POST" post
      = {| model_events := trace; created := Some fields;
           rendered := after_create (create fields) |}
      /\ dict_keys fields = LESSON_FIELDS
      /\ (forall f x, dict_get raw f = Some x ->
            dict_get fields f = Some (bleach_clean ALLOWED_TAGS ALLOWED_ATTRIBUTES true x))
      /\ dict_get fields "num_pupils" = Some (str_of_Z n)
      /\ (forall f x, In f REQUIRED_FORM_FIELDS -> f <> "num_pupils" ->
            dict_get post f = Some x ->
            dict_get fields f = Some (bleach_clean ALLOWED_TAGS ALLOWED_ATTRIBUTES true x)).
Proof.
  intros chat repair_json bleach_clean title create post n prompt trace raw Hv Hp Hgen.
  destruct (view_on_valid_form chat repair_json bleach_clean title create post n Hv)
    as (prompt' & Hp' & ->).
  assert (prompt' = prompt) by congruence. subst prompt'. rewrite Hgen.
  destruct (generated_is_normalized _ _ _ _ _ _ Hgen) as [v Hn].
  destruct (normalized_shape _ _ Hn) as [Hnd Hkeys].
  destruct Hv as (Hmiss & _).
  destruct (store_plan_created bleach_clean create post n trace raw v Hmiss Hn)
    as (fields & -> & Hk & Hget).
  exists fields. split; [reflexivity|]. split; [assumption|].
  assert (Hform : forall f, In f REQUIRED_FORM_FIELDS ->
            dict_get fields f
            = option_map (sanitize_text bleach_clean) (dict_get (prompt_data post n) f)).
  { intros f Hf. rewrite Hget by (unfold LESSON_FIELDS; apply in_or_app; now left).
    now rewrite merge_other by (rewrite Hkeys; now apply form_field_not_generated). }
  split; [|split].
  - intros f x Hx.
    assert (Hf : In f required_fields)
      by (apply Hkeys, dict_get_In_keys; congruence).
    rewrite Hget by (unfold LESSON_FIELDS; apply in_or_app; now right).
    now rewrite (merge_get _ _ _ _ Hnd Hx).
  - rewrite Hform by (simpl; tauto). rewrite prompt_data_get. reflexivity.
  - intros f x Hf Hne Hx. rewrite Hform by assumption. rewrite prompt_data_get.
    destruct (String.eqb_spec "num_pupils" f) as [E|_]; [now subst f|].
    now rewrite Hx.
Qed.

Lemma created_lesson_fields_witness :
  exists fields,
    generate_and_save_lesson_plan good_chat repair_identity strip_cleaner (fun s => s)
      (fun _ => Stored 1) "POST" sample_form
    = {| model_events := [Invoke 0]; created := Some fields;
         rendered := after_create (Stored 1) |}
    /\ dict_keys fields = LESSON_FIELDS
    /\ (forall f x, dict_get (filled_record 50) f = Some x ->
          dict_get fields f = Some (strip_cleaner ALLOWED_TAGS ALLOWED_ATTRIBUTES true x))
    /\ dict_get fields "num_pupils" = Some (str_of_Z 30)
    /\ (forall f x, In f REQUIRED_FORM_FIELDS -> f <> "num_pupils" ->
          dict_get sample_form f = Some x ->
          dict_get fields f = Some (strip_cleaner ALLOWED_TAGS ALLOWED_ATTRIBUTES true x)).
Proof.
  eapply (created_lesson_fields good_chat repair_identity strip_cleaner (fun s => s)
            (fun _ => Stored 1) sample_form 30).
  - split; [reflexivity|]. exists " 30 ". repeat split.
  - vm_compute. reflexivity.
  - vm_compute. reflexivity.
Defined.

(** X20. When [bleach.clean] leaves only allowed tags, every value that the
    view hands to the creation of a lesson has only allowed tags, the
    number of pupils included. *)
Theorem created_values_are_clean :
  forall (chat : chat_service) (repair_json : string -> option string)
         (bleach_clean : cleaner) (title : string -> string)
         (create : list (string * string) -> store_result)
         (method : string) (post fields : list (string * string)),
    sanitize_contract bleach_clean ->
    created
      (generate_and_save_lesson_plan chat repair_json bleach_clean title create method post)
    = Some fields ->
    forall f x, In (f, x) fields -> only_allowed_tags x = true.
Proof.
  intros chat repair_json bleach_clean title create method post fields Hc Hcreated f x Hin.
  destruct (view_cases chat repair_json bleach_clean title create method post)
    as [[r Hr]|(n & prompt & _ & _ & _ & Hview)].
  { rewrite Hr in Hcreated. discriminate. }
  rewrite Hview in Hcreated. unfold store_plan in Hcreated.
  destruct (generate_lesson_plan chat repair_json prompt None) as [trace [e|raw]];
    [destruct e; discriminate|].
  destruct (normalize_ai_response (record_value raw)) as [e|ai]; [discriminate|].
  destruct (pick LESSON_FIELDS (sanitized bleach_clean (prompt_data post n) ai))
    as [fields'|] eqn:Hpick; [|discriminate].
  simpl in Hcreated. injection Hcreated as ->.
  pose proof (pick_values _ _ _ _ _ Hpick Hin) as Hget.
  rewrite sanitized_get in Hget.
  destruct (dict_get (merge (prompt_data post n) ai) f) as [v|] eqn:Hv; [|discriminate].
  simpl in Hget. injection Hget as <-.
  apply merge_origin in Hv. destruct Hv as [[y ->]|Hv]; [apply Hc|].
  rewrite prompt_data_get in Hv.
  destruct (String.eqb "num_pupils" f).
  - injection Hv as <-. apply str_of_Z_no_tag.
  - destruct (dict_get post f); [|discriminate]. injection Hv as <-. apply Hc.
Qed.

Lemma created_values_are_clean_witness :
  exists fields,
    created
      (generate_and_save_lesson_plan good_chat repair_identity strip_cleaner (fun s => s)
         (fun _ => Stored 1) "POST" sample_form)
    = Some fields
    /\ forall f x, In (f, x) fields -> only_allowed_tags x = true.
Proof.
  eexists. split; [vm_compute; reflexivity|].
  apply (created_values_are_clean good_chat repair_identity strip_cleaner (fun s => s)
           (fun _ => Stored 1) "POST" sample_form).
  - exact strip_cleaner_contract.
  - vm_compute. reflexivity.
Defined.

(** X21. A lesson is created only from a generated record that has passed
    the schema: each of the ten sections handed to the creation is the
    cleaned text of that record's field. *)
Theorem created_from_valid_record :
  forall (chat : chat_service) (repair_json : string -> option string)
         (bleach_clean : cleaner) (title : string -> string)
         (create : list (string * string) -> store_result)
         (method : string) (post fields : list (string * string)),
    created
      (generate_and_save_lesson_plan chat repair_json bleach_clean title create method post)
    = Some fields ->
    exists raw : record,
      validate (record_value raw) SCHEMA = inr tt
      /\ schema_ok raw
      /\ forall f, In f required_fields ->
           exists x, dict_get raw f = Some x
                     /\ dict_get fields f
                        = Some (bleach_clean ALLOWED_TAGS ALLOWED_ATTRIBUTES true x).
Proof.
  intros chat repair_json bleach_clean title create method post fields Hcreated.
  destruct (view_cases chat repair_json bleach_clean title create method post)
    as [[r Hr]|(n & prompt & _ & [Hmiss _] & _ & Hview)].
  { rewrite Hr in Hcreated. discriminate. }
  rewrite Hview in Hcreated.
  destruct (generate_lesson_plan chat repair_json prompt None) as [trace [e|raw]] eqn:Hgen;
    [destruct e; discriminate|].
  pose proof Hgen as Hok. unfold generate_lesson_plan in Hok. apply attempts_valid in Hok.
  destruct (generated_is_normalized _ _ _ _ _ _ Hgen) as [v Hn].
  destruct (store_plan_created bleach_clean create post n trace raw v Hmiss Hn)
    as (fields' & Hstore & _ & Hget).
  assert (Hsame : Some fields' = Some fields).
  { change (Some fields')
      with (created {| model_events := trace; created := Some fields';
                       rendered := after_create (create fields') |}).
    rewrite <- Hstore. exact Hcreated. }
  injection Hsame as ->.
  exists raw. split; [apply validate_iff; [apply Hok | exact Hok]|].
  split; [exact Hok|].
  intros f Hf. destruct Hok as (Hnd & Hkeys & _).
  apply Hkeys, dict_get_In_keys in Hf.
  destruct (dict_get raw f) as [x|] eqn:Hx; [|congruence].
  exists x. split; [reflexivity|].
  rewrite Hget.
  - now rewrite (merge_get _ _ _ _ Hnd Hx).
  - unfold LESSON_FIELDS. apply in_or_app. right.
    apply Hkeys, dict_get_In_keys. congruence.
Qed.

Lemma created_from_valid_record_witness :
  exists fields,
    created
      (generate_and_save_lesson_plan good_chat repair_identity strip_cleaner (fun s => s)
         (fun _ => Stored 1) "POST" sample_form)
    = Some fields
    /\ exists raw : record,
         validate (record_value raw) SCHEMA = inr tt
         /\ schema_ok raw
         /\ forall f, In f required_fields ->
              exists x, dict_get raw f = Some x
                        /\ dict_get fields f
                           = Some (strip_cleaner ALLOWED_TAGS ALLOWED_ATTRIBUTES true x).
Proof.
  eexists. split; [vm_compute; reflexivity|].
  apply (created_from_valid_record good_chat repair_identity strip_cleaner (fun s => s)
           (fun _ => Stored 1) "POST" sample_form).
  vm_compute. reflexivity.
Defined.

Lemma store_plan_events bleach_clean create data run :
  model_events (store_plan bleach_clean create data run) = fst run.
Proof.
  unfold store_plan. destruct run as [trace [e|raw]]; [destruct e; reflexivity|].
  destruct (normalize_ai_response _); [reflexivity|].
  destruct (pick _ _); reflexivity.
Qed.

(** X22. Whatever the request and whatever the model answers, the view
    calls the model at most three times and sleeps at most three seconds. *)
Theorem view_effort_is_bounded :
  forall (chat : chat_service) (repair_json : string -> option string)
         (bleach_clean : cleaner) (title : string -> string)
         (create : list (string * string) -> store_result)
         (method : string) (post : list (string * string)),
    (invocations
       (model_events
          (generate_and_save_lesson_plan chat repair_json bleach_clean title create
             method post)) <= 3)%nat
    /\ 0 <= total_sleep
              (model_events
                 (generate_and_save_lesson_plan chat repair_json bleach_clean title create
                    method post)) <= 3.
Proof.
  intros chat repair_json bleach_clean title create method post.
  destruct (view_cases chat repair_json bleach_clean title create method post)
    as [[r ->]|(n & prompt & _ & _ & _ & ->)].
  { split; [apply Nat.le_0_l | simpl; lia]. }
  rewrite store_plan_events.
  destruct (run_bounds chat repair_json prompt None) as [Hinv Hsleep].
  change (Z.to_nat (max_retries (effective None))) with 3%nat in Hinv.
  split; [exact Hinv|]. rewrite Hsleep.
  destruct (invocations _) as [|[|[|[|j]]]]; simpl; lia.
Qed.
